(** * Relocation passes of revamb: locating relocation loads, adding
      [dl.<symbol>] calls, translating relocation calls.

    A shallow embedding of [relocationpass.cpp] / [relocationpass.h] (both
    revisions kept in the repository: the split pair
    [LocateRelocationAccessesPass] + [AddRelocationCallsPass], and the fused
    [TranslateRelocationCallsPass]) over a small model of the LLVM IR objects
    that the passes touch. *)

From Stdlib Require Import ZArith String List Bool Lia.
From stdpp Require Import base option list strings relations.

Local Open Scope Z_scope.
Local Open Scope string_scope.
Local Open Scope list_scope.

(** ** The IR objects the passes read and mutate *)

(** Opcodes of constant expressions; the passes only ask for [IntToPtr], and
    [Module::getOrInsertFunction] builds a [BitCast]. *)
Inductive CastOpcode := IntToPtr | BitCast | OtherCast.

(** [llvm::Value]: an operand.  An instruction is referred to by its index in
    the instruction arena of the module (its identity), a function or global
    variable by its name in the module's symbol table.  A function without
    a name is not in the symbol table; it is referred to by its place in the
    function list of the module. *)
Inductive Value :=
| VInst (id : nat)
| VConstInt (v : Z)
| VConstExpr (opc : CastOpcode) (arg : Value)
| VFunction (name : string)
| VUnnamedFunction (idx : nat)
| VGlobalVar (name : string)
| VOther (n : nat).

(** Instructions, by class ([dyn_cast<LoadInst>], [dyn_cast<StoreInst>],
    [dyn_cast<CallInst>]); everything else is [OtherInst]. *)
Inductive Opcode :=
| LoadInst (ptr : Value)
| StoreInst (val ptr : Value)
| CallInst (callee : Value) (args : list Value)
| ReturnInst
| OtherInst (operands : list Value).

(** The node stored under the ["revamb.relocation"] metadata kind:
    [MDNode::get(Ctx, {MDString(Name), ConstantInt(Int64, Addend)})]. *)
Record MDNode := mkMD { mdName : string; mdAddend : Z }.

(** An instruction: its opcode and operands, the basic block it is linked
    into ([getParent]), and its ["revamb.relocation"] metadata, if any. *)
Record Instruction := mkInst {
  opcode : Opcode;
  parent : nat;
  reloc : option MDNode
}.

Inductive Ty := VoidTy | IntTy (bits : nat) | PtrTy (n : nat).

Record FunctionType := mkFT {
  retTy : Ty;
  paramTys : list Ty;
  isVarArg : bool
}.

#[global] Instance Ty_eq_dec : EqDecision Ty.
Proof. solve_decision. Defined.

#[global] Instance FunctionType_eq_dec : EqDecision FunctionType.
Proof. solve_decision. Defined.

(** [llvm::Function]: name, type and the list of its basic blocks (indices
    into the block arena); a declaration has no block. *)
Record IRFunction := mkFn {
  fname : string;
  ftype : FunctionType;
  fblocks : list nat
}.

(** [llvm::Module].  [insts] and [blocks] are the arenas that give
    instructions and basic blocks their identity; a basic block is the list
    of the instructions linked into it, in order.  [linkerOptions] is the
    module-level metadata written by [AddLibraryMetadataPass]. *)
Record IRModule := mkModule {
  insts : list Instruction;
  blocks : list (list nat);
  functions : list IRFunction;
  globalVars : list string;
  linkerOptions : option (list string)
}.

(** Modelled from the spec: [RelocationInfo] is declared in binaryfile.h,
    which is not among the sources at hand.  The specification gives a
    relocation record as [{address: u64, symbolName: string, addend: i64}];
    the passes read exactly the members [Address], [Name] and [Addend]. *)
Record RelocationInfo := mkReloc {
  Address : Z;
  Name : string;
  Addend : Z
}.

(** Execution either goes on or stops on a failed assertion. *)
Inductive Failure := NullCast | FailedAssert.

Inductive result (A : Type) :=
| Ok (a : A)
| Abort (why : Failure).
Arguments Ok {A} a.
Arguments Abort {A} why.

#[global] Instance result_ret : MRet result := fun A a => Ok a.

#[global] Instance result_bind : MBind result := fun A B k r =>
  match r with
  | Ok a => k a
  | Abort w => Abort w
  end.

(** ** Accessors and mutators of the IR *)

Definition setInsts (M : IRModule) (l : list Instruction) : IRModule :=
  mkModule l (blocks M) (functions M) (globalVars M) (linkerOptions M).

Definition setBlocks (M : IRModule) (l : list (list nat)) : IRModule :=
  mkModule (insts M) l (functions M) (globalVars M) (linkerOptions M).

Definition setFunctions (M : IRModule) (l : list IRFunction) : IRModule :=
  mkModule (insts M) (blocks M) l (globalVars M) (linkerOptions M).

Definition getOpcode (M : IRModule) (I : nat) : option Opcode :=
  opcode <$> insts M !! I.

(** [I.getMetadata(MDKindId)] for the ["revamb.relocation"] kind. *)
Definition getMetadata (M : IRModule) (I : nat) : option MDNode :=
  insts M !! I ≫= reloc.

(** [I.setMetadata(MDKindId, Meta)]. *)
Definition setMetadata (M : IRModule) (I : nat) (Meta : MDNode) : IRModule :=
  match insts M !! I with
  | Some i => setInsts M (<[I := mkInst (opcode i) (parent i) (Some Meta)]> (insts M))
  | None => M
  end.

(** [dyn_cast<LoadInst>(V)]: the instruction behind [V] when it is a load. *)
Definition asLoad (M : IRModule) (V : Value) : option nat :=
  match V with
  | VInst l =>
      match getOpcode M l with
      | Some (LoadInst _) => Some l
      | _ => None
      end
  | _ => None
  end.

(** The node after the first occurrence of [I] in a block. *)
Fixpoint nextIn (I : nat) (b : list nat) : option nat :=
  match b with
  | [] => None
  | x :: r => if decide (x = I) then head r else nextIn I r
  end.

(** [I.getNextNode()]: the instruction linked after [I] in its parent block,
    [None] (a null pointer) when [I] is the last one. *)
Definition getNextNode (M : IRModule) (I : nat) : option nat :=
  i ← insts M !! I; b ← blocks M !! parent i; nextIn I b.

(** Link [New] right after / right before [I] in a block. *)
Fixpoint insertAfter (I New : nat) (b : list nat) : list nat :=
  match b with
  | [] => []
  | x :: r => if decide (x = I) then x :: New :: r else x :: insertAfter I New r
  end.

Fixpoint insertBefore (I New : nat) (b : list nat) : list nat :=
  match b with
  | [] => []
  | x :: r => if decide (x = I) then New :: x :: r else x :: insertBefore I New r
  end.

(** [Module::getFunction(Name)] for a name of the symbol table, that is,
    one that is not empty. *)
Fixpoint getFunction (fs : list IRFunction) (N : string) : option IRFunction :=
  match fs with
  | [] => None
  | f :: r => if decide (fname f = N) then Some f else getFunction r N
  end.

(** [Module::getOrInsertFunction(Name, Ty)] of LLVM: a missing name is
    declared (appended to the function list); a global of that name with
    another type is returned behind a bitcast; otherwise the function
    itself is returned.  The empty name is never found, [getNamedValue]
    looks into the symbol table and values without a name are not in it:
    every call with the empty name declares one more function without a
    name. *)
Definition getOrInsertFunction (M : IRModule) (N : string) (T : FunctionType)
  : IRModule * Value :=
  if decide (N = EmptyString) then
    (setFunctions M (functions M ++ [mkFn EmptyString T []]),
     VUnnamedFunction (length (functions M)))
  else
    match getFunction (functions M) N with
    | Some f =>
        if decide (ftype f = T) then (M, VFunction N)
        else (M, VConstExpr BitCast (VFunction N))
    | None =>
        if decide (N ∈ globalVars M) then (M, VConstExpr BitCast (VGlobalVar N))
        else (setFunctions M (functions M ++ [mkFn N T []]), VFunction N)
    end.

(** [Func->isDeclaration()]. *)
Definition isDeclaration (M : IRModule) (N : string) : bool :=
  match getFunction (functions M) N with
  | Some f => match fblocks f with [] => true | _ => false end
  | None => false
  end.

(** Give the function called [N] the block list [bs]. *)
Fixpoint setBody (N : string) (bs : list nat) (fs : list IRFunction) : list IRFunction :=
  match fs with
  | [] => []
  | f :: r =>
      if decide (fname f = N) then mkFn (fname f) (ftype f) bs :: r
      else f :: setBody N bs r
  end.

(** [BasicBlock::Create] of an unnamed entry block in [Func], followed by
    [IRBuilder<>(Entry).CreateRetVoid()]. *)
Definition createRetVoidBody (M : IRModule) (N : string) : IRModule :=
  let Entry := length (blocks M) in
  let Ret := length (insts M) in
  mkModule (insts M ++ [mkInst ReturnInst Entry None])
           (blocks M ++ [[Ret]])
           (setBody N [Entry] (functions M))
           (globalVars M) (linkerOptions M).

(** The same two for a function without a name, the [F]-th of the function
    list. *)
Definition isDeclarationAt (M : IRModule) (F : nat) : bool :=
  match functions M !! F with
  | Some f => match fblocks f with [] => true | _ => false end
  | None => false
  end.

Definition createRetVoidBodyAt (M : IRModule) (F : nat) : IRModule :=
  let Entry := length (blocks M) in
  let Ret := length (insts M) in
  mkModule (insts M ++ [mkInst ReturnInst Entry None])
           (blocks M ++ [[Ret]])
           (alter (fun f => mkFn (fname f) (ftype f) [Entry]) F (functions M))
           (globalVars M) (linkerOptions M).

(** [IRBuilder<>(Pos).CreateCall(Callee, {})] with the insertion point given
    by a function on the parent block of [At]. *)
Definition createCall (M : IRModule) (At : nat) (place : nat -> list nat -> list nat)
  (Callee : Value) : IRModule :=
  match insts M !! At with
  | Some i =>
      let New := length (insts M) in
      let M' := setInsts M (insts M ++ [mkInst (CallInst Callee []) (parent i) None]) in
      match blocks M !! parent i with
      | Some b => setBlocks M' (<[parent i := place New b]> (blocks M))
      | None => M'
      end
  | None => M
  end.

(** The instructions of a block and of the whole module, in layout order. *)
Definition blockInsts (M : IRModule) (BB : nat) : list nat :=
  default [] (blocks M !! BB).

Definition moduleInsts (M : IRModule) : list nat :=
  f ← functions M; BB ← fblocks f; blockInsts M BB.

(** The pointer operand of a load when it is [inttoptr (iN c)], see the
    two [dyn_cast]s at the top of [handleLoad]. *)
Definition constantAddress (M : IRModule) (Load : nat) : option Z :=
  match getOpcode M Load with
  | Some (LoadInst (VConstExpr IntToPtr (VConstInt c))) => Some c
  | _ => None
  end.

(** [ConstantInt::get(Int64, Addend)]: the addend as a 64-bit constant. *)
Definition int64 (a : Z) : Z := a mod 2 ^ 64.

(** ** LocateRelocationAccessesPass (split pair, locating half) *)

Module LocateRelocationAccessesPass.

(** The loop over [*Relocations] in [handleLoad]: the first record whose
    address equals the constant tags the load, unless it is tagged already;
    a tagged load makes every iteration fall through.  [equalsInt] compares
    the constant with the address as unsigned numbers. *)
Fixpoint scanRelocations (M : IRModule) (Load : nat) (c : Z)
  (Relocations : list RelocationInfo) : IRModule * bool :=
  match Relocations with
  | [] => (M, false)
  | Reloc :: rest =>
      if (c =? Address Reloc)%Z then
        match getMetadata M Load with
        | None =>
            (setMetadata M Load (mkMD (Name Reloc) (int64 (Addend Reloc))), true)
        | Some _ => scanRelocations M Load c rest
        end
      else scanRelocations M Load c rest
  end.

Definition handleLoad (Relocations : list RelocationInfo) (M : IRModule) (Load : nat)
  : IRModule * bool :=
  match constantAddress M Load with
  | Some c => scanRelocations M Load c Relocations
  | None => (M, false)
  end.

(** One iteration of [for (auto &I : BB)]. *)
Definition visit (Relocations : list RelocationInfo) (st : IRModule * bool) (I : nat)
  : IRModule * bool :=
  match getOpcode st.1 I with
  | Some (LoadInst _) =>
      let r := handleLoad Relocations st.1 I in (r.1, st.2 || r.2)
  | _ => st
  end.

(** [runOnBasicBlock]: the pass only rewrites metadata, so the instructions
    met by the loop are those of the block on entry. *)
Definition runOnBasicBlock (Relocations : list RelocationInfo) (M : IRModule) (BB : nat)
  : IRModule * bool :=
  foldl (visit Relocations) (M, false) (blockInsts M BB).

End LocateRelocationAccessesPass.

(** ** AddRelocationCallsPass (split pair, rewriting half) *)

Module AddRelocationCallsPass.

Section WithJTM.

(** [JTM->isPCReg]: the oracle of the lifting engine. *)
Variable isPCReg : Value -> bool.

Definition getRelocName (M : IRModule) (I : nat) (needsZeroAddend : bool) : string :=
  match getMetadata M I with
  | Some MD =>
      if negb needsZeroAddend || (mdAddend MD =? 0)%Z then mdName MD else EmptyString
  | None => EmptyString
  end.

(** [Call->getCalledFunction()]: the callee when the call is direct, here
    by its name ([F->getName()] is all that is asked of it), which is empty
    for a function without one. *)
Definition getCalledFunction (Callee : Value) : option string :=
  match Callee with
  | VFunction N => Some N
  | VUnnamedFunction _ => Some EmptyString
  | _ => None
  end.

(** [dyn_cast<CallInst>(I.getNextNode())] is handed a null pointer when [I]
    ends its block; LLVM's [isa<>] asserts on that. *)
Definition succeededByCall (M : IRModule) (I : nat) (Function : string) : result bool :=
  match getNextNode M I with
  | None => Abort NullCast
  | Some Next =>
      match getOpcode M Next with
      | Some (CallInst Callee _) =>
          match getCalledFunction Callee with
          | Some N => Ok (bool_decide (Function = N))
          | None => Ok false
          end
      | _ => Ok false
      end
  end.

Definition voidFn : FunctionType := mkFT VoidTy [] false.

(** First half of [buildCall] ("Get or create function"): the callee, and
    a body made of a lone [ret void] when what was found or inserted is a
    function without one. *)
Definition getOrCreate (M : IRModule) (N : string) : IRModule * Value :=
  let '(M1, V) := getOrInsertFunction M N voidFn in
  match V with
  | VFunction F => (if isDeclaration M1 F then createRetVoidBody M1 F else M1, V)
  | VUnnamedFunction F =>
      (if isDeclarationAt M1 F then createRetVoidBodyAt M1 F else M1, V)
  | _ => (M1, V)
  end.

(** Second half ("Insert call"): the call is built in front of
    [I.getNextNode()], that is, linked right after [I]. *)
Definition buildCall (M : IRModule) (I : nat) (N : string) : result IRModule :=
  let '(M2, V) := getOrCreate M N in
  match getNextNode M2 I with
  | None => Abort FailedAssert
  | Some _ => Ok (createCall M2 I (insertAfter I) V)
  end.

Definition visitStoreInst (st : IRModule * bool) (I : nat) (val ptr : Value)
  : result (IRModule * bool) :=
  if isPCReg ptr then
    match asLoad st.1 val with
    | Some Load =>
        let RelocName := getRelocName st.1 Load true in
        if decide (RelocName = EmptyString) then Ok st
        else
          let N := "dl." +:+ RelocName in
          already ← succeededByCall st.1 I N;
          if (already : bool) then Ok st
          else M' ← buildCall st.1 I N; Ok (M', true)
    | None => Ok st
    end
  else Ok st.

(** [InstVisitor::visit(Instruction &)]: only stores have a handler. *)
Definition visit (st : IRModule * bool) (I : nat) : result (IRModule * bool) :=
  match getOpcode st.1 I with
  | Some (StoreInst val ptr) => visitStoreInst st I val ptr
  | _ => Ok st
  end.

Fixpoint visitAll (st : IRModule * bool) (l : list nat) : result (IRModule * bool) :=
  match l with
  | [] => Ok st
  | Inst :: rest => st' ← visit st Inst; visitAll st' rest
  end.

(** [runOnModule]: [visit(M)] walks functions, blocks and instructions in
    order.  What the pass links in while walking are calls and [ret]s (in
    new blocks), none of which has a handler, so the stores that are
    visited are those of the module on entry, in layout order. *)
Definition runOnModule (M : IRModule) : result (IRModule * bool) :=
  visitAll (M, false) (moduleInsts M).

End WithJTM.

End AddRelocationCallsPass.

(** ** TranslateRelocationCallsPass (fused variant) *)

Module TranslateRelocationCallsPass.

Section WithJTM.

Variable isPCReg : Value -> bool.

Definition varArgVoidFn : FunctionType := mkFT VoidTy [] true.

(** [IRBuilder<> Builder(&Store)]: the call is linked in front of the
    store; the callee is looked up under the relocation's own name. *)
Definition buildCall (M : IRModule) (Store : nat) (N : string) : IRModule :=
  let '(M1, Callee) := getOrInsertFunction M N varArgVoidFn in
  createCall M1 Store (insertBefore Store) Callee.

Definition handlePCStore (M : IRModule) (Store : nat) : IRModule * bool :=
  match getOpcode M Store with
  | Some (StoreInst val _) =>
      match asLoad M val with
      | Some Load =>
          match getMetadata M Load with
          | Some MD =>
              if (mdAddend MD =? 0)%Z then (buildCall M Store (mdName MD), false)
              else (M, false)
          | None => (M, false)
          end
      | None => (M, false)
      end
  | _ => (M, false)
  end.

Definition operands (o : Opcode) : list Value :=
  match o with
  | LoadInst ptr => [ptr]
  | StoreInst val ptr => [val; ptr]
  | CallInst callee args => args ++ [callee]
  | ReturnInst => []
  | OtherInst ops => ops
  end.

(** [Load.users()]: one entry per use of the value; the order in which LLVM
    keeps uses only decides the order in which the calls are created. *)
Definition users (M : IRModule) (V : nat) : list nat :=
  U ← seq 0 (length (insts M));
  o ← option_list (getOpcode M U);
  op ← operands o;
  match op with
  | VInst x => if decide (x = V) then [U] else []
  | _ => []
  end.

(** Body of [for (auto *User : Load.users())]. *)
Definition visitUser (M : IRModule) (User : nat) : IRModule :=
  match getOpcode M User with
  | Some (StoreInst _ ptr) =>
      if isPCReg ptr then (handlePCStore M User).1 else M
  | _ => M
  end.

Fixpoint scanRelocations (M : IRModule) (Load : nat) (c : Z)
  (Relocations : list RelocationInfo) : IRModule * bool :=
  match Relocations with
  | [] => (M, false)
  | Reloc :: rest =>
      if (c =? Address Reloc)%Z then
        match getMetadata M Load with
        | None =>
            let M1 := setMetadata M Load (mkMD (Name Reloc) (int64 (Addend Reloc))) in
            (foldl visitUser M1 (users M1 Load), true)
        | Some _ => scanRelocations M Load c rest
        end
      else scanRelocations M Load c rest
  end.

Definition handleLoad (Relocations : list RelocationInfo) (M : IRModule) (Load : nat)
  : IRModule * bool :=
  match constantAddress M Load with
  | Some c => scanRelocations M Load c Relocations
  | None => (M, false)
  end.

Definition visit (Relocations : list RelocationInfo) (st : IRModule * bool) (Inst : nat)
  : IRModule * bool :=
  match getOpcode st.1 Inst with
  | Some (LoadInst _) =>
      let r := handleLoad Relocations st.1 Inst in (r.1, st.2 || r.2)
  | _ => st
  end.

(** [runOnBasicBlock]: what gets linked into the block while it is walked
    are calls, which the loop passes over, so the loads that are handled
    are those of the block on entry. *)
Definition runOnBasicBlock (Relocations : list RelocationInfo) (M : IRModule) (BB : nat)
  : IRModule * bool :=
  foldl (visit Relocations) (M, false) (blockInsts M BB).

End WithJTM.

End TranslateRelocationCallsPass.

(** ** AddLibraryMetadataPass *)

Module AddLibraryMetadataPass.

(** Modelled from the spec: [AddLibraryMetadataPass::runOnModule] is declared
    in relocationpass.h but its body is not part of the sources at hand.  The
    specification has it attach the library names to the module as a single
    piece of linker-facing metadata, one entry per library, in input order,
    replacing what an earlier run attached. *)
Definition runOnModule (Libraries : list string) (M : IRModule) : IRModule :=
  let LinkerOptions := foldl (fun acc Lib => acc ++ [Lib]) [] Libraries in
  mkModule (insts M) (blocks M) (functions M) (globalVars M) (Some LinkerOptions).

End AddLibraryMetadataPass.

(** ** The end-to-end scenario *)

Module Scenario.

(** The program counter is the global variable [pc]. *)
Definition isPCReg (V : Value) : bool :=
  match V with
  | VGlobalVar N => bool_decide (N = "pc")
  | _ => false
  end.

Definition printfRelocs : list RelocationInfo := [mkReloc 0x4020 "printf" 0].

Definition root : IRFunction := mkFn "root" (mkFT VoidTy [] false) [0%nat].

(** [r = load(inttoptr(A)); store(PC, r); ret] in block 0 of [root], the
    load carrying [tag]. *)
Definition block (A : Z) (tag : option MDNode) : IRModule :=
  mkModule
    [ mkInst (LoadInst (VConstExpr IntToPtr (VConstInt A))) 0 tag;
      mkInst (StoreInst (VInst 0) (VGlobalVar "pc")) 0 None;
      mkInst ReturnInst 0 None ]
    [[0; 1; 2]]%nat [root] ["pc"] None.

(** The same with the load tagged, in a module that already declares
    [i32 @dl.printf(i8*, ...)]. *)
Definition clashing : IRModule :=
  mkModule
    (insts (block 0x4020 (Some (mkMD "printf" 0))))
    [[0; 1; 2]]%nat
    [root; mkFn "dl.printf" (mkFT (IntTy 32) [PtrTy 0] true) []]
    ["pc"] None.

(** The tagged load stored to the program counter twice. *)
Definition double : IRModule :=
  mkModule
    [ mkInst (LoadInst (VConstExpr IntToPtr (VConstInt 0x4020))) 0
             (Some (mkMD "printf" 0));
      mkInst (StoreInst (VInst 0) (VGlobalVar "pc")) 0 None;
      mkInst (StoreInst (VInst 0) (VGlobalVar "pc")) 0 None;
      mkInst ReturnInst 0 None ]
    [[0; 1; 2; 3]]%nat [root] ["pc"] None.

(** The tagged load and its store, with nothing after the store. *)
Definition truncated : IRModule :=
  mkModule
    [ mkInst (LoadInst (VConstExpr IntToPtr (VConstInt 0x4020))) 0
             (Some (mkMD "printf" 0));
      mkInst (StoreInst (VInst 0) (VGlobalVar "pc")) 0 None ]
    [[0; 1]]%nat [root] ["pc"] None.

End Scenario.

(** ** range.h: a pair of iterators *)

(** A call either returns, or runs into undefined behaviour (an iterator
    dereferenced outside its sequence), or is still running when the fuel
    of the model is used up. *)
Inductive partial (A : Type) :=
| Returns (a : A)
| UndefinedBehaviour
| OutOfFuel.
Arguments Returns {A} a.
Arguments UndefinedBehaviour {A}.
Arguments OutOfFuel {A}.


Module RangeH.

Section Elements.

Context {A : Type}.

(** [Range<Iterator>] for random-access iterators into a sequence: an
    iterator is a position, [*it] reads the sequence there. *)
Record Range := mkRange { Begin : Z; End_ : Z }.

Definition deref (c : list A) (it : Z) : option A :=
  if (0 <=? it)%Z then c !! Z.to_nat it else None.

(** The loop [for (auto Element : *this) Result.push_back(Element)]: from
    [it] on, until [it == End]. *)
Fixpoint toVectorFrom (fuel : nat) (c : list A) (it End' : Z) (Result : list A)
  : partial (list A) :=
  match fuel with
  | O => OutOfFuel
  | S fuel' =>
      if (it =? End')%Z then Returns Result
      else match deref c it with
           | Some Element => toVectorFrom fuel' c (it + 1) End' (Result ++ [Element])
           | None => UndefinedBehaviour
           end
  end.

Definition toVector (fuel : nat) (c : list A) (R : Range) : partial (list A) :=
  toVectorFrom fuel c (Begin R) (End_ R) [].

(** [operator[]]: [Begin[n]], unchecked. *)
Definition subscript (c : list A) (R : Range) (n : Z) : option A :=
  deref c (Begin R + n).

(** [size()]: [End - Begin]. *)
Definition size (R : Range) : Z := End_ R - Begin R.

(** [make_range(Container)]: from [Container.begin()] to [Container.end()]. *)
Definition make_range (c : list A) : Range := mkRange 0 (Z.of_nat (length c)).



(** The elements between the two iterators of a range. *)
Definition elements (c : list A) (R : Range) : list A :=
  take (Z.to_nat (End_ R - Begin R)) (drop (Z.to_nat (Begin R)) c).

(** Both iterators point into the sequence (or one past its end), the
    first not after the second. *)
Definition valid (c : list A) (R : Range) : Prop :=
  (0 <= Begin R)%Z /\ (Begin R <= End_ R)%Z /\ (End_ R <= Z.of_nat (length c))%Z.

End Elements.

Arguments Range : clear implicits.

End RangeH.

(** * Vocabulary of the statements *)

(** What the passes create: [ret void] and calls without arguments. *)
Definition created (i : Instruction) : Prop :=
  opcode i = ReturnInst \/ exists V, opcode i = CallInst V [].

(** [M'] has every instruction of [M], untouched, and beyond them only
    created ones. *)
Definition extends (M M' : IRModule) : Prop :=
  exists k, insts M' = insts M ++ k /\ Forall created k.

(** The module once a function has been given its [ret void] body. *)
Definition withBody (M : IRModule) (fs : list IRFunction) : IRModule :=
  mkModule (insts M ++ [mkInst ReturnInst (length (blocks M)) None])
           (blocks M ++ [[length (insts M)]])
           fs (globalVars M) (linkerOptions M).

(** The five ways [getOrCreate M N] can end for a name [N] of the symbol
    table, that is, one that is not empty. *)
Inductive stubOutcome (M : IRModule) (N : string) : IRModule -> Value -> Prop :=
| found_defined f :
    getFunction (functions M) N = Some f ->
    ftype f = AddRelocationCallsPass.voidFn -> fblocks f <> [] ->
    stubOutcome M N M (VFunction N)
| found_other_type f :
    getFunction (functions M) N = Some f ->
    ftype f <> AddRelocationCallsPass.voidFn ->
    stubOutcome M N M (VConstExpr BitCast (VFunction N))
| found_variable :
    getFunction (functions M) N = None -> N ∈ globalVars M ->
    stubOutcome M N M (VConstExpr BitCast (VGlobalVar N))
| found_declared f :
    getFunction (functions M) N = Some f ->
    ftype f = AddRelocationCallsPass.voidFn -> fblocks f = [] ->
    stubOutcome M N
      (withBody M (setBody N [length (blocks M)] (functions M))) (VFunction N)
| inserted :
    getFunction (functions M) N = None -> N ∉ globalVars M ->
    stubOutcome M N
      (withBody M (functions M ++
                   [mkFn N AddRelocationCallsPass.voidFn [length (blocks M)]]))
      (VFunction N).

(** The store [y] puts a relocation load with a usable tag into the program
    counter: it calls for a call to [N]. *)
Definition wants (isPCReg : Value -> bool) (M : IRModule) (y : nat) (N : string) : Prop :=
  exists val ptr Load,
    getOpcode M y = Some (StoreInst val ptr) /\ isPCReg ptr = true /\
    asLoad M val = Some Load /\
    AddRelocationCallsPass.getRelocName M Load true <> EmptyString /\
    N = "dl." +:+ AddRelocationCallsPass.getRelocName M Load true.

(** Nothing is left to do at [x]: if it calls for a call, the call is there. *)
Definition settled (isPCReg : Value -> bool) (M : IRModule) (x : nat) : Prop :=
  forall N, wants isPCReg M x N ->
            AddRelocationCallsPass.succeededByCall M x N = Ok true.

(** No global called [dl.<something>] stands in the way of a stub: there is
    no such variable, and such a function has the stub's type. *)
Definition stubCompatible (M : IRModule) : Prop :=
  (forall n, ~ ("dl." +:+ n) ∈ globalVars M) /\
  (forall n f, getFunction (functions M) ("dl." +:+ n) = Some f ->
               ftype f = AddRelocationCallsPass.voidFn).

(** Every store has an instruction after it. *)
Definition storesSucceeded (M : IRModule) : Prop :=
  forall y val ptr,
    getOpcode M y = Some (StoreInst val ptr) -> is_Some (getNextNode M y).





(** No instruction carries a relocation tag. *)
Definition untagged (M : IRModule) : Prop :=
  forall x, getMetadata M x = None.

(** The name of the global a callee refers to, through a cast if there is
    one; a function without a name has the empty one. *)
Definition calledGlobal (V : Value) : option string :=
  match V with
  | VFunction N => Some N
  | VUnnamedFunction _ => Some EmptyString
  | VConstExpr BitCast (VFunction N) => Some N
  | VConstExpr BitCast (VGlobalVar N) => Some N
  | _ => None
  end.

(** Tags are write-once from [M] to [M']. *)
Definition tagsKept (M M' : IRModule) : Prop :=
  forall x MD, getMetadata M x = Some MD -> getMetadata M' x = Some MD.

(** From [M] to [M'] instructions keep opcode, operands, block and tag (a
    missing tag may be set), and what is new is a call without arguments. *)
Definition grows (M M' : IRModule) : Prop :=
  (forall x i, insts M !! x = Some i ->
     exists i', insts M' !! x = Some i' /\ opcode i' = opcode i /\
                parent i' = parent i /\
                forall MD, reloc i = Some MD -> reloc i' = Some MD) /\
  (forall x i', insts M !! x = None -> insts M' !! x = Some i' ->
     exists V, opcode i' = CallInst V []) /\
  (forall b x, x ∈ blockInsts M' b -> x ∈ blockInsts M b \/ insts M !! x = None).

(** The node before the first occurrence of [I] in a block, and
    [I.getPrevNode()]. *)
Fixpoint prevIn (I : nat) (b : list nat) : option nat :=
  match b with
  | [] => None
  | x :: r =>
      if decide (x = I) then None
      else match r with
           | [] => None
           | z :: _ => if decide (z = I) then Some x else prevIn I r
           end
  end.

Definition getPrevNode (M : IRModule) (I : nat) : option nat :=
  i ← insts M !! I; b ← blocks M !! parent i; prevIn I b.

(** The two things the fused pass does to a module: tag an untagged load
    whose constant address is in the table, and put a call in front of a
    program-counter store of a load whose tag has a zero addend. *)
Inductive fusedStep (isPCReg : Value -> bool) (Relocations : list RelocationInfo)
  (M : IRModule) : IRModule -> Prop :=
| step_tag Load Reloc :
    constantAddress M Load = Some (Address Reloc) -> Reloc ∈ Relocations ->
    getMetadata M Load = None ->
    fusedStep isPCReg Relocations M
      (setMetadata M Load (mkMD (Name Reloc) (int64 (Addend Reloc))))
| step_call Store val ptr Load MD :
    getOpcode M Store = Some (StoreInst val ptr) -> isPCReg ptr = true ->
    asLoad M val = Some Load -> getMetadata M Load = Some MD -> mdAddend MD = 0 ->
    fusedStep isPCReg Relocations M
      (TranslateRelocationCallsPass.buildCall M Store (mdName MD)).

(** The load [x] reads a relocation slot and is not tagged yet. *)
Definition pending (Relocations : list RelocationInfo) (M : IRModule) (x : nat) : Prop :=
  exists c Reloc,
    constantAddress M x = Some c /\ Reloc ∈ Relocations /\ c = Address Reloc /\
    getMetadata M x = None.

(** The record whose name and addend a load of the constant address [c]
    is tagged with: the first one in table order with that address. *)
Definition firstMatch (Relocations : list RelocationInfo) (c : Z)
  : option RelocationInfo :=
  List.find (fun r => (c =? Address r)%Z) Relocations.

(** The tag that [x] has once it has been handled: the one it has, or else
    the one of the first record that matches its constant address. *)
Definition tagFor (Relocations : list RelocationInfo) (M : IRModule) (x : nat)
  : option MDNode :=
  match getMetadata M x with
  | Some MD => Some MD
  | None =>
      c ← constantAddress M x;
      r ← firstMatch Relocations c;
      Some (mkMD (Name r) (int64 (Addend r)))
  end.

(** An instruction as the fused pass creates it: a call without arguments
    and without a tag. *)
Definition isNewCall (i : Instruction) : Prop :=
  exists V, i.(opcode) = CallInst V [] /\ i.(reloc) = None.

(** [Mf] is [Ml] with new calls added to the arena. *)
Definition addsCalls (Ml Mf : IRModule) : Prop :=
  exists k, insts Mf = insts Ml ++ k /\ Forall isNewCall k.

(** The names under which the symbol table holds the functions of the
    module: those that are not empty. *)
Definition namedFunctions (M : IRModule) : list string :=
  filter (fun n => n <> EmptyString) (fname <$> functions M).

(** What the fused pass leaves of the layout and of the symbol table: no
    block is added, the old instructions of every block keep their order,
    and the function list grows by declarations [void (...)] only. *)
Definition fusedFrame (M M' : IRModule) : Prop :=
  (length (insts M) <= length (insts M'))%nat /\
  length (blocks M') = length (blocks M) /\
  globalVars M' = globalVars M /\ linkerOptions M' = linkerOptions M /\
  (exists ds, functions M' = functions M ++ ds /\
              Forall (fun f => ftype f = TranslateRelocationCallsPass.varArgVoidFn /\
                               fblocks f = []) ds) /\
  (NoDup (namedFunctions M) -> NoDup (namedFunctions M')) /\
  (forall b n, (n <= length (insts M))%nat ->
     filter (fun x => (x < n)%nat) (blockInsts M' b)
     = filter (fun x => (x < n)%nat) (blockInsts M b)).

(** The store [S] is linked into its parent block. *)
Definition linked (M : IRModule) (S : nat) : Prop :=
  exists i bl, insts M !! S = Some i /\ blocks M !! parent i = Some bl /\ S ∈ bl.

(** [S] stores the load [x], and [x] carries the tag [MD]. *)
Definition storesTagged (M : IRModule) (S x : nat) (ptr : Value) (MD : MDNode) : Prop :=
  getOpcode M S = Some (StoreInst (VInst x) ptr) /\
  asLoad M (VInst x) = Some x /\ getMetadata M x = Some MD.

(** Right before [S] stands a call without arguments to the global [N],
    created at arena index [n] or later. *)
Definition callBefore (n : nat) (M : IRModule) (S : nat) (N : string) : Prop :=
  exists c V, getPrevNode M S = Some c /\ getOpcode M c = Some (CallInst V []) /\
              calledGlobal V = Some N /\ (n <= c)%nat.

(** * Properties *)

(** ** Linking an instruction into a block *)

Section BlockLists.

Implicit Types (b : list nat) (x y c : nat).

Lemma nextIn_Some_elem y b n : nextIn y b = Some n -> y ∈ b.
Proof.
  induction b as [|z r IH]; simpl; [done|].
  case_decide; subst.
  - intros _. apply list_elem_of_here.
  - intros Hn. apply list_elem_of_further; auto.
Qed.

Lemma nextIn_insertAfter_same y c b : y ∈ b -> nextIn y (insertAfter y c b) = Some c.
Proof.
  induction b as [|z r IH]; simpl.
  - intros Hin. by apply not_elem_of_nil in Hin.
  - intros Hin. case_decide; subst; simpl.
    + by rewrite decide_True.
    + rewrite decide_False by done. apply IH.
      apply elem_of_cons in Hin as [->|Hin]; done.
Qed.

Lemma nextIn_insertAfter_ne x y c b :
  x <> y -> x <> c -> nextIn x (insertAfter y c b) = nextIn x b.
Proof.
  intros Hy Hc. induction b as [|z r IH]; simpl; [done|].
  destruct (decide (z = y)) as [->|Hz]; simpl.
  - destruct (decide (y = x)); [congruence|].
    destruct (decide (c = x)); [congruence|done].
  - destruct (decide (z = x)); [|done].
    destruct r as [|w r']; simpl; [done|]. by case_decide.
Qed.

Lemma elem_of_insertAfter x y c b : x ∈ insertAfter y c b -> x ∈ b \/ x = c.
Proof.
  induction b as [|z r IH]; simpl; [by left|].
  case_decide; subst; rewrite !elem_of_cons; intuition auto.
Qed.

Lemma elem_of_insertBefore x y c b : x ∈ insertBefore y c b -> x ∈ b \/ x = c.
Proof.
  induction b as [|z r IH]; simpl; [by left|].
  case_decide; subst; rewrite !elem_of_cons; intuition auto.
Qed.

End BlockLists.

(** ** How the mutators change the arenas *)

Lemma extends_refl M : extends M M.
Proof. exists []. by rewrite app_nil_r. Qed.

Lemma extends_trans M1 M2 M3 : extends M1 M2 -> extends M2 M3 -> extends M1 M3.
Proof.
  intros (k1 & E1 & F1) (k2 & E2 & F2). exists (k1 ++ k2).
  rewrite E2, E1, app_assoc. split; [done|]. by apply Forall_app.
Qed.

Lemma extends_lookup M M' x i :
  extends M M' -> insts M !! x = Some i -> insts M' !! x = Some i.
Proof. intros (k & E & _) H. rewrite E. by apply lookup_app_l_Some. Qed.

Lemma extends_new M M' x i :
  extends M M' -> insts M !! x = None -> insts M' !! x = Some i -> created i.
Proof.
  intros (k & E & F) Hn Hs. rewrite E in Hs.
  apply lookup_app_Some in Hs as [Hs|[_ Hs]]; [congruence|].
  eapply Forall_lookup_1; eauto.
Qed.

Lemma extends_length M M' : extends M M' -> (length (insts M) <= length (insts M'))%nat.
Proof. intros (k & E & _). rewrite E, length_app. lia. Qed.

Lemma extends_getOpcode M M' x o :
  extends M M' -> getOpcode M x = Some o -> getOpcode M' x = Some o.
Proof.
  unfold getOpcode. intros E H.
  destruct (insts M !! x) as [i|] eqn:Hi; [|done].
  by rewrite (extends_lookup _ _ _ _ E Hi).
Qed.

Lemma extends_getMetadata M M' x :
  extends M M' -> is_Some (insts M !! x) -> getMetadata M' x = getMetadata M x.
Proof.
  unfold getMetadata. intros E [i Hi].
  by rewrite (extends_lookup _ _ _ _ E Hi), Hi.
Qed.

Lemma created_not_store M M' x val ptr :
  extends M M' -> insts M !! x = None -> getOpcode M' x <> Some (StoreInst val ptr).
Proof.
  unfold getOpcode. intros E Hn Ho.
  destruct (insts M' !! x) as [i|] eqn:Hi; [|done].
  destruct (extends_new _ _ _ _ E Hn Hi) as [Hr|[V Hc]];
    simpl in Ho; congruence.
Qed.

Lemma created_not_load M M' x ptr :
  extends M M' -> insts M !! x = None -> getOpcode M' x <> Some (LoadInst ptr).
Proof.
  unfold getOpcode. intros E Hn Ho.
  destruct (insts M' !! x) as [i|] eqn:Hi; [|done].
  destruct (extends_new _ _ _ _ E Hn Hi) as [Hr|[V Hc]];
    simpl in Ho; congruence.
Qed.

Lemma extends_asLoad M M' V :
  extends M M' -> asLoad M' V = asLoad M V.
Proof.
  intros E. destruct V as [l| | | | | |]; simpl; try done.
  destruct (getOpcode M l) as [o|] eqn:Ho.
  - by rewrite (extends_getOpcode _ _ _ _ E Ho).
  - destruct (getOpcode M' l) as [o'|] eqn:Ho'; [|done].
    destruct o'; try done.
    exfalso. eapply created_not_load; eauto.
    unfold getOpcode in Ho. by destruct (insts M !! l).
Qed.

Lemma asLoad_Some M V l : asLoad M V = Some l -> is_Some (insts M !! l).
Proof.
  destruct V as [x| | | | | |]; simpl; try done. unfold getOpcode.
  destruct (insts M !! x) as [i|] eqn:Hi; simpl; [|done].
  destruct (opcode i); try done. intros [= <-]. eauto.
Qed.

(** ** Looking functions up and giving them a body *)

Lemma getFunction_Some fs N f : getFunction fs N = Some f -> f ∈ fs /\ fname f = N.
Proof.
  induction fs as [|g r IH]; simpl; [done|].
  case_decide.
  - intros [= ->]. split; [apply list_elem_of_here|done].
  - intros Hf. destruct (IH Hf). split; [by apply list_elem_of_further|done].
Qed.

Lemma getFunction_None fs N : getFunction fs N = None <-> N ∉ fname <$> fs.
Proof.
  induction fs as [|g r IH]; simpl.
  - split; [intros _; apply not_elem_of_nil|done].
  - rewrite not_elem_of_cons. case_decide; split; try done.
    + intros [Hn _]. congruence.
    + intros Hn. split; [congruence|by apply IH].
    + intros [_ Hn]. by apply IH.
Qed.

Lemma getFunction_app fs gs N :
  getFunction (fs ++ gs) N =
  match getFunction fs N with Some f => Some f | None => getFunction gs N end.
Proof. induction fs as [|g r IH]; simpl; [done|]. by case_decide. Qed.

Lemma setBody_absent N bs fs : getFunction fs N = None -> setBody N bs fs = fs.
Proof.
  induction fs as [|g r IH]; simpl; [done|].
  case_decide; [done|]. intros Hn. by rewrite IH.
Qed.

Lemma setBody_app N bs fs gs :
  getFunction fs N = None -> setBody N bs (fs ++ gs) = fs ++ setBody N bs gs.
Proof.
  induction fs as [|g r IH]; simpl; [done|].
  case_decide; [done|]. intros Hn. by rewrite IH.
Qed.

Lemma setBody_names N bs fs : fname <$> setBody N bs fs = fname <$> fs.
Proof.
  induction fs as [|g r IH]; [done|]. simpl setBody.
  case_decide; rewrite !fmap_cons; [done|]. by rewrite IH.
Qed.

Lemma setBody_elem N bs fs g :
  g ∈ setBody N bs fs ->
  g ∈ fs \/ exists f, f ∈ fs /\ fname f = N /\ g = mkFn (fname f) (ftype f) bs.
Proof.
  induction fs as [|f r IH]; simpl; [by left|].
  case_decide; rewrite !elem_of_cons.
  - intros [->|Hg]; [right; exists f|left]; rewrite ?elem_of_cons; auto.
  - intros [->|Hg]; [by left; left|].
    destruct (IH Hg) as [?|(f' & ? & ? & ?)]; [by left; right|].
    right. exists f'. rewrite elem_of_cons. auto.
Qed.

Lemma getFunction_setBody N bs fs N' :
  getFunction (setBody N bs fs) N' =
  (fun f => if decide (fname f = N) then mkFn (fname f) (ftype f) bs else f)
    <$> getFunction fs N'.
Proof.
  induction fs as [|f r IH]; simpl; [done|].
  destruct (decide (fname f = N)) as [HN|HN]; simpl.
  - destruct (decide (fname f = N')); simpl; [by rewrite decide_True|].
    destruct (getFunction r N') as [g|] eqn:Hg; simpl; [|done].
    apply getFunction_Some in Hg as [_ Hg].
    rewrite decide_False; [done|congruence].
  - destruct (decide (fname f = N')); simpl; [by rewrite decide_False|done].
Qed.

(** ** The stub found or made by [getOrCreate] *)

Lemma getOrCreate_outcome M N :
  N <> EmptyString ->
  stubOutcome M N
    (AddRelocationCallsPass.getOrCreate M N).1 (AddRelocationCallsPass.getOrCreate M N).2.
Proof.
  intros HN.
  unfold AddRelocationCallsPass.getOrCreate, getOrInsertFunction.
  rewrite decide_False by done.
  destruct (getFunction (functions M) N) as [f|] eqn:Hf.
  - destruct (decide (ftype f = AddRelocationCallsPass.voidFn)) as [Ht|Ht]; simpl.
    + unfold isDeclaration. rewrite Hf.
      destruct (fblocks f) as [|b bs] eqn:Hb; simpl.
      * eapply found_declared; eauto.
      * eapply found_defined; eauto. congruence.
    + eapply found_other_type; eauto.
  - destruct (decide (N ∈ globalVars M)) as [Hv|Hv]; simpl.
    + by apply found_variable.
    + unfold isDeclaration. simpl. rewrite getFunction_app, Hf. simpl.
      rewrite decide_True by done. simpl.
      unfold createRetVoidBody. simpl.
      rewrite setBody_app by done. simpl. rewrite decide_True by done.
      by apply inserted.
Qed.

(** With the empty name there is nothing to find: a function without a
    name is declared and given its body. *)
Lemma getOrCreate_unnamed M :
  AddRelocationCallsPass.getOrCreate M EmptyString
  = (withBody M (functions M ++
                 [mkFn EmptyString AddRelocationCallsPass.voidFn [length (blocks M)]]),
     VUnnamedFunction (length (functions M))).
Proof.
  unfold AddRelocationCallsPass.getOrCreate, getOrInsertFunction.
  rewrite decide_True by done.
  unfold isDeclarationAt, createRetVoidBodyAt, withBody. simpl.
  rewrite lookup_app_r, Nat.sub_diag by done. simpl.
  replace (length (functions M)) with (length (functions M) + 0)%nat at 1 by lia.
  by rewrite alter_app_r.
Qed.

Lemma dl_nonempty n : "dl." +:+ n <> EmptyString.
Proof. done. Qed.

(** ** Creating a call *)

Lemma createCall_eq M y place V i bl :
  insts M !! y = Some i -> blocks M !! parent i = Some bl ->
  createCall M y place V =
  mkModule (insts M ++ [mkInst (CallInst V []) (parent i) None])
           (<[parent i := place (length (insts M)) bl]> (blocks M))
           (functions M) (globalVars M) (linkerOptions M).
Proof. intros Hi Hb. unfold createCall. by rewrite Hi, Hb. Qed.

Lemma createCall_extends M y place V : extends M (createCall M y place V).
Proof.
  unfold createCall.
  destruct (insts M !! y) as [i|]; [|apply extends_refl].
  assert (Forall created [mkInst (CallInst V []) (parent i) None]).
  { apply Forall_singleton. right. by exists V. }
  destruct (blocks M !! parent i);
    exists [mkInst (CallInst V []) (parent i) None]; by split.
Qed.

Lemma getNextNode_Some M y n :
  getNextNode M y = Some n ->
  exists i bl, insts M !! y = Some i /\ blocks M !! parent i = Some bl /\
               nextIn y bl = Some n.
Proof.
  unfold getNextNode. intros H.
  destruct (insts M !! y) as [i|]; simpl in H; [|done].
  destruct (blocks M !! parent i) as [bl|] eqn:Hb; simpl in H; [|done].
  eauto.
Qed.

Lemma getNextNode_eq M M' y i :
  insts M !! y = Some i -> insts M' !! y = Some i ->
  blocks M' !! parent i ≫= nextIn y = blocks M !! parent i ≫= nextIn y ->
  getNextNode M' y = getNextNode M y.
Proof. unfold getNextNode. by intros -> ->. Qed.

Lemma createCall_getNextNode_same M y V n :
  getNextNode M y = Some n ->
  getNextNode (createCall M y (insertAfter y) V) y = Some (length (insts M)).
Proof.
  intros (i & bl & Hi & Hb & Hn)%getNextNode_Some.
  rewrite (createCall_eq _ _ _ _ _ _ Hi Hb). unfold getNextNode. simpl.
  rewrite (lookup_app_l_Some _ _ _ _ Hi). simpl.
  rewrite list_lookup_insert_eq by (by eapply lookup_lt_Some). simpl.
  apply nextIn_insertAfter_same. by eapply nextIn_Some_elem.
Qed.

Lemma createCall_getNextNode_ne M y V x :
  x <> y -> is_Some (insts M !! x) ->
  getNextNode (createCall M y (insertAfter y) V) x = getNextNode M x.
Proof.
  intros Hxy [ix Hx]. unfold createCall.
  destruct (insts M !! y) as [i|] eqn:Hi; [|done].
  destruct (blocks M !! parent i) as [bl|] eqn:Hb.
  - eapply getNextNode_eq; eauto; simpl.
    { by apply lookup_app_l_Some. }
    destruct (decide (parent i = parent ix)) as [Hp|Hp].
    + rewrite <- Hp, Hb, list_lookup_insert_eq by (by eapply lookup_lt_Some).
      simpl. apply nextIn_insertAfter_ne; [done|].
      apply lookup_lt_Some in Hx. lia.
    + by rewrite list_lookup_insert_ne.
  - eapply getNextNode_eq; eauto; simpl. by apply lookup_app_l_Some.
Qed.

Lemma createCall_new_opcode M y place V :
  is_Some (insts M !! y) ->
  getOpcode (createCall M y place V) (length (insts M)) = Some (CallInst V []).
Proof.
  intros [i Hi]. unfold createCall, getOpcode. rewrite Hi.
  destruct (blocks M !! parent i); simpl;
    by rewrite lookup_app_r, Nat.sub_diag by lia.
Qed.

(** ** What [getOrCreate] leaves alone *)

Section StubFrame.

Import AddRelocationCallsPass.

Context {M : IRModule} {N : string} {M2 : IRModule} {V : Value}.
Hypothesis Hout : stubOutcome M N M2 V.

Lemma outcome_extends : extends M M2.
Proof.
  assert (Forall created [mkInst ReturnInst (length (blocks M)) None]).
  { apply Forall_singleton. by left. }
  destruct Hout; try apply extends_refl; by eexists.
Qed.

Lemma outcome_globalVars : globalVars M2 = globalVars M.
Proof. by destruct Hout. Qed.

Lemma outcome_linkerOptions : linkerOptions M2 = linkerOptions M.
Proof. by destruct Hout. Qed.

Lemma outcome_blocks :
  blocks M2 = blocks M \/ blocks M2 = blocks M ++ [[length (insts M)]].
Proof. destruct Hout; auto. Qed.

Lemma outcome_getNextNode y :
  is_Some (insts M !! y) -> getNextNode M2 y = getNextNode M y.
Proof.
  intros [i Hi].
  eapply getNextNode_eq; eauto using extends_lookup, outcome_extends.
  destruct outcome_blocks as [->| ->]; [done|].
  destruct (blocks M !! parent i) as [bl|] eqn:Hb.
  - by rewrite (lookup_app_l_Some _ _ _ _ Hb).
  - rewrite lookup_app_r by (by apply lookup_ge_None).
    destruct (parent i - length (blocks M))%nat as [|k]; simpl.
    + rewrite decide_False; [done|]. apply lookup_lt_Some in Hi. lia.
    + done.
Qed.

End StubFrame.

(** ** One step of the split rewrite *)

Section SplitSteps.

Import AddRelocationCallsPass.

Variable isPCReg : Value -> bool.

Lemma wants_fun M y N N' : wants isPCReg M y N -> wants isPCReg M y N' -> N = N'.
Proof.
  intros (v & p & l & Ho & _ & Hl & _ & ->) (v' & p' & l' & Ho' & _ & Hl' & _ & ->).
  congruence.
Qed.

Lemma wants_nonempty M y N : wants isPCReg M y N -> N <> EmptyString.
Proof. by intros (v & p & l & _ & _ & _ & _ & ->). Qed.

Lemma visit_wants M c y N :
  wants isPCReg M y N ->
  visit isPCReg (M, c) y =
  (already ← succeededByCall M y N;
   if (already : bool) then Ok (M, c) else M' ← buildCall M y N; Ok (M', true)).
Proof.
  intros (v & p & l & Ho & Hp & Hl & Hn & ->).
  unfold visit, visitStoreInst. simpl. rewrite Ho, Hp, Hl.
  by rewrite decide_False.
Qed.

Lemma visit_idle M c y :
  (forall N, ~ wants isPCReg M y N) -> visit isPCReg (M, c) y = Ok (M, c).
Proof.
  intros Hno. unfold visit, visitStoreInst. simpl.
  destruct (getOpcode M y) as [[| v p | | |]|] eqn:Ho; try done.
  destruct (isPCReg p) eqn:Hp; [|done].
  destruct (asLoad M v) as [l|] eqn:Hl; [|done].
  case_decide as Hn; [done|].
  destruct (Hno ("dl." +:+ getRelocName M l true)). by exists v, p, l.
Qed.

Lemma wants_dec M y :
  (exists N, wants isPCReg M y N) \/ (forall N, ~ wants isPCReg M y N).
Proof.
  destruct (getOpcode M y) as [o|] eqn:Ho.
  2: { right. intros N (v & p & l & Ho' & _). congruence. }
  destruct o as [| v p | | |];
    try (right; intros N (v' & p' & l' & Ho' & _); congruence).
  destruct (isPCReg p) eqn:Hp.
  2: { right. intros N (v' & p' & l' & Ho' & Hp' & _). congruence. }
  destruct (asLoad M v) as [l|] eqn:Hl.
  2: { right. intros N (v' & p' & l' & Ho' & _ & Hl' & _). congruence. }
  destruct (decide (getRelocName M l true = EmptyString)) as [Hn|Hn].
  - right. intros N (v' & p' & l' & Ho' & _ & Hl' & Hn' & _).
    apply Hn'. congruence.
  - left. eexists. by exists v, p, l.
Qed.

(** A step either changes nothing, or links one call after [y]. *)
Lemma visit_cases M c y M' c' :
  visit isPCReg (M, c) y = Ok (M', c') ->
  (M' = M /\ c' = c) \/
  exists N M2 V n,
    wants isPCReg M y N /\ succeededByCall M y N = Ok false /\
    stubOutcome M N M2 V /\ getNextNode M2 y = Some n /\
    M' = createCall M2 y (insertAfter y) V /\ c' = true.
Proof.
  destruct (wants_dec M y) as [[N Hw]|Hno].
  2: { rewrite visit_idle by done. intros [= <- <-]. by left. }
  rewrite (visit_wants _ _ _ _ Hw).
  destruct (succeededByCall M y N) as [[|]|w] eqn:Hs; simpl; try done.
  { intros [= <- <-]. by left. }
  unfold buildCall.
  pose proof (getOrCreate_outcome M N (wants_nonempty _ _ _ Hw)) as Hout.
  destruct (getOrCreate M N) as [M2 V]. simpl in Hout.
  destruct (getNextNode M2 y) as [n|] eqn:Hn; simpl; [|done].
  intros [= <- <-]. right. by exists N, M2, V, n.
Qed.

Lemma visit_extends M c y M' c' :
  visit isPCReg (M, c) y = Ok (M', c') -> extends M M'.
Proof.
  intros [[-> _]|(N & M2 & V & n & _ & _ & Hout & _ & -> & _)]%visit_cases.
  - apply extends_refl.
  - eapply extends_trans; [by eapply outcome_extends|apply createCall_extends].
Qed.

Lemma extends_wants M M' x N :
  extends M M' -> wants isPCReg M' x N <-> wants isPCReg M x N.
Proof.
  intros E. split.
  - intros (v & p & l & Ho & Hp & Hl & Hn & ->).
    destruct (insts M !! x) as [i|] eqn:Hi.
    2: { exfalso. eapply created_not_store; eauto. }
    rewrite (extends_asLoad _ _ _ E) in Hl.
    assert (getRelocName M' l true = getRelocName M l true) as Hr.
    { unfold getRelocName. erewrite extends_getMetadata; eauto using asLoad_Some. }
    rewrite Hr in *. exists v, p, l. repeat split; try done.
    unfold getOpcode in *. rewrite (extends_lookup _ _ _ _ E Hi) in Ho.
    by rewrite Hi.
  - intros (v & p & l & Ho & Hp & Hl & Hn & ->).
    assert (getRelocName M' l true = getRelocName M l true) as Hr.
    { unfold getRelocName. erewrite extends_getMetadata; eauto using asLoad_Some. }
    rewrite <- Hr in *. exists v, p, l. repeat split; try done.
    + by eapply extends_getOpcode.
    + by rewrite (extends_asLoad _ _ _ E).
Qed.

Lemma wants_is_Some M y N : wants isPCReg M y N -> is_Some (insts M !! y).
Proof.
  intros (v & p & l & Ho & _). unfold getOpcode in Ho.
  destruct (insts M !! y); [eauto|done].
Qed.

Lemma visit_getNextNode_ne M c y M' c' x :
  visit isPCReg (M, c) y = Ok (M', c') -> x <> y -> is_Some (insts M !! x) ->
  getNextNode M' x = getNextNode M x.
Proof.
  intros [[-> _]|(N & M2 & V & n & _ & _ & Hout & _ & -> & _)]%visit_cases Hxy Hx;
    [done|].
  rewrite createCall_getNextNode_ne; [by eapply outcome_getNextNode|done|].
  destruct Hx as [i Hi]. exists i.
  eapply extends_lookup; eauto using outcome_extends.
Qed.

Lemma succeededByCall_true M x N :
  N <> EmptyString ->
  succeededByCall M x N = Ok true <->
  exists nx args, getNextNode M x = Some nx /\
                  getOpcode M nx = Some (CallInst (VFunction N) args).
Proof.
  intros HN. unfold succeededByCall. split.
  - destruct (getNextNode M x) as [nx|]; [|done].
    destruct (getOpcode M nx) as [[| | V args | |]|] eqn:Ho; try done.
    destruct V; simpl; try done.
    + intros [= Hb]. apply bool_decide_eq_true in Hb as ->. by eexists _, _.
    + intros [= Hb]. by apply bool_decide_eq_true in Hb.
  - intros (nx & args & -> & ->). simpl. by rewrite bool_decide_eq_true_2.
Qed.

Lemma settled_visit M c x : settled isPCReg M x -> visit isPCReg (M, c) x = Ok (M, c).
Proof.
  intros Hs. destruct (wants_dec M x) as [[N Hw]|Hno].
  - rewrite (visit_wants _ _ _ _ Hw), (Hs _ Hw). done.
  - by apply visit_idle.
Qed.

Lemma idle_settled M x : (forall N, ~ wants isPCReg M x N) -> settled isPCReg M x.
Proof. intros Hno N Hw. by destruct (Hno N). Qed.

Lemma new_settled M M' x : extends M M' -> insts M !! x = None -> settled isPCReg M' x.
Proof.
  intros E Hn. apply idle_settled. intros N (v & p & l & Ho & _).
  eapply created_not_store; eauto.
Qed.

Lemma stubCompatible_outcome M n M2 V :
  stubCompatible M -> stubOutcome M ("dl." +:+ n) M2 V ->
  V = VFunction ("dl." +:+ n) /\ stubCompatible M2.
Proof.
  intros [Hv Hf] Hout. inversion Hout as [f Hg Ht Hb|f Hg Ht|Hg Hin|f Hg Ht Hb|Hg Hin];
    subst.
  - done.
  - by destruct Ht; eapply Hf.
  - by destruct (Hv n).
  - split; [done|]. split; [done|]. simpl. intros n' f'.
    rewrite getFunction_setBody.
    destruct (getFunction (functions M) ("dl." +:+ n')) as [g|] eqn:Hg';
      simpl; [|done].
    intros [= <-]. case_decide; simpl; eauto.
  - split; [done|]. split; [done|]. simpl. intros n' f'.
    rewrite getFunction_app.
    destruct (getFunction (functions M) ("dl." +:+ n')) as [g|] eqn:Hg'.
    + intros [= <-]. eauto.
    + simpl. case_decide; [|done]. by intros [= <-].
Qed.

Lemma createCall_stubCompatible M y place V :
  stubCompatible M -> stubCompatible (createCall M y place V).
Proof.
  unfold createCall.
  destruct (insts M !! y) as [i|]; [|done].
  by destruct (blocks M !! parent i).
Qed.

Lemma visit_stubCompatible M c y M' c' :
  visit isPCReg (M, c) y = Ok (M', c') -> stubCompatible M -> stubCompatible M'.
Proof.
  intros [[-> _]|(N & M2 & V & n & Hw & _ & Hout & _ & -> & _)]%visit_cases HM;
    [done|].
  destruct Hw as (v & p & l & _ & _ & _ & _ & ->).
  apply createCall_stubCompatible. by eapply stubCompatible_outcome.
Qed.

(** After its visit a store is settled, as long as the stub can be called
    directly. *)
Lemma visit_settles M c y M' c' :
  stubCompatible M -> visit isPCReg (M, c) y = Ok (M', c') -> settled isPCReg M' y.
Proof.
  intros HM Hv. destruct (wants_dec M y) as [[N Hw]|Hno].
  2: { rewrite visit_idle in Hv by done. injection Hv as <- <-.
       by apply idle_settled. }
  pose proof Hv as Hc. rewrite (visit_wants _ _ _ _ Hw) in Hv.
  destruct (succeededByCall M y N) as [[|]|w] eqn:Hs; simpl in Hv; try done.
  { injection Hv as <- <-. intros N' Hw'. by rewrite (wants_fun _ _ _ _ Hw' Hw). }
  apply visit_cases in Hc as [[-> _]|(N' & M2 & V & n & Hw' & _ & Hout & Hn & -> & _)].
  { unfold buildCall in Hv.
    pose proof (getOrCreate_outcome M N (wants_nonempty _ _ _ Hw)) as Hout.
    destruct (getOrCreate M N) as [M2 V]. simpl in Hout.
    destruct (getNextNode M2 y) eqn:Hn; simpl in Hv; [|done].
    injection Hv as Hv _. apply (f_equal (fun m => length (insts m))) in Hv.
    pose proof (extends_length _ _ (outcome_extends Hout)).
    apply getNextNode_Some in Hn as (i & bl & Hi & Hb & _).
    rewrite (createCall_eq _ _ _ _ _ _ Hi Hb) in Hv. simpl in Hv.
    rewrite length_app in Hv. simpl in Hv. lia. }
  rewrite <- (wants_fun _ _ _ _ Hw Hw') in *. clear Hw'.
  assert (extends M (createCall M2 y (insertAfter y) V)) as E.
  { eapply extends_trans; [by eapply outcome_extends|apply createCall_extends]. }
  intros N'' Hw''. apply (extends_wants _ _ _ _ E) in Hw''.
  rewrite (wants_fun _ _ _ _ Hw'' Hw).
  destruct Hw as (v & p & l & _ & _ & _ & _ & HN).
  rewrite HN in Hout. destruct (stubCompatible_outcome _ _ _ _ HM Hout) as [-> _].
  rewrite <- HN. apply succeededByCall_true; [by rewrite HN|].
  exists (length (insts M2)), [].
  split; [by eapply createCall_getNextNode_same|].
  apply createCall_new_opcode.
  apply getNextNode_Some in Hn as (i & _ & Hi & _). eauto.
Qed.

(** A settled store stays settled whatever is visited next. *)
Lemma visit_keeps_settled M c y M' c' x :
  visit isPCReg (M, c) y = Ok (M', c') -> settled isPCReg M x -> settled isPCReg M' x.
Proof.
  intros Hv Hs. destruct (decide (x = y)) as [->|Hxy].
  { rewrite (settled_visit _ _ _ Hs) in Hv. by injection Hv as <- _. }
  pose proof (visit_extends _ _ _ _ _ Hv) as E.
  intros N Hw'. pose proof Hw' as Hw. apply (extends_wants _ _ _ _ E) in Hw.
  pose proof (wants_nonempty _ _ _ Hw) as HN.
  apply (succeededByCall_true _ _ _ HN).
  destruct (proj1 (succeededByCall_true _ _ _ HN) (Hs _ Hw))
    as (nx & args & Hn & Ho).
  exists nx, args. split; [|by eapply extends_getOpcode].
  rewrite <- Hn. eapply visit_getNextNode_ne; eauto using wants_is_Some.
Qed.

(** ** Which instructions are linked into the module after a step *)

Lemma elem_of_moduleInsts M x :
  x ∈ moduleInsts M <->
  exists f b, f ∈ functions M /\ b ∈ fblocks f /\ x ∈ blockInsts M b.
Proof.
  unfold moduleInsts. rewrite list_elem_of_bind. split.
  - intros (f & (b & Hx & Hb)%list_elem_of_bind & Hf). eauto.
  - intros (f & b & Hf & Hb & Hx). exists f. split; [|done].
    apply list_elem_of_bind. eauto.
Qed.

Lemma createCall_blockInsts M y place V b x :
  (forall c bl z, z ∈ place c bl -> z ∈ bl \/ z = c) ->
  x ∈ blockInsts (createCall M y place V) b ->
  x ∈ blockInsts M b \/ x = length (insts M).
Proof.
  intros Hplace. unfold createCall.
  destruct (insts M !! y) as [i|]; [|by left].
  destruct (blocks M !! parent i) as [bl|] eqn:Hb; [|by left].
  unfold blockInsts. simpl.
  destruct (decide (parent i = b)) as [<-|Hne].
  - rewrite list_lookup_insert_eq by (by eapply lookup_lt_Some).
    rewrite Hb. simpl. apply Hplace.
  - rewrite list_lookup_insert_ne by done. by left.
Qed.

Lemma withBody_blockInsts M fs b x :
  x ∈ blockInsts (withBody M fs) b -> x ∈ blockInsts M b \/ x = length (insts M).
Proof.
  unfold blockInsts. simpl.
  destruct (blocks M !! b) as [bl|] eqn:Hb.
  - rewrite (lookup_app_l_Some _ _ _ _ Hb). by left.
  - rewrite lookup_app_r by (by apply lookup_ge_None).
    destruct (b - length (blocks M))%nat as [|k]; simpl.
    + rewrite list_elem_of_singleton. by right.
    + by left.
Qed.

Lemma outcome_moduleInsts M N M2 V x :
  stubOutcome M N M2 V -> x ∈ moduleInsts M2 ->
  x ∈ moduleInsts M \/ x = length (insts M).
Proof.
  intros Hout (f & b & Hf & Hb & Hx)%elem_of_moduleInsts.
  assert (forall g, g ∈ functions M -> b ∈ fblocks g ->
                    x ∈ blockInsts (withBody M (functions M2)) b ->
                    x ∈ moduleInsts M \/ x = length (insts M)) as Hold.
  { intros g Hg Hbg [Hx'|Hx']%withBody_blockInsts; [left|by right].
    apply elem_of_moduleInsts. eauto. }
  assert (b = length (blocks M) ->
          x ∈ blockInsts (withBody M (functions M2)) b ->
          x ∈ moduleInsts M \/ x = length (insts M)) as Hnew.
  { intros -> [Hx'|Hx']%withBody_blockInsts; [|by right].
    unfold blockInsts in Hx'. rewrite lookup_ge_None_2 in Hx' by done.
    by apply not_elem_of_nil in Hx'. }
  inversion Hout as [g Hg Ht Hbl|g Hg Ht|Hg Hin|g Hg Ht Hbl|Hg Hin]; subst;
    try (left; apply elem_of_moduleInsts; by eauto).
  - simpl in Hf. apply setBody_elem in Hf as [Hf|(g' & Hg' & _ & ->)].
    + by eapply Hold.
    + simpl in Hb. apply list_elem_of_singleton in Hb. by apply Hnew.
  - simpl in Hf. apply elem_of_app in Hf as [Hf|Hf].
    + by eapply Hold.
    + apply list_elem_of_singleton in Hf as ->. simpl in Hb.
      apply list_elem_of_singleton in Hb. by apply Hnew.
Qed.

Lemma visit_moduleInsts M c y M' c' x :
  visit isPCReg (M, c) y = Ok (M', c') -> x ∈ moduleInsts M' ->
  x ∈ moduleInsts M \/ insts M !! x = None.
Proof.
  intros [[-> _]|(N & M2 & V & n & _ & _ & Hout & Hn & -> & _)]%visit_cases Hx;
    [by left|].
  pose proof (extends_length _ _ (outcome_extends Hout)) as Hlen.
  assert (x ∈ moduleInsts M2 \/ x = length (insts M2)) as [Hx2| ->].
  { apply elem_of_moduleInsts in Hx as (f & b & Hf & Hb & Hx).
    assert (functions (createCall M2 y (insertAfter y) V) = functions M2) as Hfs.
    { unfold createCall. destruct (insts M2 !! y) as [i|]; [|done].
      by destruct (blocks M2 !! parent i). }
    rewrite Hfs in Hf.
    apply createCall_blockInsts in Hx as [Hx|Hx];
      [left|by right|intros ???; apply elem_of_insertAfter].
    apply elem_of_moduleInsts. eauto. }
  - destruct (outcome_moduleInsts _ _ _ _ _ Hout Hx2) as [?| ->]; [by left|].
    right. by apply lookup_ge_None_2.
  - right. by apply lookup_ge_None_2.
Qed.

(** ** The whole walk *)

Lemma visitAll_app st l1 l2 :
  visitAll isPCReg st (l1 ++ l2) =
  (st' ← visitAll isPCReg st l1; visitAll isPCReg st' l2).
Proof.
  revert st. induction l1 as [|x r IH]; intros st; simpl; [done|].
  destruct (visit isPCReg st x) as [st'|w]; simpl; [apply IH|done].
Qed.

Lemma visitAll_settled M c l :
  (forall x, x ∈ l -> settled isPCReg M x) -> visitAll isPCReg (M, c) l = Ok (M, c).
Proof.
  induction l as [|x r IH]; intros Hl; simpl; [done|].
  rewrite settled_visit by (apply Hl, list_elem_of_here). simpl.
  apply IH. intros z Hz. by apply Hl, list_elem_of_further.
Qed.

(** What a successful walk over [l] has achieved. *)
Lemma visitAll_Ok M c l M' c' :
  visitAll isPCReg (M, c) l = Ok (M', c') ->
  extends M M' /\
  (forall x, settled isPCReg M x -> settled isPCReg M' x) /\
  (forall x, x ∈ moduleInsts M' -> x ∈ moduleInsts M \/ insts M !! x = None) /\
  (stubCompatible M ->
   stubCompatible M' /\ forall x, x ∈ l -> settled isPCReg M' x).
Proof.
  revert M c. induction l as [|y r IH]; intros M c; simpl.
  { intros [= <- <-]. split; [apply extends_refl|]. split; [done|].
    split; [by left|]. split; [done|]. intros x Hx. by apply not_elem_of_nil in Hx. }
  destruct (visit isPCReg (M, c) y) as [[M1 c1]|w] eqn:Hv; simpl; [|done].
  intros Hr. destruct (IH _ _ Hr) as (E & Hkeep & Hlinked & Hcompat).
  pose proof (visit_extends _ _ _ _ _ Hv) as E1.
  split; [by eapply extends_trans|].
  split; [intros x Hx; eapply Hkeep, visit_keeps_settled; eauto|].
  split.
  { intros x [Hx|Hx]%Hlinked; [by eapply visit_moduleInsts|right].
    destruct E1 as (k & E1 & _). rewrite E1 in Hx.
    apply lookup_ge_None. apply lookup_ge_None in Hx. rewrite length_app in Hx. lia. }
  intros HM. destruct Hcompat as [HM' Hr']; [by eapply visit_stubCompatible|].
  split; [done|]. intros x [->|Hx]%elem_of_cons; [|by apply Hr'].
  apply Hkeep. by eapply (visit_settles M).
Qed.

(** ** Tags and successors over a walk *)

Lemma getMetadata_snoc M M' o p x :
  insts M' = insts M ++ [mkInst o p None] -> getMetadata M' x = getMetadata M x.
Proof.
  intros E. unfold getMetadata. rewrite E.
  destruct (insts M !! x) as [i|] eqn:Hi.
  - by rewrite (lookup_app_l_Some _ _ _ _ Hi).
  - apply lookup_ge_None in Hi. rewrite lookup_app_r by done.
    by destruct (x - length (insts M))%nat as [|[|k]].
Qed.

Lemma createCall_getMetadata M y place V x :
  getMetadata (createCall M y place V) x = getMetadata M x.
Proof.
  unfold createCall. destruct (insts M !! y) as [i|]; [|done].
  destruct (blocks M !! parent i); by eapply getMetadata_snoc.
Qed.

Lemma outcome_getMetadata M N M2 V x :
  stubOutcome M N M2 V -> getMetadata M2 x = getMetadata M x.
Proof. destruct 1; try done; by eapply getMetadata_snoc. Qed.

(** The walk writes no tag: old instructions keep theirs, new ones have
    none. *)
Lemma visitAll_getMetadata M c l M' c' x :
  visitAll isPCReg (M, c) l = Ok (M', c') -> getMetadata M' x = getMetadata M x.
Proof.
  revert M c. induction l as [|y r IH]; intros M c; simpl.
  { by intros [= <- <-]. }
  destruct (visit isPCReg (M, c) y) as [[M1 c1]|w] eqn:Hv; simpl; [|done].
  intros Hr. rewrite (IH _ _ Hr).
  apply visit_cases in Hv as [[-> _]|(N & M2 & V & n & _ & _ & Hout & _ & -> & _)];
    [done|].
  rewrite createCall_getMetadata. by eapply outcome_getMetadata.
Qed.

(** The walk changes what follows an instruction only where a store puts
    a load with a usable tag into the program counter. *)
Lemma visitAll_getNextNode M c l M' c' y :
  visitAll isPCReg (M, c) l = Ok (M', c') ->
  is_Some (insts M !! y) -> getNextNode M' y <> getNextNode M y ->
  exists N, wants isPCReg M y N.
Proof.
  revert M c. induction l as [|z r IH]; intros M c; simpl.
  { by intros [= <- <-]. }
  destruct (visit isPCReg (M, c) z) as [[M1 c1]|w] eqn:Hv; simpl; [|done].
  intros Hr [i Hi] Hne. pose proof (visit_extends _ _ _ _ _ Hv) as E.
  destruct (decide (getNextNode M1 y = getNextNode M y)) as [Heq|Hstep].
  - destruct (IH _ _ Hr) as [N HN].
    + exists i. by eapply extends_lookup.
    + by rewrite Heq.
    + exists N. by apply (extends_wants _ _ _ _ E).
  - destruct (decide (y = z)) as [->|Hyz].
    + apply visit_cases in Hv
        as [[-> _]|(N & M2 & V & n & Hw & _)]; [done|by exists N].
    + destruct Hstep. eapply visit_getNextNode_ne; eauto.
Qed.

End SplitSteps.

(** * The split rewrite: idempotence *)

Lemma stubCompatible_block A tag : stubCompatible (Scenario.block A tag).
Proof.
  split; simpl.
  - intros n Hin. apply list_elem_of_singleton in Hin. discriminate.
  - by intros n f.
Qed.

(** C1 (as amended).  When no global named [dl.<x>] is anything but a
    function of the stub's type [void ()], a successful run of
    [AddRelocationCallsPass::runOnModule] leaves a module on which a second
    run changes nothing and reports no change: the store whose next
    instruction is a call to the matching [dl.]-function is skipped. *)
Theorem split_rewrite_idempotent isPCReg M M1 c :
  stubCompatible M ->
  AddRelocationCallsPass.runOnModule isPCReg M = Ok (M1, c) ->
  AddRelocationCallsPass.runOnModule isPCReg M1 = Ok (M1, false).
Proof.
  unfold AddRelocationCallsPass.runOnModule. intros HM Hrun.
  destruct (visitAll_Ok _ _ _ _ _ _ Hrun) as (E & _ & Hlinked & Hcompat).
  destruct (Hcompat HM) as [_ Hsettled].
  apply visitAll_settled. intros x Hx.
  destruct (Hlinked _ Hx); [by apply Hsettled|by eapply new_settled].
Qed.

Lemma split_rewrite_idempotent_witness :
  exists M1,
    AddRelocationCallsPass.runOnModule Scenario.isPCReg
      (Scenario.block 0x4020 (Some (mkMD "printf" 0))) = Ok (M1, true) /\
    AddRelocationCallsPass.runOnModule Scenario.isPCReg M1 = Ok (M1, false).
Proof.
  eexists. split; [vm_compute; reflexivity|].
  eapply (split_rewrite_idempotent Scenario.isPCReg
            (Scenario.block 0x4020 (Some (mkMD "printf" 0))) _ true).
  - apply stubCompatible_block.
  - vm_compute. reflexivity.
Defined.

(** C1 as stated fails where the module already has a global [dl.printf]
    of another type: the call goes through a bitcast, is not recognised as
    a call to [dl.printf], and the second run links a second call. *)
Lemma split_rewrite_twice_on_clash :
  exists M1 M2,
    AddRelocationCallsPass.runOnModule Scenario.isPCReg Scenario.clashing
      = Ok (M1, true) /\
    AddRelocationCallsPass.runOnModule Scenario.isPCReg M1 = Ok (M2, true) /\
    M2 <> M1 /\
    blockInsts M1 0 = [0; 1; 3; 2]%nat /\
    blockInsts M2 0 = [0; 1; 4; 3; 2]%nat /\
    getOpcode M2 3 = Some (CallInst (VConstExpr BitCast (VFunction "dl.printf")) []) /\
    getOpcode M2 4 = Some (CallInst (VConstExpr BitCast (VFunction "dl.printf")) []).
Proof.
  eexists _, _. split; [vm_compute; reflexivity|].
  split; [vm_compute; reflexivity|].
  split; [discriminate|]. by vm_compute.
Qed.

(** * The split rewrite: the assertion on the insertion point *)

Section SplitAssertion.

Import AddRelocationCallsPass.

Variable isPCReg : Value -> bool.

Lemma withBody_getNextNode_None M fs y :
  getNextNode M y = None -> getNextNode (withBody M fs) y = None.
Proof.
  intros Hn. unfold getNextNode in *. simpl.
  destruct (insts M !! y) as [i|] eqn:Hi; simpl in *.
  - rewrite (lookup_app_l_Some _ _ _ _ Hi). simpl.
    destruct (blocks M !! parent i) as [bl|] eqn:Hb; simpl in *.
    + by rewrite (lookup_app_l_Some _ _ _ _ Hb).
    + apply lookup_ge_None in Hb. rewrite lookup_app_r by done.
      destruct (parent i - length (blocks M))%nat as [|k]; simpl; [|done].
      by case_decide.
  - apply lookup_ge_None in Hi. rewrite lookup_app_r by done.
    destruct (y - length (insts M))%nat as [|k] eqn:Hk; simpl; [|done].
    rewrite lookup_app_r, Nat.sub_diag by done. simpl.
    by rewrite decide_True by lia.
Qed.

Lemma outcome_getNextNode_None M N M2 V y :
  stubOutcome M N M2 V -> getNextNode M y = None -> getNextNode M2 y = None.
Proof.
  intros Hout Hn. destruct Hout; try done; by apply withBody_getNextNode_None.
Qed.

Lemma buildCall_no_next M y N :
  getNextNode M y = None -> buildCall M y N = Abort FailedAssert.
Proof.
  intros Hn. unfold buildCall.
  destruct (decide (N = EmptyString)) as [->|HN].
  { rewrite getOrCreate_unnamed. by rewrite withBody_getNextNode_None. }
  pose proof (getOrCreate_outcome M N HN) as Hout.
  destruct (getOrCreate M N) as [M2 V]. simpl in Hout.
  by rewrite (outcome_getNextNode_None _ _ _ _ _ Hout Hn).
Qed.

Lemma visit_no_next M c y N :
  wants isPCReg M y N -> getNextNode M y = None ->
  visit isPCReg (M, c) y = Abort NullCast.
Proof.
  intros Hw Hn. rewrite (visit_wants _ _ _ _ _ Hw).
  unfold succeededByCall. by rewrite Hn.
Qed.

Lemma visitAll_aborts M c l y N :
  y ∈ l -> wants isPCReg M y N -> getNextNode M y = None ->
  exists w, visitAll isPCReg (M, c) l = Abort w.
Proof.
  revert M c. induction l as [|z r IH]; intros M c Hy Hw Hn.
  { by apply not_elem_of_nil in Hy. }
  simpl. destruct (visit isPCReg (M, c) z) as [[M1 c1]|w] eqn:Hv; simpl; [|eauto].
  destruct (decide (y = z)) as [->|Hyz].
  { by rewrite (visit_no_next _ _ _ _ Hw Hn) in Hv. }
  apply elem_of_cons in Hy as [?|Hy]; [done|].
  pose proof (visit_extends _ _ _ _ _ _ Hv) as E.
  apply IH; [done|by apply (extends_wants _ _ _ _ _ E)|].
  rewrite <- Hn. eapply visit_getNextNode_ne; eauto using wants_is_Some.
Qed.

Lemma visit_total M c y :
  storesSucceeded M ->
  exists M1 c1, visit isPCReg (M, c) y = Ok (M1, c1) /\ storesSucceeded M1.
Proof.
  intros HM. destruct (wants_dec isPCReg M y) as [[N Hw]|Hno].
  2: { exists M, c. by rewrite visit_idle. }
  assert (exists M1 c1, visit isPCReg (M, c) y = Ok (M1, c1)) as (M1 & c1 & Hv).
  { rewrite (visit_wants _ _ _ _ _ Hw).
    pose proof (wants_nonempty _ _ _ _ Hw) as HNE.
    destruct Hw as (v & p & l & Ho & _).
    destruct (HM _ _ _ Ho) as [n Hn].
    assert (exists b, succeededByCall M y N = Ok b) as [b ->].
    { unfold succeededByCall. rewrite Hn.
      destruct (getOpcode M n) as [[| | V args | |]|]; eauto.
      destruct (getCalledFunction V); eauto. }
    simpl. destruct b; [eauto|].
    unfold buildCall. pose proof (getOrCreate_outcome M N HNE) as Hout.
    destruct (getOrCreate M N) as [M2 V]. simpl in Hout.
    assert (is_Some (insts M !! y)) as Hy.
    { unfold getOpcode in Ho. destruct (insts M !! y); [eauto|done]. }
    rewrite (outcome_getNextNode Hout _ Hy), Hn. eauto. }
  exists M1, c1. split; [done|].
  pose proof (visit_extends _ _ _ _ _ _ Hv) as E.
  intros x v p Ho.
  destruct (insts M !! x) as [i|] eqn:Hi.
  2: { exfalso. eapply created_not_store; eauto. }
  assert (getOpcode M x = Some (StoreInst v p)) as Ho'.
  { unfold getOpcode in *. rewrite (extends_lookup _ _ _ _ E Hi) in Ho. by rewrite Hi. }
  destruct (decide (x = y)) as [->|Hxy].
  - apply visit_cases in Hv as [[-> _]|(N' & M2 & V & n & _ & _ & _ & Hn & -> & _)].
    + eauto.
    + erewrite createCall_getNextNode_same; eauto.
  - erewrite visit_getNextNode_ne; eauto.
Qed.

Lemma visitAll_total M c l :
  storesSucceeded M -> exists st, visitAll isPCReg (M, c) l = Ok st.
Proof.
  revert M c. induction l as [|z r IH]; intros M c HM; simpl; [eauto|].
  destruct (visit_total M c z HM) as (M1 & c1 & -> & HM1). simpl. by apply IH.
Qed.

End SplitAssertion.

(** C8.  A store that qualifies for a call but ends its block makes the
    split rewrite stop on a failed assertion ([buildCall] asserts that the
    next node exists; the cast in [succeededByCall] already asserts on the
    null pointer); when every store of the module has an instruction after
    it, the run completes and no assertion fires. *)
Theorem split_rewrite_assertion isPCReg M :
  (forall y N, y ∈ moduleInsts M -> wants isPCReg M y N -> getNextNode M y = None ->
               exists w, AddRelocationCallsPass.runOnModule isPCReg M = Abort w) /\
  (forall y N, getNextNode M y = None ->
               AddRelocationCallsPass.buildCall M y N = Abort FailedAssert) /\
  (storesSucceeded M ->
   exists M' c, AddRelocationCallsPass.runOnModule isPCReg M = Ok (M', c)).
Proof.
  split; [|split].
  - intros y N Hy Hw Hn. by eapply visitAll_aborts.
  - intros y N. apply buildCall_no_next.
  - intros HM. destruct (visitAll_total isPCReg M false (moduleInsts M) HM) as [[M' c] H].
    by exists M', c.
Qed.

Lemma wants_truncated : wants Scenario.isPCReg Scenario.truncated 1 "dl.printf".
Proof. exists (VInst 0), (VGlobalVar "pc"), 0%nat. by vm_compute. Qed.

Lemma storesSucceeded_block A tag : storesSucceeded (Scenario.block A tag).
Proof.
  by intros [|[|[|y]]] v p.
Qed.

Lemma split_rewrite_assertion_witness :
  (exists w, AddRelocationCallsPass.runOnModule Scenario.isPCReg Scenario.truncated
             = Abort w) /\
  AddRelocationCallsPass.buildCall Scenario.truncated 1 "dl.printf"
    = Abort FailedAssert /\
  (exists M' c,
     AddRelocationCallsPass.runOnModule Scenario.isPCReg
       (Scenario.block 0x4020 (Some (mkMD "printf" 0))) = Ok (M', c)).
Proof.
  split; [|split].
  - apply (proj1 (split_rewrite_assertion Scenario.isPCReg Scenario.truncated)
             1%nat "dl.printf").
    + by vm_compute; apply list_elem_of_further, list_elem_of_here.
    + apply wants_truncated.
    + reflexivity.
  - apply (proj1 (proj2 (split_rewrite_assertion Scenario.isPCReg Scenario.truncated))).
    reflexivity.
  - apply (proj2 (proj2 (split_rewrite_assertion Scenario.isPCReg
                           (Scenario.block 0x4020 (Some (mkMD "printf" 0)))))).
    apply storesSucceeded_block.
Defined.

(** * The split rewrite does not locate *)

(** C4 (as amended).  [AddRelocationCallsPass] has no relocation table and
    computes no tag.  Run on a module without tags it changes nothing and
    reports no change.  Whenever it succeeds, every instruction has the tag
    it had (and the instructions it adds have none), and what follows an
    instruction has changed only if that instruction is a store to the
    program counter of a load that already carried a tag with a zero
    addend and a name, whoever attached it. *)
Theorem split_alone_on_untagged isPCReg M :
  (untagged M -> AddRelocationCallsPass.runOnModule isPCReg M = Ok (M, false)) /\
  (forall M1 c,
     AddRelocationCallsPass.runOnModule isPCReg M = Ok (M1, c) ->
     (forall x, getMetadata M1 x = getMetadata M x) /\
     (forall y, is_Some (insts M !! y) -> getNextNode M1 y <> getNextNode M y ->
        exists val ptr Load MD,
          getOpcode M y = Some (StoreInst val ptr) /\ isPCReg ptr = true /\
          asLoad M val = Some Load /\ getMetadata M Load = Some MD /\
          mdAddend MD = 0 /\ mdName MD <> EmptyString)).
Proof.
  split.
  - intros HM. apply visitAll_settled. intros x _. apply idle_settled.
    intros N (v & p & l & _ & _ & _ & Hn & _). apply Hn.
    unfold AddRelocationCallsPass.getRelocName. by rewrite HM.
  - intros M1 c Hrun. split.
    + intros x. by eapply visitAll_getMetadata.
    + intros y Hy Hne.
      destruct (visitAll_getNextNode _ _ _ _ _ _ _ Hrun Hy Hne)
        as (N & v & p & l & Ho & Hp & Hl & Hn & _).
      unfold AddRelocationCallsPass.getRelocName in Hn.
      destruct (getMetadata M l) as [MD|] eqn:HMD; [|done]. simpl in Hn.
      destruct (mdAddend MD =? 0)%Z eqn:Hz; [|done].
      exists v, p, l, MD. repeat split; try done. by apply Z.eqb_eq.
Qed.

Lemma untagged_block A : untagged (Scenario.block A None).
Proof. by intros [|[|[|x]]]. Qed.

Lemma split_alone_on_untagged_witness :
  AddRelocationCallsPass.runOnModule Scenario.isPCReg (Scenario.block 0x4020 None)
  = Ok (Scenario.block 0x4020 None, false) /\
  exists M1,
    AddRelocationCallsPass.runOnModule Scenario.isPCReg
      (Scenario.block 0x4020 (Some (mkMD "printf" 0))) = Ok (M1, true) /\
    getMetadata M1 0 = Some (mkMD "printf" 0) /\
    getNextNode M1 1 <> getNextNode (Scenario.block 0x4020 (Some (mkMD "printf" 0))) 1 /\
    exists val ptr Load MD,
      getOpcode (Scenario.block 0x4020 (Some (mkMD "printf" 0))) 1
        = Some (StoreInst val ptr) /\
      Scenario.isPCReg ptr = true /\
      asLoad (Scenario.block 0x4020 (Some (mkMD "printf" 0))) val = Some Load /\
      getMetadata (Scenario.block 0x4020 (Some (mkMD "printf" 0))) Load = Some MD /\
      mdAddend MD = 0 /\ mdName MD <> EmptyString.
Proof.
  split.
  - apply (proj1 (split_alone_on_untagged Scenario.isPCReg
                    (Scenario.block 0x4020 None))).
    apply untagged_block.
  - destruct (AddRelocationCallsPass.runOnModule Scenario.isPCReg
                (Scenario.block 0x4020 (Some (mkMD "printf" 0))))
      as [[M1 c]|w] eqn:Hrun; [|by vm_compute in Hrun].
    destruct (proj2 (split_alone_on_untagged Scenario.isPCReg
                       (Scenario.block 0x4020 (Some (mkMD "printf" 0))))
                _ _ Hrun) as [Htags Hnext].
    vm_compute in Hrun. injection Hrun as <- <-.
    exists (createCall
              (withBody (Scenario.block 0x4020 (Some (mkMD "printf" 0)))
                 [Scenario.root;
                  mkFn "dl.printf" AddRelocationCallsPass.voidFn [1%nat]])
              1 (insertAfter 1) (VFunction "dl.printf")).
    split; [reflexivity|]. split; [by rewrite Htags|].
    split; [by vm_compute|]. apply Hnext; [by eexists|by vm_compute].
Defined.

(** C4 as stated fails on the scenario block: run alone on the untagged
    block the split rewrite links no call after store 1 and leaves load 0
    untagged, whereas locating first and rewriting then does both. *)
Lemma split_alone_differs_from_locate_then_split :
  let M := Scenario.block 0x4020 None in
  let located :=
    (LocateRelocationAccessesPass.runOnBasicBlock Scenario.printfRelocs M 0).1 in
  exists M1 M2,
    AddRelocationCallsPass.runOnModule Scenario.isPCReg M = Ok (M1, false) /\
    AddRelocationCallsPass.runOnModule Scenario.isPCReg located = Ok (M2, true) /\
    getNextNode M1 1 = Some 2%nat /\ getOpcode M1 2 = Some ReturnInst /\
    getMetadata M1 0 = None /\
    getNextNode M2 1 = Some 4%nat /\
    getOpcode M2 4 = Some (CallInst (VFunction "dl.printf") []) /\
    getMetadata M2 0 = Some (mkMD "printf" 0).
Proof. eexists _, _. by vm_compute. Qed.

(** * The end-to-end scenario *)

(** C5.  With the table [{0x4020, "printf", 0}] and the block
    [r = load(inttoptr(0x4020)); store(PC, r); ret], locating and then
    rewriting leaves [store(PC, r)] immediately followed by a call to
    [dl.printf] without arguments, and the load tagged [("printf", 0)]. *)
Theorem end_to_end_printf :
  let M := Scenario.block 0x4020 None in
  let located :=
    LocateRelocationAccessesPass.runOnBasicBlock Scenario.printfRelocs M 0 in
  exists M2,
    located.2 = true /\
    AddRelocationCallsPass.runOnModule Scenario.isPCReg located.1 = Ok (M2, true) /\
    blockInsts M2 0 = [0; 1; 4; 2]%nat /\
    getOpcode M2 0 = Some (LoadInst (VConstExpr IntToPtr (VConstInt 0x4020))) /\
    getMetadata M2 0 = Some (mkMD "printf" 0) /\
    getOpcode M2 1 = Some (StoreInst (VInst 0) (VGlobalVar "pc")) /\
    getNextNode M2 1 = Some 4%nat /\
    getOpcode M2 4 = Some (CallInst (VFunction "dl.printf") []) /\
    getOpcode M2 2 = Some ReturnInst.
Proof. eexists. by vm_compute. Qed.

(** * Library metadata *)

Lemma foldl_snoc_id (l acc : list string) :
  foldl (fun a Lib => a ++ [Lib]) acc l = acc ++ l.
Proof.
  revert acc. induction l as [|x r IH]; intros acc; simpl.
  - by rewrite app_nil_r.
  - by rewrite IH, <- app_assoc.
Qed.

(** C9.  Annotating with [["libc.so.6"; "libm.so.6"]] attaches exactly
    these two names, one entry each, in that order; in general the entries
    are the input list, and nothing else of the module changes. *)
Theorem library_metadata_order M :
  linkerOptions (AddLibraryMetadataPass.runOnModule ["libc.so.6"; "libm.so.6"] M)
  = Some ["libc.so.6"; "libm.so.6"] /\
  forall Libraries,
    let M' := AddLibraryMetadataPass.runOnModule Libraries M in
    linkerOptions M' = Some Libraries /\
    insts M' = insts M /\ blocks M' = blocks M /\ functions M' = functions M.
Proof.
  split; [done|]. intros Libraries. simpl. by rewrite foldl_snoc_id.
Qed.

(** * Stubs are made once and found again *)

Section StubReuse.

Import AddRelocationCallsPass.

Variable isPCReg : Value -> bool.

Lemma withBody_neq M fs : withBody M fs <> M.
Proof.
  intros H. apply (f_equal (fun m => length (insts m))) in H.
  simpl in H. rewrite length_app in H. simpl in H. lia.
Qed.

Lemma outcome_eq M N M2 V :
  N <> EmptyString -> stubOutcome M N M2 V -> getOrCreate M N = (M2, V).
Proof.
  intros HN Hout. pose proof (getOrCreate_outcome M N HN) as Hc.
  destruct (getOrCreate M N) as [M2' V']. simpl in Hc.
  destruct Hout; inversion Hc; subst; try congruence.
Qed.

Lemma getOrCreate_stable M M' N V :
  N <> EmptyString ->
  getFunction (functions M') N = getFunction (functions M) N ->
  globalVars M' = globalVars M ->
  getOrCreate M N = (M, V) -> getOrCreate M' N = (M', V).
Proof.
  intros HN Hf Hg Hready.
  pose proof (getOrCreate_outcome M N HN) as Hc. rewrite Hready in Hc. simpl in Hc.
  inversion Hc as [f Hg' Ht Hb|f Hg' Ht|Hg' Hin|f Hg' Ht Hb HM|Hg' Hin HM].
  - apply outcome_eq; [done|]. eapply found_defined; eauto. congruence.
  - apply outcome_eq; [done|]. eapply found_other_type; eauto. congruence.
  - apply outcome_eq; [done|]. eapply found_variable; congruence.
  - by apply withBody_neq in HM.
  - by apply withBody_neq in HM.
Qed.

Lemma outcome_ready M N M2 V :
  N <> EmptyString -> stubOutcome M N M2 V -> getOrCreate M2 N = (M2, V).
Proof.
  intros HN Hout. apply outcome_eq; [done|].
  inversion Hout as [f Hg Ht Hb|f Hg Ht|Hg Hin|f Hg Ht Hb|Hg Hin]; subst; try done.
  - eapply found_defined with (f := mkFn (fname f) (ftype f) [length (blocks M)]);
      simpl; try done.
    rewrite getFunction_setBody, Hg. simpl.
    by rewrite decide_True by (by apply getFunction_Some in Hg as [_ ?]).
  - eapply found_defined with (f := mkFn N voidFn [length (blocks M)]);
      simpl; try done.
    rewrite getFunction_app, Hg. simpl. by rewrite decide_True.
Qed.

Lemma outcome_getFunction_ne M N' M2 V N :
  stubOutcome M N' M2 V -> N <> N' ->
  getFunction (functions M2) N = getFunction (functions M) N.
Proof.
  intros Hout Hne. destruct Hout; simpl; try done.
  - rewrite getFunction_setBody.
    destruct (getFunction (functions M) N) as [g|] eqn:Hg; simpl; [|done].
    apply getFunction_Some in Hg as [_ Hg]. rewrite decide_False; [done|congruence].
  - rewrite getFunction_app.
    destruct (getFunction (functions M) N); [done|].
    simpl. rewrite decide_False; [done|congruence].
Qed.

Lemma createCall_symbols M y place V :
  functions (createCall M y place V) = functions M /\
  globalVars (createCall M y place V) = globalVars M.
Proof.
  unfold createCall. destruct (insts M !! y) as [i|]; [|done].
  by destruct (blocks M !! parent i).
Qed.

Lemma createCall_ready M y place V N V' :
  N <> EmptyString ->
  getOrCreate M N = (M, V') ->
  getOrCreate (createCall M y place V) N = (createCall M y place V, V').
Proof.
  intros HN. destruct (createCall_symbols M y place V) as [Hf Hg].
  apply getOrCreate_stable; congruence.
Qed.

Lemma visit_ready M c y M' c' N V :
  N <> EmptyString ->
  visit isPCReg (M, c) y = Ok (M', c') ->
  getOrCreate M N = (M, V) -> getOrCreate M' N = (M', V).
Proof.
  intros HN [[-> _]|(N' & M2 & V' & n & _ & _ & Hout & _ & -> & _)]%visit_cases
    Hready; [done|].
  apply createCall_ready; [done|].
  destruct (decide (N = N')) as [->|Hne].
  - apply outcome_eq in Hout; [congruence|done].
  - eapply getOrCreate_stable; [done| | |done].
    + by eapply outcome_getFunction_ne.
    + by eapply outcome_globalVars.
Qed.

Lemma visitAll_ready M c l M' c' N V :
  N <> EmptyString ->
  visitAll isPCReg (M, c) l = Ok (M', c') ->
  getOrCreate M N = (M, V) -> getOrCreate M' N = (M', V).
Proof.
  intros HN. revert M c. induction l as [|y r IH]; intros M c; simpl.
  { by intros [= <- <-]. }
  destruct (visit isPCReg (M, c) y) as [[M1 c1]|w] eqn:Hv; simpl; [|done].
  intros Hr Hready. eapply IH; eauto using visit_ready.
Qed.

Lemma calledGlobal_outcome M N M2 V : stubOutcome M N M2 V -> calledGlobal V = Some N.
Proof. by destruct 1. Qed.

End StubReuse.

(** * The fused pass, step by step *)

Lemma grows_refl M : grows M M.
Proof.
  split; [|split].
  - intros x i Hi. by exists i.
  - intros x i' Hn Hs. congruence.
  - intros b x Hx. by left.
Qed.

Lemma grows_trans M1 M2 M3 : grows M1 M2 -> grows M2 M3 -> grows M1 M3.
Proof.
  intros (A1 & B1 & C1) (A2 & B2 & C2). split; [|split].
  - intros x i Hi. destruct (A1 _ _ Hi) as (i' & Hi' & Ho & Hp & Hr).
    destruct (A2 _ _ Hi') as (i'' & Hi'' & Ho' & Hp' & Hr').
    exists i''. repeat split; try congruence. intros MD HMD. auto.
  - intros x i'' Hn Hs. destruct (insts M2 !! x) as [i'|] eqn:Hi'.
    + destruct (B1 _ _ Hn Hi') as [V HV].
      destruct (A2 _ _ Hi') as (j & Hj & Ho & _). exists V. congruence.
    + eauto.
  - intros b x Hx. destruct (C2 _ _ Hx) as [Hx'|Hn]; [auto|].
    right. destruct (insts M1 !! x) as [i|] eqn:Hi; [|done].
    destruct (A1 _ _ Hi) as (i' & Hi' & _). congruence.
Qed.

Lemma grows_getOpcode M M' x o :
  grows M M' -> getOpcode M x = Some o -> getOpcode M' x = Some o.
Proof.
  intros (A & _) Ho. unfold getOpcode in *.
  destruct (insts M !! x) as [i|] eqn:Hi; [|done].
  destruct (A _ _ Hi) as (i' & -> & Hop & _). simpl in *. congruence.
Qed.

Lemma grows_tagsKept M M' : grows M M' -> tagsKept M M'.
Proof.
  intros (A & _) x MD HMD. unfold getMetadata in *.
  destruct (insts M !! x) as [i|] eqn:Hi; [|done].
  destruct (A _ _ Hi) as (i' & -> & _ & _ & Hr). simpl in *. auto.
Qed.

Lemma grows_new_call M M' x o :
  grows M M' -> insts M !! x = None -> getOpcode M' x = Some o ->
  exists V, o = CallInst V [].
Proof.
  intros (_ & B & _) Hn Ho. unfold getOpcode in Ho.
  destruct (insts M' !! x) as [i'|] eqn:Hi'; [|done].
  destruct (B _ _ Hn Hi') as [V HV]. exists V. simpl in Ho. congruence.
Qed.

Lemma grows_asLoad M M' V l : grows M M' -> asLoad M V = Some l -> asLoad M' V = Some l.
Proof.
  intros G. destruct V as [x| | | | | |]; simpl; try done.
  destruct (getOpcode M x) as [o|] eqn:Ho; [|done].
  by rewrite (grows_getOpcode _ _ _ _ G Ho).
Qed.

Lemma grows_constantAddress M M' x c :
  grows M M' -> constantAddress M' x = Some c -> constantAddress M x = Some c.
Proof.
  intros G. unfold constantAddress.
  destruct (getOpcode M x) as [o|] eqn:Ho.
  { by rewrite (grows_getOpcode _ _ _ _ G Ho). }
  destruct (getOpcode M' x) as [o'|] eqn:Ho'; [|done].
  assert (insts M !! x = None) as Hn.
  { unfold getOpcode in Ho. by destruct (insts M !! x). }
  by destruct (grows_new_call _ _ _ _ G Hn Ho') as [V ->].
Qed.

Lemma extends_grows_insts M M' :
  extends M M' ->
  (forall b x, x ∈ blockInsts M' b -> x ∈ blockInsts M b \/ insts M !! x = None) ->
  (forall x i', insts M !! x = None -> insts M' !! x = Some i' ->
                exists V, opcode i' = CallInst V []) ->
  grows M M'.
Proof.
  intros E Hb Hc. split; [|by split].
  intros x i Hi. exists i. by rewrite (extends_lookup _ _ _ _ E Hi).
Qed.

Lemma getMetadata_setMetadata M x MD :
  is_Some (insts M !! x) -> getMetadata (setMetadata M x MD) x = Some MD.
Proof.
  intros [i Hi]. unfold setMetadata, getMetadata. rewrite Hi. simpl.
  by rewrite list_lookup_insert_eq by (by eapply lookup_lt_Some).
Qed.

Lemma setMetadata_grows M x MD : getMetadata M x = None -> grows M (setMetadata M x MD).
Proof.
  intros Hnone. unfold setMetadata.
  destruct (insts M !! x) as [i|] eqn:Hi; [|apply grows_refl].
  split; [|split]; simpl.
  - intros z j Hj. destruct (decide (x = z)) as [<-|Hne].
    + rewrite list_lookup_insert_eq by (by eapply lookup_lt_Some).
      eexists. split; [done|]. simpl.
      assert (j = i) as -> by congruence. repeat split.
      unfold getMetadata in Hnone. rewrite Hi in Hnone. simpl in Hnone.
      intros MD'. by rewrite Hnone.
    + rewrite list_lookup_insert_ne by done. by exists j.
  - intros z j Hn Hs. apply lookup_ge_None in Hn.
    apply lookup_lt_Some in Hs. rewrite length_insert in Hs. lia.
  - intros b z Hz. by left.
Qed.

Lemma createCall_grows M y place V :
  (forall c bl z, z ∈ place c bl -> z ∈ bl \/ z = c) ->
  grows M (createCall M y place V).
Proof.
  intros Hplace. apply extends_grows_insts.
  - apply createCall_extends.
  - intros b x [Hx| ->]%createCall_blockInsts; [by left| |done].
    right. by apply lookup_ge_None_2.
  - unfold createCall. intros x i' Hn.
    destruct (insts M !! y) as [i|]; [|congruence].
    assert (insts M !! x = None ->
            (insts M ++ [mkInst (CallInst V []) (parent i) None]) !! x = Some i' ->
            exists V0, opcode i' = CallInst V0 []) as Hnew.
    { intros _ [?|[_ Hs]]%lookup_app_Some; [congruence|].
      apply list_elem_of_lookup_2, list_elem_of_singleton in Hs as ->. by exists V. }
    destruct (blocks M !! parent i); simpl; auto.
Qed.

Lemma getOrInsertFunction_arenas M N T :
  insts (getOrInsertFunction M N T).1 = insts M /\
  blocks (getOrInsertFunction M N T).1 = blocks M.
Proof.
  unfold getOrInsertFunction.
  destruct (getFunction (functions M) N); repeat case_decide; done.
Qed.

Lemma getOrInsertFunction_grows M N T : grows M (getOrInsertFunction M N T).1.
Proof.
  destruct (getOrInsertFunction_arenas M N T) as [Hi Hb].
  split; [|split].
  - intros x i Hx. exists i. by rewrite Hi.
  - intros x i' Hn Hs. congruence.
  - intros b x Hx. left. unfold blockInsts in *. by rewrite <- Hb.
Qed.

Lemma fused_buildCall_grows M y N :
  grows M (TranslateRelocationCallsPass.buildCall M y N).
Proof.
  unfold TranslateRelocationCallsPass.buildCall.
  pose proof (getOrInsertFunction_grows M N TranslateRelocationCallsPass.varArgVoidFn) as G.
  destruct (getOrInsertFunction M N _) as [M1 V]. simpl in G.
  eapply grows_trans; [done|]. apply createCall_grows.
  intros ???. apply elem_of_insertBefore.
Qed.

Section FusedSteps.

Import TranslateRelocationCallsPass.

Variable isPCReg : Value -> bool.
Variable Relocations : list RelocationInfo.

Local Abbreviation step := (fusedStep isPCReg Relocations).

Lemma fusedStep_grows M M' : step M M' -> grows M M'.
Proof.
  destruct 1; [by apply setMetadata_grows|apply fused_buildCall_grows].
Qed.

Lemma steps_grows M M' : rtc step M M' -> grows M M'.
Proof.
  induction 1 as [|M M1 M2 Hs _ IH]; [apply grows_refl|].
  eapply grows_trans; [by apply fusedStep_grows|done].
Qed.

Lemma visitUser_steps M y : rtc step M (visitUser isPCReg M y).
Proof.
  unfold visitUser, handlePCStore.
  destruct (getOpcode M y) as [[| v p | | |]|] eqn:Ho; try done.
  destruct (isPCReg p) eqn:Hp; [|done].
  destruct (asLoad M v) as [l|] eqn:Hl; [|done].
  destruct (getMetadata M l) as [MD|] eqn:HMD; [|done].
  destruct (mdAddend MD =? 0)%Z eqn:Hz; [|done].
  simpl. apply rtc_once. eapply step_call; eauto. by apply Z.eqb_eq.
Qed.

Lemma foldl_visitUser_steps M l : rtc step M (foldl (visitUser isPCReg) M l).
Proof.
  revert M. induction l as [|y r IH]; intros M; simpl; [done|].
  eapply rtc_trans; [apply visitUser_steps|apply IH].
Qed.

(** How the loop over the table ends: either nothing was done, because the
    load is tagged or no record matches, or the first matching record has
    tagged the load. *)
Lemma scanRelocations_cases M Load c rs :
  is_Some (insts M !! Load) ->
  (scanRelocations isPCReg M Load c rs = (M, false) /\
   (is_Some (getMetadata M Load) \/ forall r, r ∈ rs -> c <> Address r)) \/
  (exists r M1,
     r ∈ rs /\ c = Address r /\ getMetadata M Load = None /\
     M1 = setMetadata M Load (mkMD (Name r) (int64 (Addend r))) /\
     scanRelocations isPCReg M Load c rs
     = (foldl (visitUser isPCReg) M1 (users M1 Load), true)).
Proof.
  intros HL. induction rs as [|r rest IH]; simpl.
  { left. split; [done|]. right. intros r Hr. by apply not_elem_of_nil in Hr. }
  destruct (c =? Address r)%Z eqn:Hc.
  - apply Z.eqb_eq in Hc. destruct (getMetadata M Load) as [MD|] eqn:HMD.
    + left. destruct IH as [[-> _]|(r' & M1 & _ & _ & ? & _)]; [|done].
      split; [done|]. left. eauto.
    + right. exists r, (setMetadata M Load (mkMD (Name r) (int64 (Addend r)))).
      split; [apply list_elem_of_here|done].
  - apply Z.eqb_neq in Hc. destruct IH as [[-> Hor]|(r' & M1 & Hr' & Hrest)].
    + left. split; [done|]. destruct Hor as [?|Hno]; [by left|right].
      intros r' [->|Hr']%elem_of_cons; auto.
    + right. exists r', M1. split; [by apply list_elem_of_further|done].
Qed.

Lemma constantAddress_is_Some M x c : constantAddress M x = Some c -> is_Some (insts M !! x).
Proof.
  unfold constantAddress, getOpcode. destruct (insts M !! x); [eauto|done].
Qed.

Lemma handleLoad_steps M x :
  rtc step M (handleLoad isPCReg Relocations M x).1 /\
  ~ pending Relocations (handleLoad isPCReg Relocations M x).1 x.
Proof.
  unfold handleLoad. destruct (constantAddress M x) as [c|] eqn:Hc.
  2: { split; [done|]. intros (c & r & Hc' & _). simpl in Hc'. congruence. }
  destruct (scanRelocations_cases M x c Relocations
              (constantAddress_is_Some _ _ _ Hc))
    as [[-> Hor]|(r & M1 & Hr & -> & HMD & -> & ->)]; simpl.
  - split; [done|]. intros (c' & r & Hc' & Hr & -> & HMD).
    destruct Hor as [[MD ?]|Hno]; [congruence|]. apply (Hno r Hr). congruence.
  - set (M1 := setMetadata M x _).
    assert (rtc step M1 (foldl (visitUser isPCReg) M1 (users M1 x))) as Hsteps
      by apply foldl_visitUser_steps.
    split.
    + eapply rtc_l; [|done]. by apply step_tag.
    + intros (c' & r' & _ & _ & _ & HMD').
      apply steps_grows, grows_tagsKept in Hsteps.
      erewrite Hsteps in HMD'; [done|].
      apply getMetadata_setMetadata. by eapply constantAddress_is_Some.
Qed.

Lemma grows_pending M M' x :
  grows M M' -> pending Relocations M' x -> pending Relocations M x.
Proof.
  intros G (c & r & Hc & Hr & -> & HMD). exists (Address r), r.
  repeat split; try done; [by eapply grows_constantAddress|].
  destruct (getMetadata M x) as [MD|] eqn:HM; [|done].
  by rewrite (grows_tagsKept _ _ G _ _ HM) in HMD.
Qed.

Lemma handleLoad_idle M x :
  ~ pending Relocations M x -> handleLoad isPCReg Relocations M x = (M, false).
Proof.
  intros Hnp. unfold handleLoad.
  destruct (constantAddress M x) as [c|] eqn:Hc; [|done].
  destruct (scanRelocations_cases M x c Relocations
              (constantAddress_is_Some _ _ _ Hc))
    as [[-> _]|(r & M1 & Hr & -> & HMD & _)]; [done|].
  destruct Hnp. by exists (Address r), r.
Qed.

Lemma visit_steps st x :
  rtc step st.1 (visit isPCReg Relocations st x).1 /\
  ~ pending Relocations (visit isPCReg Relocations st x).1 x.
Proof.
  unfold visit. destruct (getOpcode st.1 x) as [[p| | | |]|] eqn:Ho;
    try (split; [done|]; intros (c & r & Hc & _);
         unfold constantAddress in Hc; by rewrite Ho in Hc).
  simpl. apply handleLoad_steps.
Qed.

Lemma visit_idle_fused M b x :
  ~ pending Relocations M x -> visit isPCReg Relocations (M, b) x = (M, b).
Proof.
  intros Hnp. unfold visit. simpl.
  destruct (getOpcode M x) as [[p| | | |]|]; try done.
  rewrite handleLoad_idle by done. simpl. by rewrite orb_false_r.
Qed.

Lemma foldl_visit_steps st l :
  rtc step st.1 (foldl (visit isPCReg Relocations) st l).1 /\
  forall x, x ∈ l -> ~ pending Relocations (foldl (visit isPCReg Relocations) st l).1 x.
Proof.
  revert st. induction l as [|y r IH]; intros st; simpl.
  { split; [done|]. intros x Hx. by apply not_elem_of_nil in Hx. }
  destruct (visit_steps st y) as [Hs Hnp].
  destruct (IH (visit isPCReg Relocations st y)) as [Hs' Hnp'].
  split; [by eapply rtc_trans|].
  intros x [->|Hx]%elem_of_cons; [|by apply Hnp'].
  intros Hp. apply Hnp. eapply grows_pending; [|done]. by apply steps_grows.
Qed.

Lemma foldl_visit_idle M b l :
  (forall x, x ∈ l -> ~ pending Relocations M x) ->
  foldl (visit isPCReg Relocations) (M, b) l = (M, b).
Proof.
  induction l as [|y r IH]; intros Hl; simpl; [done|].
  rewrite visit_idle_fused by (apply Hl, list_elem_of_here).
  apply IH. intros x Hx. by apply Hl, list_elem_of_further.
Qed.

Lemma runOnBasicBlock_steps M BB :
  rtc step M (runOnBasicBlock isPCReg Relocations M BB).1.
Proof. apply (foldl_visit_steps (M, false)). Qed.

End FusedSteps.

(** C10.  A second run of the fused pass over the same block changes
    nothing and reports no change: a load is either tagged by now, and the
    metadata check skips it, or it matched no record the first time and
    matches none now; calls are only built where a load is freshly tagged. *)
Theorem fused_rewrite_idempotent isPCReg Relocations M BB :
  let M1 := (TranslateRelocationCallsPass.runOnBasicBlock isPCReg Relocations M BB).1 in
  TranslateRelocationCallsPass.runOnBasicBlock isPCReg Relocations M1 BB = (M1, false).
Proof.
  simpl. unfold TranslateRelocationCallsPass.runOnBasicBlock at 1 3.
  destruct (foldl_visit_steps isPCReg Relocations (M, false) (blockInsts M BB))
    as [Hsteps Hnp]. simpl in Hsteps.
  set (M1 := (foldl _ (M, false) (blockInsts M BB)).1) in *.
  apply foldl_visit_idle. intros x Hx.
  pose proof (steps_grows _ _ _ _ Hsteps) as G.
  destruct G as (A & B & C). destruct (C _ _ Hx) as [Hold|Hnew]; [by apply Hnp|].
  intros (c & r & Hc & _). unfold constantAddress, getOpcode in Hc.
  destruct (insts M1 !! x) as [i'|] eqn:Hi'; [|done].
  destruct (B _ _ Hnew Hi') as [V HV]. simpl in Hc. by rewrite HV in Hc.
Qed.

(** * Tags are write-once *)

Section LocatorSteps.

Import LocateRelocationAccessesPass.

Variable isPCReg : Value -> bool.
Variable Relocations : list RelocationInfo.

Local Abbreviation step := (fusedStep isPCReg Relocations).

Lemma locate_scanRelocations_cases M x c rs :
  scanRelocations M x c rs = (M, false) \/
  exists r, r ∈ rs /\ c = Address r /\ getMetadata M x = None /\
            scanRelocations M x c rs
            = (setMetadata M x (mkMD (Name r) (int64 (Addend r))), true).
Proof.
  induction rs as [|r rest IH]; simpl; [by left|].
  assert (scanRelocations M x c rest = (M, false) \/
          exists r0, r0 ∈ r :: rest /\ c = Address r0 /\ getMetadata M x = None /\
                     scanRelocations M x c rest
                     = (setMetadata M x (mkMD (Name r0) (int64 (Addend r0))), true))
    as IH'.
  { destruct IH as [?|(r0 & ? & ?)]; [by left|right].
    exists r0. split; [by apply list_elem_of_further|done]. }
  destruct (c =? Address r)%Z eqn:Heq; [|done].
  destruct (getMetadata M x) as [MD|] eqn:HMD; [done|].
  right. exists r. apply Z.eqb_eq in Heq. split; [apply list_elem_of_here|done].
Qed.

Lemma locate_handleLoad_steps M x : rtc step M (handleLoad Relocations M x).1.
Proof.
  unfold handleLoad. destruct (constantAddress M x) as [c|] eqn:Hc; [|done].
  destruct (locate_scanRelocations_cases M x c Relocations)
    as [->|(r & Hr & -> & HMD & ->)]; [done|].
  apply rtc_once. by apply step_tag.
Qed.

Lemma locate_handleLoad_tagged M x MD :
  getMetadata M x = Some MD -> handleLoad Relocations M x = (M, false).
Proof.
  intros HMD. unfold handleLoad. destruct (constantAddress M x) as [c|]; [|done].
  destruct (locate_scanRelocations_cases M x c Relocations)
    as [->|(r & _ & _ & ? & _)]; [done|congruence].
Qed.

Lemma locate_run_steps M BB : rtc step M (runOnBasicBlock Relocations M BB).1.
Proof.
  unfold runOnBasicBlock. generalize (blockInsts M BB). intros l.
  change M with (M, false).1 at 1. generalize (M, false).
  induction l as [|y r IH]; intros st; simpl; [done|].
  eapply rtc_trans; [|apply IH].
  unfold visit. destruct (getOpcode st.1 y) as [[p| | | |]|]; try done.
  simpl. apply locate_handleLoad_steps.
Qed.

End LocatorSteps.

Lemma tagged_not_pending Relocations M x MD :
  getMetadata M x = Some MD -> ~ pending Relocations M x.
Proof. intros HMD (c & r & _ & _ & _ & Hn). congruence. Qed.

(** C6.  A tag that a read instruction carries is still there, with the
    same symbol and addend, after the locator, after the fused pass and
    after the split rewrite; handling a tagged load again, in the locator
    or in the fused pass, is a no-op. *)
Theorem tag_write_once isPCReg Relocations M BB x MD :
  getMetadata M x = Some MD ->
  getMetadata (LocateRelocationAccessesPass.runOnBasicBlock Relocations M BB).1 x
    = Some MD /\
  getMetadata
    (TranslateRelocationCallsPass.runOnBasicBlock isPCReg Relocations M BB).1 x
    = Some MD /\
  (forall M' c, AddRelocationCallsPass.runOnModule isPCReg M = Ok (M', c) ->
                getMetadata M' x = Some MD) /\
  LocateRelocationAccessesPass.handleLoad Relocations M x = (M, false) /\
  TranslateRelocationCallsPass.handleLoad isPCReg Relocations M x = (M, false).
Proof.
  intros HMD. split; [|split; [|split; [|split]]].
  - eapply grows_tagsKept; [|done].
    apply (steps_grows isPCReg Relocations), locate_run_steps.
  - eapply grows_tagsKept; [|done].
    apply (steps_grows isPCReg Relocations), runOnBasicBlock_steps.
  - intros M' c Hrun. apply visitAll_Ok in Hrun as (E & _).
    rewrite (extends_getMetadata _ _ _ E); [done|].
    unfold getMetadata in HMD. destruct (insts M !! x); [eauto|done].
  - by eapply locate_handleLoad_tagged.
  - apply handleLoad_idle. by eapply tagged_not_pending.
Qed.

Lemma tag_write_once_witness :
  let M := Scenario.block 0x4020 (Some (mkMD "printf" 0)) in
  let Relocations := [mkReloc 0x4020 "puts" 8] in
  getMetadata (LocateRelocationAccessesPass.runOnBasicBlock Relocations M 0).1 0
    = Some (mkMD "printf" 0) /\
  getMetadata
    (TranslateRelocationCallsPass.runOnBasicBlock Scenario.isPCReg Relocations M 0).1 0
    = Some (mkMD "printf" 0).
Proof.
  simpl.
  destruct (tag_write_once Scenario.isPCReg [mkReloc 0x4020 "puts" 8]
              (Scenario.block 0x4020 (Some (mkMD "printf" 0))) 0 0
              (mkMD "printf" 0) eq_refl) as (H1 & H2 & _).
  exact (conj H1 H2).
Defined.

(** * The zero-addend gate *)

Lemma prevIn_cons x z r :
  prevIn x (z :: r) =
  if decide (z = x) then None
  else match head r with
       | Some w => if decide (w = x) then Some z else prevIn x r
       | None => None
       end.
Proof. by destruct r. Qed.

Lemma head_insertBefore y c r :
  head (insertBefore y c r) =
  match head r with
  | Some w => if decide (w = y) then Some c else Some w
  | None => None
  end.
Proof. destruct r as [|w r]; simpl; [done|]. by case_decide. Qed.

Lemma prevIn_insertBefore_ne x y c b :
  x <> y -> x <> c -> prevIn x (insertBefore y c b) = prevIn x b.
Proof.
  intros Hy Hc. induction b as [|z r IH]; [done|].
  simpl insertBefore. destruct (decide (z = y)) as [->|Hz].
  - rewrite (prevIn_cons x c). change (head (y :: r)) with (Some y).
    cbv beta iota. by rewrite !decide_False by congruence.
  - rewrite !prevIn_cons. case_decide; [done|].
    rewrite head_insertBefore, IH.
    destruct r as [|w r']; [done|]. change (head (w :: r')) with (Some w).
    cbv beta iota. destruct (decide (w = y)) as [->|Hwy]; [|done].
    rewrite !decide_False by congruence.
    rewrite <- IH. simpl insertBefore. rewrite decide_True by done.
    rewrite (prevIn_cons x c). change (head (y :: r')) with (Some y).
    cbv beta iota. by rewrite !decide_False by congruence.
Qed.

Lemma createCall_getPrevNode_ne M y V x :
  x <> y -> is_Some (insts M !! x) ->
  getPrevNode (createCall M y (insertBefore y) V) x = getPrevNode M x.
Proof.
  intros Hxy [ix Hx]. unfold createCall.
  destruct (insts M !! y) as [i|] eqn:Hi; [|done].
  unfold getPrevNode.
  destruct (blocks M !! parent i) as [bl|] eqn:Hb; simpl;
    rewrite (lookup_app_l_Some _ _ _ _ Hx), Hx; simpl; [|done].
  destruct (decide (parent i = parent ix)) as [Hp|Hp].
  - rewrite <- Hp, Hb, list_lookup_insert_eq by (by eapply lookup_lt_Some).
    simpl. apply prevIn_insertBefore_ne; [done|].
    apply lookup_lt_Some in Hx. lia.
  - by rewrite list_lookup_insert_ne.
Qed.

Lemma fused_buildCall_frame M y N x i :
  x <> y -> insts M !! x = Some i ->
  insts (TranslateRelocationCallsPass.buildCall M y N) !! x = Some i /\
  getPrevNode (TranslateRelocationCallsPass.buildCall M y N) x = getPrevNode M x.
Proof.
  intros Hxy Hx. unfold TranslateRelocationCallsPass.buildCall.
  destruct (getOrInsertFunction_arenas M N TranslateRelocationCallsPass.varArgVoidFn)
    as [Hi Hb].
  destruct (getOrInsertFunction M N _) as [M1 V]. simpl in *.
  split.
  - apply (extends_lookup M1); [apply createCall_extends|congruence].
  - rewrite createCall_getPrevNode_ne; [|done|rewrite Hi; eauto].
    unfold getPrevNode. by rewrite Hi, Hb.
Qed.

Section Gate.

Variable isPCReg : Value -> bool.

Lemma nonzero_not_wanted M y val ptr Load MD :
  getOpcode M y = Some (StoreInst val ptr) -> asLoad M val = Some Load ->
  getMetadata M Load = Some MD -> mdAddend MD <> 0 ->
  forall N, ~ wants isPCReg M y N.
Proof.
  intros Ho Hl HMD Hnz N (v & p & l & Ho' & _ & Hl' & Hn & _).
  apply Hn. assert (l = Load) as -> by congruence.
  unfold AddRelocationCallsPass.getRelocName. rewrite HMD. simpl.
  by rewrite (proj2 (Z.eqb_neq _ _) Hnz).
Qed.

Lemma visitAll_gate M c l M1 c1 y val ptr Load MD :
  AddRelocationCallsPass.visitAll isPCReg (M, c) l = Ok (M1, c1) ->
  getOpcode M y = Some (StoreInst val ptr) -> asLoad M val = Some Load ->
  getMetadata M Load = Some MD -> mdAddend MD <> 0 ->
  getNextNode M1 y = getNextNode M y /\ insts M1 !! y = insts M !! y.
Proof.
  revert M c. induction l as [|z r IH]; intros M c; simpl.
  { by intros [= <- <-]. }
  destruct (AddRelocationCallsPass.visit isPCReg (M, c) z) as [[M' c']|w] eqn:Hv;
    simpl; [|done].
  intros Hr Ho Hl HMD Hnz.
  pose proof (visit_extends _ _ _ _ _ _ Hv) as E.
  assert (is_Some (insts M !! y)) as [i Hi].
  { unfold getOpcode in Ho. destruct (insts M !! y); [eauto|done]. }
  assert (getNextNode M' y = getNextNode M y) as Hstep.
  { destruct (decide (y = z)) as [->|Hyz].
    - rewrite visit_idle in Hv by (by eapply nonzero_not_wanted).
      by injection Hv as <- _.
    - eapply visit_getNextNode_ne; eauto. }
  destruct (IH M' c' Hr) as [Hn Hs].
  - by eapply extends_getOpcode.
  - by rewrite (extends_asLoad _ _ _ E).
  - rewrite (extends_getMetadata _ _ _ E); [done|by eapply asLoad_Some].
  - done.
  - split; [congruence|]. rewrite Hs, Hi. by eapply extends_lookup.
Qed.

Variable Relocations : list RelocationInfo.

Lemma steps_gate M M1 y :
  rtc (fusedStep isPCReg Relocations) M M1 ->
  forall val ptr Load MD,
    getOpcode M y = Some (StoreInst val ptr) -> asLoad M val = Some Load ->
    getMetadata M1 Load = Some MD -> mdAddend MD <> 0 ->
    getPrevNode M1 y = getPrevNode M y /\ insts M1 !! y = insts M !! y.
Proof.
  induction 1 as [M|M M' M1 Hstep Hrest IH]; [done|].
  intros val ptr Load MD Ho Hl HMD Hnz.
  pose proof (fusedStep_grows _ _ _ _ Hstep) as G.
  destruct (IH val ptr Load MD) as [Hp Hi]; try done.
  { by eapply grows_getOpcode. }
  { by eapply grows_asLoad. }
  rewrite Hp, Hi. clear IH Hp Hi.
  assert (is_Some (insts M !! y)) as [i Hy].
  { unfold getOpcode in Ho. destruct (insts M !! y); [eauto|done]. }
  destruct Hstep as [L r Hc Hr Hnone|y' v' p' L' MD' Ho' Hp' Hl' HMD' Hz].
  - assert (L <> y) as Hne.
    { intros ->. unfold constantAddress in Hc. by rewrite Ho in Hc. }
    unfold setMetadata, getPrevNode. destruct (insts M !! L); simpl; [|done].
    by rewrite list_lookup_insert_ne.
  - destruct (decide (y = y')) as [<-|Hne].
    + exfalso. assert (L' = Load) as -> by congruence.
      pose proof (steps_grows _ _ _ _ Hrest) as G'.
      apply (grows_tagsKept _ _ G), (grows_tagsKept _ _ G') in HMD'.
      congruence.
    + destruct (fused_buildCall_frame M y' (mdName MD') y i Hne Hy) as [-> ->].
      by rewrite Hy.
Qed.

End Gate.

(** C2.  A store to the program counter of a load whose tag has a nonzero
    addend gets no call: the split handler and the fused handler leave the
    module as it is; after a whole split run the instruction after the
    store is the one that was there, after a whole fused run the
    instruction before it is (the fused call goes in front of the store),
    also when the tag was attached during that run; and the store itself
    is unchanged. *)
Theorem nonzero_addend_gate isPCReg M y val ptr Load :
  getOpcode M y = Some (StoreInst val ptr) -> isPCReg ptr = true ->
  asLoad M val = Some Load ->
  (forall MD, getMetadata M Load = Some MD -> mdAddend MD <> 0 ->
     (forall c, AddRelocationCallsPass.visit isPCReg (M, c) y = Ok (M, c)) /\
     TranslateRelocationCallsPass.handlePCStore M y = (M, false) /\
     TranslateRelocationCallsPass.visitUser isPCReg M y = M /\
     (forall M1 c, AddRelocationCallsPass.runOnModule isPCReg M = Ok (M1, c) ->
        getNextNode M1 y = getNextNode M y /\ insts M1 !! y = insts M !! y)) /\
  (forall Relocations BB MD,
     let M1 :=
       (TranslateRelocationCallsPass.runOnBasicBlock isPCReg Relocations M BB).1 in
     getMetadata M1 Load = Some MD -> mdAddend MD <> 0 ->
     getPrevNode M1 y = getPrevNode M y /\ insts M1 !! y = insts M !! y).
Proof.
  intros Ho Hp Hl. split.
  - intros MD HMD Hnz.
    assert (TranslateRelocationCallsPass.handlePCStore M y = (M, false)) as Hh.
    { unfold TranslateRelocationCallsPass.handlePCStore.
      by rewrite Ho, Hl, HMD, (proj2 (Z.eqb_neq _ _) Hnz). }
    split; [|split; [done|split]].
    + intros c. apply visit_idle. by eapply nonzero_not_wanted.
    + unfold TranslateRelocationCallsPass.visitUser. by rewrite Ho, Hp, Hh.
    + intros M1 c Hrun. by eapply visitAll_gate.
  - intros Relocations BB MD M1 HMD Hnz.
    eapply (steps_gate isPCReg Relocations); eauto.
    apply runOnBasicBlock_steps.
Qed.

Lemma nonzero_addend_gate_witness :
  let M := Scenario.block 0x4020 None in
  let M1 :=
    (TranslateRelocationCallsPass.runOnBasicBlock Scenario.isPCReg
       [mkReloc 0x4020 "data_sym" 8] M 0).1 in
  getMetadata M1 0 = Some (mkMD "data_sym" 8) /\
  getPrevNode M1 1 = getPrevNode M 1 /\ insts M1 !! 1%nat = insts M !! 1%nat.
Proof.
  simpl. split; [reflexivity|].
  apply (proj2 (nonzero_addend_gate Scenario.isPCReg (Scenario.block 0x4020 None)
                  1 (VInst 0) (VGlobalVar "pc") 0 eq_refl eq_refl eq_refl)
           [mkReloc 0x4020 "data_sym" 8] 0%nat (mkMD "data_sym" 8)).
  - reflexivity.
  - discriminate.
Defined.

(** * The callee of a synthesized call *)

Section Callees.

Variable isPCReg : Value -> bool.

Lemma wants_tag M y N :
  wants isPCReg M y N ->
  exists val ptr Load MD,
    getOpcode M y = Some (StoreInst val ptr) /\ isPCReg ptr = true /\
    asLoad M val = Some Load /\ getMetadata M Load = Some MD /\
    mdAddend MD = 0 /\ N = "dl." +:+ mdName MD.
Proof.
  intros (v & p & l & Ho & Hp & Hl & Hn & ->).
  unfold AddRelocationCallsPass.getRelocName in *.
  destruct (getMetadata M l) as [MD|] eqn:HMD; [|done]. simpl in *.
  destruct (mdAddend MD =? 0)%Z eqn:Hz; [|done].
  exists v, p, l, MD. repeat split; try done. by apply Z.eqb_eq.
Qed.

Lemma outcome_new_ret M N M2 V x i :
  stubOutcome M N M2 V -> insts M !! x = None -> insts M2 !! x = Some i ->
  opcode i = ReturnInst.
Proof.
  assert (forall fs, insts M !! x = None -> insts (withBody M fs) !! x = Some i ->
                     opcode i = ReturnInst) as Hnew.
  { intros fs Hn [?|[_ Hs]]%lookup_app_Some; [congruence|].
    by apply list_elem_of_lookup_2, list_elem_of_singleton in Hs as ->. }
  destruct 1; eauto; congruence.
Qed.

Lemma visitAll_calls M c l M1 c1 x V args :
  AddRelocationCallsPass.visitAll isPCReg (M, c) l = Ok (M1, c1) ->
  insts M !! x = None -> getOpcode M1 x = Some (CallInst V args) ->
  exists y N, y ∈ l /\ wants isPCReg M y N /\ calledGlobal V = Some N /\ args = [].
Proof.
  revert M c. induction l as [|z r IH]; intros M c; simpl.
  { intros [= <- <-] Hn Ho. unfold getOpcode in Ho. by rewrite Hn in Ho. }
  destruct (AddRelocationCallsPass.visit isPCReg (M, c) z) as [[M' c']|w] eqn:Hv;
    simpl; [|done].
  intros Hr Hn Ho. pose proof (visit_extends _ _ _ _ _ _ Hv) as E.
  destruct (insts M' !! x) as [i|] eqn:Hi.
  2: { destruct (IH _ _ Hr Hi Ho) as (y & N & Hy & Hw & HV & Ha).
       exists y, N. split; [by apply list_elem_of_further|].
       split; [by apply (extends_wants _ _ _ _ _ E)|done]. }
  pose proof (visitAll_Ok _ _ _ _ _ _ Hr) as (E' & _).
  unfold getOpcode in Ho. rewrite (extends_lookup _ _ _ _ E' Hi) in Ho.
  simpl in Ho. injection Ho as Ho.
  apply visit_cases in Hv
    as [[-> _]|(N & M2 & V' & n & Hw & _ & Hout & Hnx & -> & _)]; [congruence|].
  exists z, N. split; [apply list_elem_of_here|]. split; [done|].
  apply getNextNode_Some in Hnx as (iz & bl & Hz & Hb & _).
  rewrite (createCall_eq _ _ _ _ _ _ Hz Hb) in Hi. simpl in Hi.
  apply lookup_app_Some in Hi as [Hi|[_ Hi]].
  - pose proof (outcome_new_ret _ _ _ _ _ _ Hout Hn Hi). congruence.
  - apply list_elem_of_lookup_2, list_elem_of_singleton in Hi as ->.
    simpl in Ho. injection Ho as <- <-.
    split; [by eapply calledGlobal_outcome|done].
Qed.

Variable Relocations : list RelocationInfo.

Lemma calledGlobal_getOrInsertFunction M N T :
  calledGlobal (getOrInsertFunction M N T).2 = Some N.
Proof.
  unfold getOrInsertFunction.
  destruct (getFunction (functions M) N); repeat case_decide; by subst.
Qed.

Lemma steps_calls M M1 :
  rtc (fusedStep isPCReg Relocations) M M1 ->
  forall x V args,
    insts M !! x = None -> getOpcode M1 x = Some (CallInst V args) ->
    exists y val ptr Load MD,
      getOpcode M1 y = Some (StoreInst val ptr) /\ isPCReg ptr = true /\
      asLoad M1 val = Some Load /\ getMetadata M1 Load = Some MD /\
      mdAddend MD = 0 /\ calledGlobal V = Some (mdName MD) /\ args = [].
Proof.
  induction 1 as [M|M M' M1 Hstep Hrest IH]; intros x V args Hn Ho.
  { unfold getOpcode in Ho. by rewrite Hn in Ho. }
  destruct (insts M' !! x) as [i|] eqn:Hi; [|by eapply IH].
  pose proof (steps_grows _ _ _ _ Hrest) as G'.
  pose proof (fusedStep_grows _ _ _ _ Hstep) as G.
  destruct Hstep as [L r Hc Hr Hnone|y v p L MD Hoy Hp Hl HMD Hz].
  - exfalso. unfold setMetadata in Hi. destruct (insts M !! L); [|congruence].
    simpl in Hi. apply lookup_lt_Some in Hi. rewrite length_insert in Hi.
    apply lookup_ge_None in Hn. lia.
  - exists y, v, p, L, MD.
    split; [by eapply grows_getOpcode, grows_getOpcode|].
    split; [done|]. split; [by eapply grows_asLoad, grows_asLoad|].
    split; [by eapply (grows_tagsKept _ _ G'), (grows_tagsKept _ _ G)|].
    split; [done|].
    assert (getOpcode (TranslateRelocationCallsPass.buildCall M y (mdName MD)) x
            = Some (opcode i)) as Hox by (unfold getOpcode; by rewrite Hi).
    rewrite (grows_getOpcode _ _ _ _ G' Hox) in Ho. injection Ho as Ho.
    unfold TranslateRelocationCallsPass.buildCall in Hi.
    pose proof (calledGlobal_getOrInsertFunction M (mdName MD)
                  TranslateRelocationCallsPass.varArgVoidFn) as HV.
    destruct (getOrInsertFunction_arenas M (mdName MD)
                TranslateRelocationCallsPass.varArgVoidFn) as [Hins _].
    destruct (getOrInsertFunction M (mdName MD) _) as [M0 V0]. simpl in *.
    unfold createCall in Hi.
    assert (is_Some (insts M0 !! y)) as [iy Hy].
    { rewrite Hins. unfold getOpcode in Hoy. destruct (insts M !! y); [eauto|done]. }
    rewrite Hy in Hi.
    assert ((insts M0 ++ [mkInst (CallInst V0 []) (parent iy) None]) !! x = Some i)
      as Hi'.
    { by destruct (blocks M0 !! parent iy). }
    rewrite Hins in Hi'. apply lookup_app_Some in Hi' as [?|[_ Hi']]; [congruence|].
    apply list_elem_of_lookup_2, list_elem_of_singleton in Hi' as ->.
    simpl in Ho. by injection Ho as <- <-.
Qed.

End Callees.

(** C3 (as amended).  A call made by the split rewrite has no arguments
    and calls the global named ["dl." + symbolName] of the tag (with zero
    addend) on the load that a program-counter store stores; a call made by
    the fused pass calls the global named by the tag's [symbolName] itself,
    without the prefix. *)
Theorem synthesized_call_targets isPCReg M :
  (forall M1 c x V args,
     AddRelocationCallsPass.runOnModule isPCReg M = Ok (M1, c) ->
     insts M !! x = None -> getOpcode M1 x = Some (CallInst V args) ->
     exists y val ptr Load MD,
       getOpcode M y = Some (StoreInst val ptr) /\ isPCReg ptr = true /\
       asLoad M val = Some Load /\ getMetadata M Load = Some MD /\
       mdAddend MD = 0 /\
       calledGlobal V = Some ("dl." +:+ mdName MD) /\ args = []) /\
  (forall Relocations BB x V args,
     let M1 :=
       (TranslateRelocationCallsPass.runOnBasicBlock isPCReg Relocations M BB).1 in
     insts M !! x = None -> getOpcode M1 x = Some (CallInst V args) ->
     exists y val ptr Load MD,
       getOpcode M1 y = Some (StoreInst val ptr) /\ isPCReg ptr = true /\
       asLoad M1 val = Some Load /\ getMetadata M1 Load = Some MD /\
       mdAddend MD = 0 /\
       calledGlobal V = Some (mdName MD) /\ args = []).
Proof.
  split.
  - intros M1 c x V args Hrun Hn Ho.
    destruct (visitAll_calls _ _ _ _ _ _ _ _ _ Hrun Hn Ho)
      as (y & N & _ & Hw & HV & ->).
    apply wants_tag in Hw as (v & p & l & MD & Hoy & Hp & Hl & HMD & Hz & ->).
    by exists y, v, p, l, MD.
  - intros Relocations BB x V args M1 Hn Ho.
    eapply (steps_calls isPCReg Relocations); eauto.
    apply runOnBasicBlock_steps.
Qed.

(** C3 as stated fails for the fused pass: on the scenario block it calls
    [printf], not [dl.printf], and no function [dl.printf] exists. *)
Lemma fused_call_targets_bare_symbol :
  let M1 :=
    (TranslateRelocationCallsPass.runOnBasicBlock Scenario.isPCReg
       Scenario.printfRelocs (Scenario.block 0x4020 None) 0).1 in
  getMetadata M1 0 = Some (mkMD "printf" 0) /\
  blockInsts M1 0 = [0; 3; 1; 2]%nat /\
  getOpcode M1 3 = Some (CallInst (VFunction "printf") []) /\
  VFunction "printf" <> VFunction ("dl." +:+ "printf") /\
  getFunction (functions M1) "dl.printf" = None /\
  getFunction (functions M1) "printf"
    = Some (mkFn "printf" TranslateRelocationCallsPass.varArgVoidFn []).
Proof. by vm_compute. Qed.

Lemma synthesized_call_targets_witness :
  let M := Scenario.block 0x4020 (Some (mkMD "printf" 0)) in
  exists y val ptr Load MD,
    getOpcode M y = Some (StoreInst val ptr) /\ Scenario.isPCReg ptr = true /\
    asLoad M val = Some Load /\ getMetadata M Load = Some MD /\
    mdAddend MD = 0 /\
    calledGlobal (VFunction "dl.printf") = Some ("dl." +:+ mdName MD) /\
    @nil Value = [].
Proof.
  cbv zeta.
  apply (proj1 (synthesized_call_targets Scenario.isPCReg
                  (Scenario.block 0x4020 (Some (mkMD "printf" 0))))
           (match AddRelocationCallsPass.runOnModule Scenario.isPCReg
                    (Scenario.block 0x4020 (Some (mkMD "printf" 0))) with
            | Ok st => st.1
            | Abort _ => Scenario.block 0x4020 None
            end) true 4%nat (VFunction "dl.printf") []).
  - vm_compute. reflexivity.
  - reflexivity.
  - vm_compute. reflexivity.
Defined.

(** * The stub of two stores *)














Section StubOfStores.

Import AddRelocationCallsPass.

Variable isPCReg : Value -> bool.






End StubOfStores.





(** The two stores of [Scenario.double] get their calls from one run, and
    the module ends up with the single function [dl.printf]. *)
Example two_stores_one_stub :
  exists M1,
    AddRelocationCallsPass.runOnModule Scenario.isPCReg Scenario.double
      = Ok (M1, true) /\
    blockInsts M1 0 = [0; 1; 5; 2; 6; 3]%nat /\
    getOpcode M1 5 = Some (CallInst (VFunction "dl.printf") []) /\
    getOpcode M1 6 = Some (CallInst (VFunction "dl.printf") []) /\
    functions M1
      = [Scenario.root; mkFn "dl.printf" AddRelocationCallsPass.voidFn [1%nat]] /\
    blockInsts M1 1 = [4%nat] /\ getOpcode M1 4 = Some ReturnInst.
Proof. eexists. by vm_compute. Qed.

(** * Further properties of the split rewrite *)

Section SplitMore.

Import AddRelocationCallsPass.

Variable isPCReg : Value -> bool.

(** The flag and the module move together: a step that leaves the flag
    alone leaves the module alone, and a step that changes the module sets
    the flag. *)
Lemma visitAll_flag M c l M1 c1 :
  visitAll isPCReg (M, c) l = Ok (M1, c1) ->
  (M1 = M /\ c1 = c) \/ (c1 = true /\ (length (insts M) < length (insts M1))%nat).
Proof.
  revert M c. induction l as [|y r IH]; intros M c; simpl.
  { intros [= <- <-]. by left. }
  destruct (visit isPCReg (M, c) y) as [[M' c']|w] eqn:Hv; simpl; [|done].
  intros Hr. destruct (IH _ _ Hr) as [[-> ->]|[-> Hlen]].
  - apply visit_cases in Hv
      as [[-> ->]|(N & M2 & V & n & _ & _ & Hout & Hn & -> & ->)]; [by left|].
    right. split; [done|].
    pose proof (extends_length _ _ (outcome_extends Hout)).
    apply getNextNode_Some in Hn as (i & bl & Hi & Hb & _).
    rewrite (createCall_eq _ _ _ _ _ _ Hi Hb). simpl. rewrite length_app. simpl. lia.
  - right. split; [done|].
    pose proof (extends_length _ _ (visit_extends _ _ _ _ _ _ Hv)). lia.
Qed.

Lemma filter_old_insertAfter n y c bl :
  (n <= c)%nat ->
  filter (fun x => (x < n)%nat) (insertAfter y c bl)
  = filter (fun x => (x < n)%nat) bl.
Proof.
  intros Hc. induction bl as [|z r IH]; simpl; [done|].
  case_decide; subst.
  - rewrite !filter_cons. rewrite (decide_False (P := (c < n)%nat)) by lia. done.
  - rewrite !filter_cons, IH. done.
Qed.

Lemma createCall_old_block M y V n b :
  (n <= length (insts M))%nat ->
  filter (fun x => (x < n)%nat) (blockInsts (createCall M y (insertAfter y) V) b)
  = filter (fun x => (x < n)%nat) (blockInsts M b).
Proof.
  intros Hn. unfold createCall.
  destruct (insts M !! y) as [i|]; [|done].
  destruct (blocks M !! parent i) as [bl|] eqn:Hb; [|done].
  unfold blockInsts. simpl.
  destruct (decide (parent i = b)) as [<-|Hne].
  - rewrite list_lookup_insert_eq by (by eapply lookup_lt_Some).
    rewrite Hb. simpl. by apply filter_old_insertAfter.
  - by rewrite list_lookup_insert_ne.
Qed.

Lemma withBody_old_block M fs n b :
  (n <= length (insts M))%nat ->
  filter (fun x => (x < n)%nat) (blockInsts (withBody M fs) b)
  = filter (fun x => (x < n)%nat) (blockInsts M b).
Proof.
  intros Hn. unfold blockInsts. simpl.
  destruct (blocks M !! b) as [bl|] eqn:Hb.
  - by rewrite (lookup_app_l_Some _ _ _ _ Hb).
  - rewrite lookup_app_r by (by apply lookup_ge_None).
    destruct (b - length (blocks M))%nat as [|k]; simpl; [|done].
    rewrite filter_cons. by rewrite decide_False by lia.
Qed.

Lemma visit_old_block M c y M' c' n b :
  visit isPCReg (M, c) y = Ok (M', c') -> (n <= length (insts M))%nat ->
  filter (fun x => (x < n)%nat) (blockInsts M' b)
  = filter (fun x => (x < n)%nat) (blockInsts M b).
Proof.
  intros [[-> _]|(N & M2 & V & nx & _ & _ & Hout & _ & -> & _)]%visit_cases Hn;
    [done|].
  pose proof (extends_length _ _ (outcome_extends Hout)).
  rewrite createCall_old_block by lia.
  destruct Hout; try done; by apply withBody_old_block.
Qed.

Lemma visit_symbols M c y M' c' :
  visit isPCReg (M, c) y = Ok (M', c') ->
  globalVars M' = globalVars M /\ linkerOptions M' = linkerOptions M /\
  (NoDup (fname <$> functions M) -> NoDup (fname <$> functions M')) /\
  (forall N f, getFunction (functions M) N = Some f ->
     exists f', getFunction (functions M') N = Some f' /\ ftype f' = ftype f /\
                (fblocks f <> [] -> fblocks f' = fblocks f)).
Proof.
  intros [[-> _]|(N & M2 & V & nx & _ & _ & Hout & _ & -> & _)]%visit_cases.
  { repeat split; try done. intros N f Hf. by exists f. }
  destruct (createCall_symbols M2 y (insertAfter y) V) as [-> ->].
  unfold createCall. assert (linkerOptions
    (match insts M2 !! y with
     | Some i =>
         match blocks M2 !! parent i with
         | Some b =>
             setBlocks
               (setInsts M2 (insts M2 ++ [mkInst (CallInst V []) (parent i) None]))
               (<[parent i := insertAfter y (length (insts M2)) b]> (blocks M2))
         | None =>
             setInsts M2 (insts M2 ++ [mkInst (CallInst V []) (parent i) None])
         end
     | None => M2
     end) = linkerOptions M2) as ->.
  { destruct (insts M2 !! y) as [i|]; [|done]. by destruct (blocks M2 !! parent i). }
  split; [by eapply outcome_globalVars|]. split; [by eapply outcome_linkerOptions|].
  inversion Hout as [f Hg Ht Hb|f Hg Ht|Hg Hin|f Hg Ht Hb|Hg Hin]; subst;
    try (split; [done|]; intros N' f' Hf'; by exists f').
  - simpl. split; [by rewrite setBody_names|].
    intros N' f' Hf'. rewrite getFunction_setBody, Hf'. simpl.
    eexists. split; [done|]. case_decide as HN; [|done]. simpl. split; [done|].
    intros Hne. pose proof (getFunction_Some _ _ _ Hf') as [_ Hname].
    assert (N' = N) as -> by congruence. congruence.
  - simpl. split.
    + rewrite fmap_app. intros Hnd. apply NoDup_app. split; [done|].
      split; [|apply NoDup_singleton].
      intros x Hx [= ->]%list_elem_of_singleton. by apply getFunction_None in Hg.
    + intros N' f' Hf'. rewrite getFunction_app, Hf'. by exists f'.
Qed.

End SplitMore.

Section SplitWalkMore.

Import AddRelocationCallsPass.

Variable isPCReg : Value -> bool.

Lemma visitAll_old_block M c l M1 c1 n b :
  visitAll isPCReg (M, c) l = Ok (M1, c1) -> (n <= length (insts M))%nat ->
  filter (fun x => (x < n)%nat) (blockInsts M1 b)
  = filter (fun x => (x < n)%nat) (blockInsts M b).
Proof.
  revert M c. induction l as [|y r IH]; intros M c; simpl.
  { by intros [= <- <-]. }
  destruct (visit isPCReg (M, c) y) as [[M' c']|w] eqn:Hv; simpl; [|done].
  intros Hr Hn.
  pose proof (extends_length _ _ (visit_extends _ _ _ _ _ _ Hv)).
  rewrite (IH _ _ Hr) by lia. by eapply visit_old_block.
Qed.

Lemma visitAll_symbols M c l M1 c1 :
  visitAll isPCReg (M, c) l = Ok (M1, c1) ->
  globalVars M1 = globalVars M /\ linkerOptions M1 = linkerOptions M /\
  (NoDup (fname <$> functions M) -> NoDup (fname <$> functions M1)) /\
  (forall N f, getFunction (functions M) N = Some f ->
     exists f', getFunction (functions M1) N = Some f' /\ ftype f' = ftype f /\
                (fblocks f <> [] -> fblocks f' = fblocks f)).
Proof.
  revert M c. induction l as [|y r IH]; intros M c; simpl.
  { intros [= <- <-]. repeat split; try done. intros N f Hf. by exists f. }
  destruct (visit isPCReg (M, c) y) as [[M' c']|w] eqn:Hv; simpl; [|done].
  intros Hr. destruct (visit_symbols _ _ _ _ _ _ Hv) as (Hg & Hl & Hnd & Hf).
  destruct (IH _ _ Hr) as (Hg' & Hl' & Hnd' & Hf').
  split; [congruence|]. split; [congruence|]. split; [auto|].
  intros N f HN. destruct (Hf _ _ HN) as (f1 & H1 & Ht1 & Hb1).
  destruct (Hf' _ _ H1) as (f2 & H2 & Ht2 & Hb2).
  exists f2. split; [done|]. split; [congruence|].
  intros Hne. rewrite Hb2; [by apply Hb1|]. rewrite Hb1; done.
Qed.

Lemma ready_defined M N :
  getOrCreate M N = (M, VFunction N) ->
  exists f, getFunction (functions M) N = Some f /\ ftype f = voidFn /\ fblocks f <> [].
Proof.
  intros Hready. destruct (decide (N = EmptyString)) as [->|HN].
  { by rewrite getOrCreate_unnamed in Hready. }
  pose proof (getOrCreate_outcome M N HN) as Hout.
  rewrite Hready in Hout. simpl in Hout.
  inversion Hout as [f Hg Ht Hb|f Hg Ht|Hg Hin|f Hg Ht Hb HM|Hg Hin HM].
  - by exists f.
  - by apply withBody_neq in HM.
  - by apply withBody_neq in HM.
Qed.

Lemma visitAll_calls_ready M c l M1 c1 x V args :
  visitAll isPCReg (M, c) l = Ok (M1, c1) ->
  insts M !! x = None -> getOpcode M1 x = Some (CallInst V args) ->
  exists N, calledGlobal V = Some N /\ getOrCreate M1 N = (M1, V).
Proof.
  revert M c. induction l as [|z r IH]; intros M c; simpl.
  { intros [= <- <-] Hn Ho. unfold getOpcode in Ho. by rewrite Hn in Ho. }
  destruct (visit isPCReg (M, c) z) as [[M' c']|w] eqn:Hv; simpl; [|done].
  intros Hr Hn Ho. destruct (insts M' !! x) as [i|] eqn:Hi; [|by eapply IH].
  pose proof (visitAll_Ok _ _ _ _ _ _ Hr) as (E' & _).
  unfold getOpcode in Ho. rewrite (extends_lookup _ _ _ _ E' Hi) in Ho.
  simpl in Ho. injection Ho as Ho.
  apply visit_cases in Hv
    as [[-> _]|(N & M2 & V' & n & Hw & _ & Hout & Hnx & -> & _)]; [congruence|].
  exists N.
  pose proof Hnx as (iz & bl & Hz & Hb & _)%getNextNode_Some.
  rewrite (createCall_eq _ _ _ _ _ _ Hz Hb) in Hi. simpl in Hi.
  apply lookup_app_Some in Hi as [Hi|[_ Hi]].
  - pose proof (outcome_new_ret _ _ _ _ _ _ Hout Hn Hi). congruence.
  - apply list_elem_of_lookup_2, list_elem_of_singleton in Hi as ->.
    simpl in Ho. injection Ho as <- <-.
    split; [by eapply calledGlobal_outcome|].
    pose proof (wants_nonempty _ _ _ _ Hw) as HN.
    eapply visitAll_ready; [done|done|].
    apply createCall_ready; [done|]. by eapply outcome_ready.
Qed.

End SplitWalkMore.

(** X1.  On a module where nothing stands in the way of the stubs, a
    successful run leaves every store of the module that called for a call
    (a program-counter store of a load tagged with a zero addend and a
    name) immediately followed by a direct call to its [dl.]-function. *)
Theorem split_rewrite_links_calls isPCReg M M1 c :
  stubCompatible M ->
  AddRelocationCallsPass.runOnModule isPCReg M = Ok (M1, c) ->
  forall y N, y ∈ moduleInsts M -> wants isPCReg M y N ->
    wants isPCReg M1 y N /\
    exists nx args,
      getNextNode M1 y = Some nx /\
      getOpcode M1 nx = Some (CallInst (VFunction N) args).
Proof.
  intros HM Hrun y N Hy Hw.
  destruct (visitAll_Ok _ _ _ _ _ _ Hrun) as (E & _ & _ & Hcompat).
  destruct (Hcompat HM) as [_ Hsettled].
  assert (wants isPCReg M1 y N) as Hw1 by (by apply (extends_wants _ _ _ _ _ E)).
  split; [done|].
  apply (succeededByCall_true _ _ _ (wants_nonempty _ _ _ _ Hw)). by apply Hsettled.
Qed.

Lemma split_rewrite_links_calls_witness :
  exists M1 nx args,
    AddRelocationCallsPass.runOnModule Scenario.isPCReg
      (Scenario.block 0x4020 (Some (mkMD "printf" 0))) = Ok (M1, true) /\
    getNextNode M1 1 = Some nx /\
    getOpcode M1 nx = Some (CallInst (VFunction "dl.printf") args).
Proof.
  destruct (AddRelocationCallsPass.runOnModule Scenario.isPCReg
              (Scenario.block 0x4020 (Some (mkMD "printf" 0))))
    as [[M1 c]|w] eqn:Hrun; [|by vm_compute in Hrun].
  destruct (split_rewrite_links_calls Scenario.isPCReg _ _ _
              (stubCompatible_block _ _) Hrun 1%nat "dl.printf")
    as (_ & nx & args & Hn & Ho).
  - by apply list_elem_of_further, list_elem_of_here.
  - exists (VInst 0), (VGlobalVar "pc"), 0%nat. by vm_compute.
  - exists M1, nx, args. split; [|done].
    vm_compute in Hrun. by injection Hrun as <- <-.
Defined.

(** X2.  The value that [runOnModule] returns tells whether the module
    was changed: [false] exactly when the module comes back as it was. *)
Theorem split_rewrite_flag isPCReg M M1 c :
  AddRelocationCallsPass.runOnModule isPCReg M = Ok (M1, c) ->
  (c = false <-> M1 = M).
Proof.
  intros [[-> ->]|[-> Hlen]]%visitAll_flag; [done|].
  split; [done|]. intros ->. lia.
Qed.

Lemma split_rewrite_flag_witness :
  false = false <-> Scenario.block 0x5000 None = Scenario.block 0x5000 None.
Proof.
  apply (split_rewrite_flag Scenario.isPCReg (Scenario.block 0x5000 None)).
  reflexivity.
Defined.

(** X3.  The split rewrite only adds: every instruction of the module is
    still there as it was (opcode, operands, block, tag), in every block the
    instructions that were there are still there in the same order, every
    added instruction is a [ret void] or a call without arguments and
    carries no tag, and the global variables and the module-level metadata
    are untouched. *)
Theorem split_rewrite_only_adds isPCReg M M1 c :
  AddRelocationCallsPass.runOnModule isPCReg M = Ok (M1, c) ->
  (forall x i, insts M !! x = Some i -> insts M1 !! x = Some i) /\
  (forall b,
     filter (fun x => (x < length (insts M))%nat) (blockInsts M1 b)
     = filter (fun x => (x < length (insts M))%nat) (blockInsts M b)) /\
  (forall x i, insts M !! x = None -> insts M1 !! x = Some i ->
     (opcode i = ReturnInst \/ exists V, opcode i = CallInst V []) /\
     reloc i = None) /\
  globalVars M1 = globalVars M /\ linkerOptions M1 = linkerOptions M.
Proof.
  intros Hrun. destruct (visitAll_Ok _ _ _ _ _ _ Hrun) as (E & _).
  destruct (visitAll_symbols _ _ _ _ _ _ Hrun) as (Hg & Hl & _).
  split; [intros x i; by apply extends_lookup|].
  split; [intros b; by eapply visitAll_old_block|].
  split; [|done]. intros x i Hn Hs. split; [by eapply extends_new|].
  pose proof (visitAll_getMetadata _ _ _ _ _ _ x Hrun) as Hmd.
  unfold getMetadata in Hmd. by rewrite Hn, Hs in Hmd.
Qed.

Lemma split_rewrite_only_adds_witness :
  exists M1,
    AddRelocationCallsPass.runOnModule Scenario.isPCReg Scenario.double
      = Ok (M1, true) /\
    filter (fun x => (x < 4)%nat) (blockInsts M1 0) = [0; 1; 2; 3]%nat /\
    forall i, insts M1 !! 5%nat = Some i ->
      (opcode i = ReturnInst \/ exists V, opcode i = CallInst V []) /\
      reloc i = None.
Proof.
  destruct (AddRelocationCallsPass.runOnModule Scenario.isPCReg Scenario.double)
    as [[M1 c]|w] eqn:Hrun; [|by vm_compute in Hrun].
  destruct (split_rewrite_only_adds Scenario.isPCReg _ _ _ Hrun)
    as (_ & Hb & Hnew & _).
  exists M1. split; [vm_compute in Hrun; by injection Hrun as <- <-|].
  split; [exact (Hb 0%nat)|]. intros i. by apply Hnew.
Defined.

(** X4.  The split rewrite keeps the symbol table sound: function names
    that were distinct stay distinct, and every function that was there is
    still found under its name with its type, and with its blocks if it
    had any. *)
Theorem split_rewrite_symbol_table isPCReg M M1 c :
  AddRelocationCallsPass.runOnModule isPCReg M = Ok (M1, c) ->
  (NoDup (fname <$> functions M) -> NoDup (fname <$> functions M1)) /\
  (forall N f, getFunction (functions M) N = Some f ->
     exists f', getFunction (functions M1) N = Some f' /\ ftype f' = ftype f /\
                (fblocks f <> [] -> fblocks f' = fblocks f)).
Proof.
  intros Hrun. by destruct (visitAll_symbols _ _ _ _ _ _ Hrun) as (_ & _ & ? & ?).
Qed.

Lemma split_rewrite_symbol_table_witness :
  exists M1,
    AddRelocationCallsPass.runOnModule Scenario.isPCReg Scenario.double
      = Ok (M1, true) /\
    NoDup (fname <$> functions M1).
Proof.
  destruct (AddRelocationCallsPass.runOnModule Scenario.isPCReg Scenario.double)
    as [[M1 c]|w] eqn:Hrun; [|by vm_compute in Hrun].
  destruct (split_rewrite_symbol_table Scenario.isPCReg _ _ _ Hrun) as (Hnd & _).
  exists M1. split; [vm_compute in Hrun; by injection Hrun as <- <-|].
  apply Hnd. apply NoDup_singleton.
Defined.

(** X5.  A direct call that the split rewrite has made calls a function
    that the module defines: it is found under its name, has the type
    [void ()] and has a body. *)
Theorem split_rewrite_callee_defined isPCReg M M1 c x N args :
  AddRelocationCallsPass.runOnModule isPCReg M = Ok (M1, c) ->
  insts M !! x = None -> getOpcode M1 x = Some (CallInst (VFunction N) args) ->
  exists f, getFunction (functions M1) N = Some f /\
            ftype f = AddRelocationCallsPass.voidFn /\ fblocks f <> [].
Proof.
  intros Hrun Hn Ho.
  destruct (visitAll_calls_ready _ _ _ _ _ _ _ _ _ Hrun Hn Ho) as (N' & HN & Hready).
  injection HN as <-. by apply ready_defined.
Qed.

Lemma split_rewrite_callee_defined_witness :
  exists M1 f,
    AddRelocationCallsPass.runOnModule Scenario.isPCReg Scenario.double
      = Ok (M1, true) /\
    getFunction (functions M1) "dl.printf" = Some f /\
    ftype f = AddRelocationCallsPass.voidFn /\ fblocks f <> [].
Proof.
  destruct (AddRelocationCallsPass.runOnModule Scenario.isPCReg Scenario.double)
    as [[M1 c]|w] eqn:Hrun; [|by vm_compute in Hrun].
  destruct (split_rewrite_callee_defined Scenario.isPCReg _ _ _ 5%nat "dl.printf" []
              Hrun eq_refl) as (f & Hf).
  - vm_compute in Hrun. by injection Hrun as <- <-.
  - exists M1, f. split; [vm_compute in Hrun; by injection Hrun as <- <-|done].
Defined.

(** * The locator *)

Section LocatorMore.

Import LocateRelocationAccessesPass.

Variable Relocations : list RelocationInfo.

Lemma locate_scan_spec M x c rs :
  scanRelocations M x c rs =
  match getMetadata M x, firstMatch rs c with
  | None, Some r => (setMetadata M x (mkMD (Name r) (int64 (Addend r))), true)
  | _, _ => (M, false)
  end.
Proof.
  unfold firstMatch. induction rs as [|r rest IH]; simpl.
  { by destruct (getMetadata M x). }
  destruct (c =? Address r)%Z; [|done].
  destruct (getMetadata M x); [|done]. rewrite IH. done.
Qed.

Lemma firstMatch_Some rs c r :
  firstMatch rs c = Some r -> r ∈ rs /\ c = Address r.
Proof.
  unfold firstMatch. intros [Hin Heq]%find_some.
  split; [by apply list_elem_of_In|by apply Z.eqb_eq].
Qed.

Lemma firstMatch_None rs c :
  firstMatch rs c = None <-> forall r, r ∈ rs -> c <> Address r.
Proof.
  unfold firstMatch. split.
  - intros Hnone r Hr%list_elem_of_In.
    apply Z.eqb_neq. eapply find_none in Hnone; eauto.
  - intros Hno. destruct (List.find _ rs) as [r|] eqn:Hf; [|done].
    apply find_some in Hf as [Hin Heq%Z.eqb_eq].
    apply list_elem_of_In in Hin. by destruct (Hno r Hin).
Qed.

(** A load is pending exactly when it has no tag yet and is due one. *)
Lemma pending_tagFor M x :
  pending Relocations M x <->
  getMetadata M x = None /\ is_Some (tagFor Relocations M x).
Proof.
  unfold tagFor. split.
  - intros (c & r & Hc & Hr & -> & HMD). split; [done|].
    rewrite HMD, Hc. simpl.
    destruct (firstMatch Relocations (Address r)) as [r'|] eqn:Hf; [by eexists|].
    by destruct (proj1 (firstMatch_None _ _) Hf r Hr).
  - intros [HMD [md Hmd]]. rewrite HMD in Hmd.
    destruct (constantAddress M x) as [c|] eqn:Hc; [|done]. simpl in Hmd.
    destruct (firstMatch Relocations c) as [r|] eqn:Hf; [|done].
    apply firstMatch_Some in Hf as [Hr ->]. by exists (Address r), r.
Qed.

Lemma setMetadata_frame M x MD :
  blocks (setMetadata M x MD) = blocks M /\
  functions (setMetadata M x MD) = functions M /\
  globalVars (setMetadata M x MD) = globalVars M /\
  linkerOptions (setMetadata M x MD) = linkerOptions M /\
  (fun i => (opcode i, parent i)) <$> insts (setMetadata M x MD)
  = (fun i => (opcode i, parent i)) <$> insts M.
Proof.
  unfold setMetadata. destruct (insts M !! x) as [i|] eqn:Hi; [|done].
  repeat split. simpl. rewrite list_fmap_insert. simpl.
  apply list_insert_id. by rewrite list_lookup_fmap, Hi.
Qed.

Lemma getMetadata_setMetadata_ne M x MD y :
  x <> y -> getMetadata (setMetadata M x MD) y = getMetadata M y.
Proof.
  intros Hne. unfold setMetadata, getMetadata.
  destruct (insts M !! x); [|done]. simpl. by rewrite list_lookup_insert_ne.
Qed.

Lemma getOpcode_setMetadata M x MD y :
  getOpcode (setMetadata M x MD) y = getOpcode M y.
Proof.
  destruct (setMetadata_frame M x MD) as (_ & _ & _ & _ & Hf).
  unfold getOpcode. apply (f_equal (fun l => fst <$> l !! y)) in Hf.
  rewrite !list_lookup_fmap in Hf.
  destruct (insts (setMetadata M x MD) !! y), (insts M !! y); simpl in *; congruence.
Qed.

(** What one visit of the locator does: the flag is raised and the visited
    instruction tagged if it was pending, and nothing happens otherwise. *)
Lemma locate_visit_spec M b y :
  visit Relocations (M, b) y =
  match getMetadata M y, tagFor Relocations M y with
  | None, Some MD => (setMetadata M y MD, true)
  | _, _ => (M, b)
  end.
Proof.
  unfold visit, handleLoad, tagFor, constantAddress. simpl.
  destruct (getOpcode M y) as [[p| | | |]|] eqn:Ho;
    try (by destruct (getMetadata M y)).
  destruct p as [| |[] [| c | | | | |]| | | |];
    try (simpl; rewrite ?orb_false_r; by destruct (getMetadata M y)).
  rewrite locate_scan_spec. simpl.
  destruct (getMetadata M y); simpl; [by rewrite orb_false_r|].
  destruct (firstMatch Relocations c); simpl; [by rewrite orb_true_r|].
  by rewrite orb_false_r.
Qed.

Lemma locate_visit_frame st y :
  blocks (visit Relocations st y).1 = blocks st.1 /\
  functions (visit Relocations st y).1 = functions st.1 /\
  globalVars (visit Relocations st y).1 = globalVars st.1 /\
  linkerOptions (visit Relocations st y).1 = linkerOptions st.1 /\
  (fun i => (opcode i, parent i)) <$> insts (visit Relocations st y).1
  = (fun i => (opcode i, parent i)) <$> insts st.1.
Proof.
  destruct st as [M b]. rewrite locate_visit_spec. simpl.
  destruct (getMetadata M y); [done|].
  destruct (tagFor Relocations M y); [|done]. apply setMetadata_frame.
Qed.

Lemma tagFor_is_Some_valid M y MD :
  getMetadata M y = None -> tagFor Relocations M y = Some MD ->
  is_Some (insts M !! y).
Proof.
  unfold tagFor. intros -> H.
  destruct (constantAddress M y) as [c|] eqn:Hc; [|done].
  by eapply constantAddress_is_Some.
Qed.

Lemma locate_visit_metadata st y x :
  getMetadata (visit Relocations st y).1 x =
  if decide (x = y) then tagFor Relocations st.1 y else getMetadata st.1 x.
Proof.
  destruct st as [M b]. rewrite locate_visit_spec. simpl.
  destruct (getMetadata M y) as [MD|] eqn:HMD; simpl.
  { case_decide; [subst|done]. unfold tagFor. by rewrite HMD. }
  destruct (tagFor Relocations M y) as [MD|] eqn:Ht; simpl.
  - case_decide; [subst|by rewrite getMetadata_setMetadata_ne].
    apply getMetadata_setMetadata. by eapply tagFor_is_Some_valid.
  - case_decide; [by subst|done].
Qed.

Lemma locate_visit_tagFor st y x :
  tagFor Relocations (visit Relocations st y).1 x = tagFor Relocations st.1 x.
Proof.
  unfold tagFor at 1. rewrite locate_visit_metadata.
  assert (constantAddress (visit Relocations st y).1 x = constantAddress st.1 x) as ->.
  { unfold constantAddress. destruct st as [M b]. rewrite locate_visit_spec. simpl.
    destruct (getMetadata M y); [done|].
    destruct (tagFor Relocations M y); [|done]. simpl.
    by rewrite getOpcode_setMetadata. }
  case_decide as Hxy; [subst x|done].
  destruct (tagFor Relocations st.1 y) as [MD|] eqn:Ht; [done|].
  unfold tagFor in Ht. by destruct (getMetadata st.1 y).
Qed.

Lemma locate_foldl_metadata st l x :
  getMetadata (foldl (visit Relocations) st l).1 x =
  if decide (x ∈ l) then tagFor Relocations st.1 x else getMetadata st.1 x.
Proof.
  revert st. induction l as [|y r IH]; intros st; cbn [foldl].
  { by rewrite decide_False by apply not_elem_of_nil. }
  rewrite IH, locate_visit_tagFor, locate_visit_metadata.
  destruct (decide (x ∈ r)) as [Hr|Hr].
  - by rewrite decide_True by (by apply list_elem_of_further).
  - destruct (decide (x = y)) as [->|Hxy].
    + by rewrite decide_True by apply list_elem_of_here.
    + rewrite decide_False; [done|]. rewrite elem_of_cons. tauto.
Qed.

Lemma locate_foldl_frame st l :
  blocks (foldl (visit Relocations) st l).1 = blocks st.1 /\
  functions (foldl (visit Relocations) st l).1 = functions st.1 /\
  globalVars (foldl (visit Relocations) st l).1 = globalVars st.1 /\
  linkerOptions (foldl (visit Relocations) st l).1 = linkerOptions st.1 /\
  (fun i => (opcode i, parent i)) <$> insts (foldl (visit Relocations) st l).1
  = (fun i => (opcode i, parent i)) <$> insts st.1.
Proof.
  revert st. induction l as [|y r IH]; intros st; simpl; [done|].
  destruct (IH (visit Relocations st y)) as (-> & -> & -> & -> & ->).
  apply locate_visit_frame.
Qed.

(** The flag after a walk, and whether the module has changed. *)
Lemma locate_foldl_flag M b l :
  let st := foldl (visit Relocations) (M, b) l in
  (st.2 = true <-> b = true \/ exists x, x ∈ l /\ pending Relocations M x) /\
  ((forall x, x ∈ l -> ~ pending Relocations M x) -> st = (M, b)).
Proof.
  revert M b. induction l as [|y r IH]; intros M b; simpl.
  { split; [|done]. split; [by left|]. intros [?|(x & Hx & _)]; [done|].
    by apply not_elem_of_nil in Hx. }
  rewrite locate_visit_spec.
  destruct (getMetadata M y) as [MD|] eqn:HMD.
  { destruct (IH M b) as [Hflag Hsame]. split.
    - rewrite Hflag. split; (intros [?|(x & Hx & Hp)]; [by left|right]).
      + exists x. split; [by apply list_elem_of_further|done].
      + apply elem_of_cons in Hx as [->|Hx]; [|by exists x].
        apply pending_tagFor in Hp as [? _]. congruence.
    - intros Hno. apply Hsame. intros x Hx. by apply Hno, list_elem_of_further. }
  destruct (tagFor Relocations M y) as [MD|] eqn:Ht.
  - assert (pending Relocations M y) as Hp by (apply pending_tagFor; eauto).
    destruct (IH (setMetadata M y MD) true) as [Hflag _]. split.
    + split; [intros _; right; exists y; split; [apply list_elem_of_here|done]|].
      intros _. apply Hflag. by left.
    + intros Hno. destruct (Hno y (list_elem_of_here _ _) Hp).
  - destruct (IH M b) as [Hflag Hsame]. split.
    + rewrite Hflag. split; (intros [?|(x & Hx & Hp)]; [by left|right]).
      * exists x. split; [by apply list_elem_of_further|done].
      * apply elem_of_cons in Hx as [->|Hx]; [|by exists x].
        apply pending_tagFor in Hp as [_ [? ?]]. congruence.
    + intros Hno. apply Hsame. intros x Hx. by apply Hno, list_elem_of_further.
Qed.

End LocatorMore.

Lemma locate_foldl_tagFor Relocations st l x :
  tagFor Relocations (foldl (LocateRelocationAccessesPass.visit Relocations) st l).1 x
  = tagFor Relocations st.1 x.
Proof.
  revert st. induction l as [|y r IH]; intros st; simpl; [done|].
  by rewrite IH, locate_visit_tagFor.
Qed.

(** X6.  What the locator leaves on every instruction: outside the block
    the tag is what it was; in the block a tag that was there stays, and an
    untagged load of a constant address gets the name and the 64-bit
    addend of the first record of the table with that address, or stays
    untagged when there is none. *)
Theorem locator_tags Relocations M BB x :
  getMetadata (LocateRelocationAccessesPass.runOnBasicBlock Relocations M BB).1 x
  = if decide (x ∈ blockInsts M BB) then tagFor Relocations M x
    else getMetadata M x.
Proof. apply (locate_foldl_metadata Relocations (M, false)). Qed.

(** X7.  The locator only writes metadata: blocks, functions, global
    variables and module metadata are what they were, and so are the
    opcode, the operands and the block of every instruction; no
    instruction is created or removed. *)
Theorem locator_metadata_only Relocations M BB :
  let M1 := (LocateRelocationAccessesPass.runOnBasicBlock Relocations M BB).1 in
  blocks M1 = blocks M /\ functions M1 = functions M /\
  globalVars M1 = globalVars M /\ linkerOptions M1 = linkerOptions M /\
  (fun i => (opcode i, parent i)) <$> insts M1
  = (fun i => (opcode i, parent i)) <$> insts M.
Proof. apply (locate_foldl_frame Relocations (M, false)). Qed.

(** X8.  The locator reports a change exactly when some instruction of the
    block was an untagged load of an address of the table, and it reports
    none exactly when the module comes back as it was. *)
Theorem locator_flag Relocations M BB :
  let st := LocateRelocationAccessesPass.runOnBasicBlock Relocations M BB in
  (st.2 = true <-> exists x, x ∈ blockInsts M BB /\ pending Relocations M x) /\
  (st.2 = false <-> st.1 = M).
Proof.
  cbv zeta. unfold LocateRelocationAccessesPass.runOnBasicBlock.
  destruct (locate_foldl_flag Relocations M false (blockInsts M BB)) as [Hflag Hsame].
  cbv zeta in Hflag, Hsame.
  assert (forall b : bool, b = false <-> ~ b = true) as Hneg by (by intros []).
  split.
  - rewrite Hflag. split; [intros [?|?]; done|by right].
  - split.
    + intros Hf. rewrite Hsame; [done|]. intros x Hx Hp.
      apply Hneg in Hf. apply Hf, Hflag. right. by exists x.
    + intros HM. apply Hneg. intros [?|(x & Hx & Hp)]%Hflag; [done|].
      pose proof (locate_foldl_metadata Relocations (M, false) (blockInsts M BB) x)
        as Hmd.
      rewrite HM, decide_True in Hmd by done. simpl in Hmd.
      apply pending_tagFor in Hp as [Hn [md Hs]]. congruence.
Qed.

(** X9.  Running the locator again over the block finds nothing left to
    tag: the module comes back unchanged and no change is reported. *)
Theorem locator_idempotent Relocations M BB :
  let M1 := (LocateRelocationAccessesPass.runOnBasicBlock Relocations M BB).1 in
  LocateRelocationAccessesPass.runOnBasicBlock Relocations M1 BB = (M1, false).
Proof.
  cbv zeta.
  pose proof (locate_foldl_frame Relocations (M, false) (blockInsts M BB))
    as (Hb & _).
  pose proof (fun x => locate_foldl_metadata Relocations (M, false)
                         (blockInsts M BB) x) as Hmd.
  pose proof (fun x => locate_foldl_tagFor Relocations (M, false)
                         (blockInsts M BB) x) as Htag.
  fold (LocateRelocationAccessesPass.runOnBasicBlock Relocations M BB)
    in Hb, Hmd, Htag.
  set (M1 := (LocateRelocationAccessesPass.runOnBasicBlock Relocations M BB).1) in *.
  unfold LocateRelocationAccessesPass.runOnBasicBlock.
  assert (blockInsts M1 BB = blockInsts M BB) as -> by (unfold blockInsts; by rewrite Hb).
  apply locate_foldl_flag. intros x Hx [Hn Hs]%pending_tagFor.
  rewrite Hmd, decide_True in Hn by done.
  rewrite Htag in Hs. simpl in *. destruct Hs. congruence.
Qed.

(** * The fused pass against the locator *)

Lemma addsCalls_refl M : addsCalls M M.
Proof. exists []. by rewrite app_nil_r. Qed.

Lemma addsCalls_trans M1 M2 M3 : addsCalls M1 M2 -> addsCalls M2 M3 -> addsCalls M1 M3.
Proof.
  intros (k1 & E1 & F1) (k2 & E2 & F2). exists (k1 ++ k2).
  rewrite E2, E1, app_assoc. split; [done|]. by apply Forall_app.
Qed.

Lemma addsCalls_lookup Ml Mf x i :
  addsCalls Ml Mf -> insts Ml !! x = Some i -> insts Mf !! x = Some i.
Proof. intros (k & E & _) H. rewrite E. by apply lookup_app_l_Some. Qed.

Lemma addsCalls_new Ml Mf x i :
  addsCalls Ml Mf -> insts Ml !! x = None -> insts Mf !! x = Some i -> isNewCall i.
Proof.
  intros (k & E & F) Hn Hs. rewrite E in Hs.
  apply lookup_app_Some in Hs as [Hs|[_ Hs]]; [congruence|].
  eapply Forall_lookup_1; eauto.
Qed.

Lemma createCall_addsCalls M y place V : addsCalls M (createCall M y place V).
Proof.
  unfold createCall.
  destruct (insts M !! y) as [i|]; [|apply addsCalls_refl].
  assert (Forall isNewCall [mkInst (CallInst V []) (parent i) None]).
  { apply Forall_singleton. by exists V. }
  destruct (blocks M !! parent i);
    exists [mkInst (CallInst V []) (parent i) None]; by split.
Qed.

Lemma fused_buildCall_addsCalls M y N :
  addsCalls M (TranslateRelocationCallsPass.buildCall M y N).
Proof.
  unfold TranslateRelocationCallsPass.buildCall.
  destruct (getOrInsertFunction_arenas M N TranslateRelocationCallsPass.varArgVoidFn)
    as [Hi _].
  destruct (getOrInsertFunction M N _) as [M1 V]. simpl in Hi.
  eapply addsCalls_trans; [|apply createCall_addsCalls].
  exists []. by rewrite app_nil_r.
Qed.

Lemma setMetadata_addsCalls Ml Mf y MD :
  addsCalls Ml Mf -> is_Some (insts Ml !! y) ->
  addsCalls (setMetadata Ml y MD) (setMetadata Mf y MD).
Proof.
  intros A [i Hi]. pose proof (addsCalls_lookup _ _ _ _ A Hi) as Hf.
  destruct A as (k & E & F). unfold setMetadata. rewrite Hi, Hf. simpl.
  exists k. split; [|done]. rewrite E.
  apply insert_app_l. by eapply lookup_lt_Some.
Qed.

Section FusedAgainstLocator.

Variable isPCReg : Value -> bool.
Variable Relocations : list RelocationInfo.

Lemma visitUser_addsCalls M y :
  addsCalls M (TranslateRelocationCallsPass.visitUser isPCReg M y).
Proof.
  unfold TranslateRelocationCallsPass.visitUser,
    TranslateRelocationCallsPass.handlePCStore.
  destruct (getOpcode M y) as [[| v p | | |]|]; try apply addsCalls_refl.
  destruct (isPCReg p); [|apply addsCalls_refl].
  destruct (asLoad M v); [|apply addsCalls_refl].
  destruct (getMetadata M _) as [MD|]; [|apply addsCalls_refl].
  destruct (mdAddend MD =? 0)%Z; [|apply addsCalls_refl].
  apply fused_buildCall_addsCalls.
Qed.

Lemma foldl_visitUser_addsCalls M l :
  addsCalls M (foldl (TranslateRelocationCallsPass.visitUser isPCReg) M l).
Proof.
  revert M. induction l as [|y r IH]; intros M; simpl; [apply addsCalls_refl|].
  eapply addsCalls_trans; [apply visitUser_addsCalls|apply IH].
Qed.

Lemma fused_scan_spec M x c rs :
  TranslateRelocationCallsPass.scanRelocations isPCReg M x c rs =
  match getMetadata M x, firstMatch rs c with
  | None, Some r =>
      let M1 := setMetadata M x (mkMD (Name r) (int64 (Addend r))) in
      (foldl (TranslateRelocationCallsPass.visitUser isPCReg) M1
         (TranslateRelocationCallsPass.users M1 x), true)
  | _, _ => (M, false)
  end.
Proof.
  unfold firstMatch. induction rs as [|r rest IH]; simpl.
  { by destruct (getMetadata M x). }
  destruct (c =? Address r)%Z; [|done].
  destruct (getMetadata M x); [|done]. rewrite IH. done.
Qed.

(** What one visit of the fused pass does. *)
Lemma fused_visit_spec M b y :
  TranslateRelocationCallsPass.visit isPCReg Relocations (M, b) y =
  match getMetadata M y, tagFor Relocations M y with
  | None, Some MD =>
      let M1 := setMetadata M y MD in
      (foldl (TranslateRelocationCallsPass.visitUser isPCReg) M1
         (TranslateRelocationCallsPass.users M1 y), true)
  | _, _ => (M, b)
  end.
Proof.
  unfold TranslateRelocationCallsPass.visit, TranslateRelocationCallsPass.handleLoad,
    tagFor, constantAddress. simpl.
  destruct (getOpcode M y) as [[p| | | |]|] eqn:Ho;
    try (by destruct (getMetadata M y)).
  destruct p as [| |[] [| c | | | | |]| | | |];
    try (simpl; rewrite ?orb_false_r; by destruct (getMetadata M y)).
  rewrite fused_scan_spec. simpl.
  destruct (getMetadata M y); simpl; [by rewrite orb_false_r|].
  destruct (firstMatch Relocations c); simpl; [by rewrite orb_true_r|].
  by rewrite orb_false_r.
Qed.

Lemma addsCalls_getMetadata Ml Mf y :
  addsCalls Ml Mf -> is_Some (insts Ml !! y) -> getMetadata Mf y = getMetadata Ml y.
Proof.
  intros A [i Hi]. unfold getMetadata.
  by rewrite (addsCalls_lookup _ _ _ _ A Hi), Hi.
Qed.

Lemma addsCalls_getOpcode Ml Mf y :
  addsCalls Ml Mf -> is_Some (insts Ml !! y) -> getOpcode Mf y = getOpcode Ml y.
Proof.
  intros A [i Hi]. unfold getOpcode.
  by rewrite (addsCalls_lookup _ _ _ _ A Hi), Hi.
Qed.

Lemma sim_visit Ml Mf b y :
  addsCalls Ml Mf ->
  addsCalls (LocateRelocationAccessesPass.visit Relocations (Ml, b) y).1
            (TranslateRelocationCallsPass.visit isPCReg Relocations (Mf, b) y).1 /\
  (LocateRelocationAccessesPass.visit Relocations (Ml, b) y).2
  = (TranslateRelocationCallsPass.visit isPCReg Relocations (Mf, b) y).2.
Proof.
  intros A. rewrite locate_visit_spec, fused_visit_spec.
  destruct (insts Ml !! y) as [i|] eqn:Hi.
  - assert (is_Some (insts Ml !! y)) as Hy by eauto.
    assert (tagFor Relocations Mf y = tagFor Relocations Ml y) as ->.
    { unfold tagFor, constantAddress.
      by rewrite (addsCalls_getMetadata _ _ _ A Hy), (addsCalls_getOpcode _ _ _ A Hy). }
    rewrite (addsCalls_getMetadata _ _ _ A Hy).
    destruct (getMetadata Ml y); [done|].
    destruct (tagFor Relocations Ml y) as [MD|]; [|done]. simpl. split; [|done].
    eapply addsCalls_trans; [by apply setMetadata_addsCalls|].
    apply foldl_visitUser_addsCalls.
  - assert (getMetadata Ml y = None) as -> by (unfold getMetadata; by rewrite Hi).
    assert (tagFor Relocations Ml y = None) as ->.
    { unfold tagFor, getMetadata, constantAddress, getOpcode. by rewrite Hi. }
    destruct (getMetadata Mf y) as [MD|] eqn:HMD; [done|].
    assert (tagFor Relocations Mf y = None) as ->; [|done].
    unfold tagFor, constantAddress, getOpcode. rewrite HMD.
    destruct (insts Mf !! y) as [j|] eqn:Hj; [|done].
    destruct (addsCalls_new _ _ _ _ A Hi Hj) as (V & HV & _). simpl.
    by rewrite HV.
Qed.

Lemma sim_foldl Ml Mf b l :
  addsCalls Ml Mf ->
  addsCalls (foldl (LocateRelocationAccessesPass.visit Relocations) (Ml, b) l).1
            (foldl (TranslateRelocationCallsPass.visit isPCReg Relocations) (Mf, b) l).1 /\
  (foldl (LocateRelocationAccessesPass.visit Relocations) (Ml, b) l).2
  = (foldl (TranslateRelocationCallsPass.visit isPCReg Relocations) (Mf, b) l).2.
Proof.
  revert Ml Mf b. induction l as [|y r IH]; intros Ml Mf b A; simpl; [done|].
  destruct (sim_visit Ml Mf b y A) as [A' Hb].
  destruct (LocateRelocationAccessesPass.visit Relocations (Ml, b) y) as [Ml' bl].
  destruct (TranslateRelocationCallsPass.visit isPCReg Relocations (Mf, b) y)
    as [Mf' bf].
  simpl in *. subst bf. by apply IH.
Qed.

End FusedAgainstLocator.

(** X10.  The fused pass tags like the locator: run over the same block
    of the same module, both report the same flag, and the module of the
    fused pass has the instructions of the locator's module, with the same
    tags, followed by the calls it has created. *)
Theorem fused_tags_like_locator isPCReg Relocations M BB :
  let L := LocateRelocationAccessesPass.runOnBasicBlock Relocations M BB in
  let F := TranslateRelocationCallsPass.runOnBasicBlock isPCReg Relocations M BB in
  F.2 = L.2 /\
  exists k, insts F.1 = insts L.1 ++ k /\ Forall isNewCall k.
Proof.
  cbv zeta.
  destruct (sim_foldl isPCReg Relocations M M false (blockInsts M BB)
              (addsCalls_refl M)) as [A Hb].
  split; [by symmetry|exact A].
Qed.

(** X11.  The fused pass reports a change exactly when some instruction of
    the block was an untagged load of an address of the table, and it
    reports none exactly when the module comes back as it was. *)
Theorem fused_flag isPCReg Relocations M BB :
  let st := TranslateRelocationCallsPass.runOnBasicBlock isPCReg Relocations M BB in
  (st.2 = true <-> exists x, x ∈ blockInsts M BB /\ pending Relocations M x) /\
  (st.2 = false <-> st.1 = M).
Proof.
  cbv zeta.
  destruct (sim_foldl isPCReg Relocations M M false (blockInsts M BB)
              (addsCalls_refl M)) as [A Hb].
  destruct (locate_foldl_flag Relocations M false (blockInsts M BB)) as [Hflag _].
  cbv zeta in Hflag.
  fold (TranslateRelocationCallsPass.runOnBasicBlock isPCReg Relocations M BB)
    in A, Hb.
  set (F := TranslateRelocationCallsPass.runOnBasicBlock isPCReg Relocations M BB)
    in *.
  assert (forall b : bool, b = false <-> ~ b = true) as Hneg by (by intros []).
  assert (F.2 = true <-> exists x, x ∈ blockInsts M BB /\ pending Relocations M x)
    as Htrue.
  { rewrite <- Hb, Hflag. split; [intros [?|?]; done|by right]. }
  split; [done|]. split.
  - intros Hf. unfold F, TranslateRelocationCallsPass.runOnBasicBlock.
    rewrite foldl_visit_idle; [done|]. intros x Hx Hp.
    apply Hneg in Hf. apply Hf, Htrue. by exists x.
  - intros HM. apply Hneg. intros (x & Hx & Hp)%Htrue.
    pose proof (locate_foldl_metadata Relocations (M, false) (blockInsts M BB) x)
      as Hmd.
    rewrite decide_True in Hmd by done. simpl in Hmd.
    pose proof Hp as [Hn [md Hs]]%pending_tagFor.
    destruct Hp as (c & _ & Hc & _).
    set (ML := (foldl (LocateRelocationAccessesPass.visit Relocations) (M, false)
                  (blockInsts M BB)).1) in *.
    assert (is_Some (insts ML !! x)) as Hvalid.
    { destruct (locate_foldl_frame Relocations (M, false) (blockInsts M BB))
        as (_ & _ & _ & _ & Hfr).
      fold ML in Hfr. apply constantAddress_is_Some in Hc as [i Hi].
      apply (f_equal (fun l => l !! x)) in Hfr.
      rewrite !list_lookup_fmap in Hfr. simpl in Hfr. rewrite Hi in Hfr.
      destruct (insts ML !! x); [eauto|done]. }
    rewrite <- (addsCalls_getMetadata ML F.1 x A Hvalid), HM in Hmd. congruence.
Qed.

(** * What the fused pass adds *)

Lemma filter_old_insertBefore n y c bl :
  (n <= c)%nat ->
  filter (fun x => (x < n)%nat) (insertBefore y c bl)
  = filter (fun x => (x < n)%nat) bl.
Proof.
  intros Hc. induction bl as [|z r IH]; simpl; [done|].
  case_decide; subst.
  - rewrite (filter_cons _ c). by rewrite (decide_False (P := (c < n)%nat)) by lia.
  - rewrite !filter_cons, IH. done.
Qed.

Lemma fusedFrame_refl M : fusedFrame M M.
Proof.
  repeat split; try done. exists []. by rewrite app_nil_r.
Qed.

Lemma fusedFrame_trans M1 M2 M3 : fusedFrame M1 M2 -> fusedFrame M2 M3 -> fusedFrame M1 M3.
Proof.
  intros (L1 & B1 & G1 & O1 & (d1 & F1 & D1) & N1 & K1)
         (L2 & B2 & G2 & O2 & (d2 & F2 & D2) & N2 & K2).
  split; [lia|]. split; [congruence|]. split; [congruence|]. split; [congruence|].
  split.
  { exists (d1 ++ d2). rewrite F2, F1, app_assoc. split; [done|]. by apply Forall_app. }
  split; [auto|]. intros b n Hn. rewrite K2 by lia. by apply K1.
Qed.

Lemma createCall_fusedFrame M y V :
  fusedFrame M (createCall M y (insertBefore y) V).
Proof.
  unfold createCall. destruct (insts M !! y) as [i|]; [|apply fusedFrame_refl].
  assert (fusedFrame M (setInsts M (insts M ++ [mkInst (CallInst V []) (parent i) None])))
    as Hbase.
  { repeat split; simpl; try done; [rewrite length_app; lia|].
    exists []. by rewrite app_nil_r. }
  destruct (blocks M !! parent i) as [bl|] eqn:Hb; [|done].
  destruct Hbase as (L & B & G & O & D & N & K).
  repeat split; simpl in *; try done. { by rewrite length_insert. }
  intros b n Hn. unfold blockInsts. simpl.
  destruct (decide (parent i = b)) as [<-|Hne].
  - rewrite list_lookup_insert_eq by (by eapply lookup_lt_Some).
    rewrite Hb. simpl. by apply filter_old_insertBefore.
  - by rewrite list_lookup_insert_ne.
Qed.

Lemma getOrInsertFunction_fusedFrame M N :
  fusedFrame M (getOrInsertFunction M N TranslateRelocationCallsPass.varArgVoidFn).1.
Proof.
  unfold getOrInsertFunction.
  destruct (decide (N = EmptyString)) as [->|HN].
  { repeat split; simpl; try done.
    - eexists. split; [done|]. by apply Forall_singleton.
    - unfold namedFunctions. simpl. rewrite fmap_app, filter_app. simpl.
      rewrite filter_cons_False by (by intros H; apply H).
      by rewrite filter_nil, app_nil_r. }
  destruct (getFunction (functions M) N) as [f|] eqn:Hf.
  { case_decide; apply fusedFrame_refl. }
  case_decide; [apply fusedFrame_refl|]. simpl.
  repeat split; simpl; try done.
  - eexists. split; [done|]. by apply Forall_singleton.
  - unfold namedFunctions. simpl. rewrite fmap_app, filter_app. simpl.
    rewrite filter_cons_True by done. rewrite filter_nil.
    intros Hnd. apply NoDup_app. split; [done|].
    split; [|apply NoDup_singleton].
    intros x [_ Hx]%list_elem_of_filter [= ->]%list_elem_of_singleton.
    by apply getFunction_None in Hf.
Qed.

Lemma setMetadata_fusedFrame M x MD : fusedFrame M (setMetadata M x MD).
Proof.
  destruct (setMetadata_frame M x MD) as (Hb & Hf & Hg & Hl & Hi).
  apply (f_equal length) in Hi. rewrite !length_fmap in Hi.
  repeat split; try congruence; try lia.
  - exists []. by rewrite app_nil_r.
  - unfold namedFunctions. by rewrite Hf.
  - intros b n Hn. unfold blockInsts. by rewrite Hb.
Qed.

Lemma fusedStep_fusedFrame isPCReg Relocations M M' :
  fusedStep isPCReg Relocations M M' -> fusedFrame M M'.
Proof.
  destruct 1; [apply setMetadata_fusedFrame|].
  unfold TranslateRelocationCallsPass.buildCall.
  pose proof (getOrInsertFunction_fusedFrame M (mdName MD)) as F1.
  destruct (getOrInsertFunction M (mdName MD) _) as [M1 V]. simpl in F1.
  eapply fusedFrame_trans; [done|apply createCall_fusedFrame].
Qed.

Lemma steps_fusedFrame isPCReg Relocations M M' :
  rtc (fusedStep isPCReg Relocations) M M' -> fusedFrame M M'.
Proof.
  induction 1 as [|M M1 M2 Hs _ IH]; [apply fusedFrame_refl|].
  eapply fusedFrame_trans; [by eapply fusedStep_fusedFrame|done].
Qed.

(** X12.  The fused pass never adds a block or a function body: the
    blocks are as many as before and keep their old instructions in order,
    global variables and module metadata are untouched, the function list
    grows at its end by declarations of type [void (...)] without blocks,
    and the names of the symbol table (the function names that are not
    empty) stay distinct if they were; functions without a name may be
    declared any number of times. *)
Theorem fused_only_declares isPCReg Relocations M BB :
  let M1 := (TranslateRelocationCallsPass.runOnBasicBlock isPCReg Relocations M BB).1 in
  length (blocks M1) = length (blocks M) /\
  globalVars M1 = globalVars M /\ linkerOptions M1 = linkerOptions M /\
  (exists ds, functions M1 = functions M ++ ds /\
              Forall (fun f => ftype f = TranslateRelocationCallsPass.varArgVoidFn /\
                               fblocks f = []) ds) /\
  (NoDup (namedFunctions M) -> NoDup (namedFunctions M1)) /\
  (forall b,
     filter (fun x => (x < length (insts M))%nat) (blockInsts M1 b)
     = filter (fun x => (x < length (insts M))%nat) (blockInsts M b)).
Proof.
  cbv zeta.
  destruct (steps_fusedFrame _ _ _ _ (runOnBasicBlock_steps isPCReg Relocations M BB))
    as (_ & B & G & O & D & N & K).
  repeat split; try done. intros b. by apply K.
Qed.

(** * The fused pass links its calls *)

Lemma prevIn_Some_elem y b n : prevIn y b = Some n -> y ∈ b.
Proof.
  induction b as [|z r IH]; [done|]. rewrite prevIn_cons.
  case_decide; [done|]. destruct r as [|w r']; [done|].
  change (head (w :: r')) with (Some w). cbv beta iota.
  case_decide; subst.
  - intros _. apply list_elem_of_further, list_elem_of_here.
  - intros Hn. apply list_elem_of_further; auto.
Qed.

Lemma prevIn_insertBefore_same y c b :
  y ∈ b -> c <> y -> prevIn y (insertBefore y c b) = Some c.
Proof.
  intros Hin Hc. induction b as [|z r IH]; [by apply not_elem_of_nil in Hin|].
  simpl insertBefore. destruct (decide (z = y)) as [->|Hz].
  - rewrite prevIn_cons. change (head (y :: r)) with (Some y). cbv beta iota.
    by rewrite decide_False, decide_True by done.
  - apply elem_of_cons in Hin as [->|Hin]; [done|].
    rewrite prevIn_cons, decide_False by done.
    rewrite head_insertBefore.
    destruct r as [|w r']; [by apply not_elem_of_nil in Hin|].
    change (head (w :: r')) with (Some w). cbv beta iota.
    destruct (decide (w = y)) as [->|Hw].
    + cbv beta iota. rewrite decide_False by done. by apply IH.
    + cbv beta iota. rewrite decide_False by done. by apply IH.
Qed.

Lemma elem_of_insertBefore_keep x y c b : x ∈ b -> x ∈ insertBefore y c b.
Proof.
  induction b as [|z r IH]; simpl; [done|].
  case_decide; rewrite !elem_of_cons; intuition auto.
Qed.

Lemma createCall_getPrevNode_same M y V :
  linked M y ->
  getPrevNode (createCall M y (insertBefore y) V) y = Some (length (insts M)).
Proof.
  intros (i & bl & Hi & Hb & Hin).
  rewrite (createCall_eq _ _ _ _ _ _ Hi Hb). unfold getPrevNode. simpl.
  rewrite (lookup_app_l_Some _ _ _ _ Hi). simpl.
  rewrite list_lookup_insert_eq by (by eapply lookup_lt_Some). simpl.
  apply prevIn_insertBefore_same; [done|]. apply lookup_lt_Some in Hi. lia.
Qed.

Lemma createCall_linked M y V S :
  linked M S -> linked (createCall M y (insertBefore y) V) S.
Proof.
  intros (i & bl & Hi & Hb & Hin). unfold createCall.
  destruct (insts M !! y) as [iy|] eqn:Hy; [|by exists i, bl].
  destruct (blocks M !! parent iy) as [bly|] eqn:Hby.
  - destruct (decide (parent iy = parent i)) as [Hp|Hp].
    + exists i, (insertBefore y (length (insts M)) bly). simpl.
      split; [by apply lookup_app_l_Some|].
      rewrite <- Hp, list_lookup_insert_eq by (by eapply lookup_lt_Some).
      split; [done|]. apply elem_of_insertBefore_keep. congruence.
    + exists i, bl. simpl. split; [by apply lookup_app_l_Some|].
      by rewrite list_lookup_insert_ne.
  - exists i, bl. simpl. split; [by apply lookup_app_l_Some|done].
Qed.

Lemma getPrevNode_linked M S c : getPrevNode M S = Some c -> linked M S.
Proof.
  unfold getPrevNode. destruct (insts M !! S) as [i|] eqn:Hi; [|done]. simpl.
  destruct (blocks M !! parent i) as [bl|] eqn:Hb; [|done]. simpl.
  intros Hp%prevIn_Some_elem. by exists i, bl.
Qed.

Section FusedLinks.

Variable isPCReg : Value -> bool.
Variable Relocations : list RelocationInfo.

Local Abbreviation step := (fusedStep isPCReg Relocations).

Lemma fusedStep_linked M M' S : step M M' -> linked M S -> linked M' S.
Proof.
  intros Hs (i & bl & Hi & Hb & Hin).
  destruct Hs as [L r Hc Hr Hnone|y v p L MD Ho Hp Hl HMD Hz].
  - unfold setMetadata. destruct (insts M !! L) as [iL|] eqn:HL; [|by exists i, bl].
    destruct (decide (L = S)) as [->|Hne].
    + exists (mkInst (opcode iL) (parent iL)
                (Some (mkMD (Name r) (int64 (Addend r))))), bl.
      simpl. rewrite list_lookup_insert_eq by (by eapply lookup_lt_Some).
      assert (iL = i) as -> by congruence. done.
    + exists i, bl. simpl. by rewrite list_lookup_insert_ne.
  - unfold TranslateRelocationCallsPass.buildCall.
    destruct (getOrInsertFunction_arenas M (mdName MD)
                TranslateRelocationCallsPass.varArgVoidFn) as [Hins Hbl].
    destruct (getOrInsertFunction M (mdName MD) _) as [M1 V]. simpl in *.
    apply createCall_linked. exists i, bl. by rewrite Hins, Hbl.
Qed.

Lemma fusedStep_storesTagged M M' S x ptr MD :
  step M M' -> storesTagged M S x ptr MD -> storesTagged M' S x ptr MD.
Proof.
  intros G%fusedStep_grows (Ho & Hl & HMD).
  split; [by eapply grows_getOpcode|].
  split; [by eapply grows_asLoad|by eapply grows_tagsKept].
Qed.

(** Once the call stands before the store it stays there, or a later call
    to the same global takes its place. *)
Lemma fusedStep_callBefore n M M' S x ptr MD :
  step M M' -> (n <= length (insts M))%nat ->
  storesTagged M S x ptr MD -> callBefore n M S (mdName MD) ->
  callBefore n M' S (mdName MD).
Proof.
  intros Hs Hlen (HoS & HlS & HMDS) (c & V & Hprev & Hoc & HV & Hnc).
  pose proof (fusedStep_grows _ _ _ _ Hs) as G.
  assert (is_Some (insts M !! S)) as [iS HS].
  { unfold getOpcode in HoS. destruct (insts M !! S); [eauto|done]. }
  destruct Hs as [L r Hc Hr Hnone|y v p L MD' Ho Hp Hl HMD Hz].
  - exists c, V. split; [|split; [by rewrite getOpcode_setMetadata|done]].
    unfold getPrevNode, setMetadata in *.
    destruct (insts M !! L) as [iL|] eqn:HL; [|done]. simpl.
    destruct (decide (L = S)) as [->|Hne].
    + rewrite list_lookup_insert_eq by (by eapply lookup_lt_Some).
      rewrite HL in Hprev. done.
    + by rewrite list_lookup_insert_ne.
  - destruct (decide (S = y)) as [->|Hne].
    + assert (v = VInst x) as -> by congruence.
      assert (L = x) as -> by congruence.
      assert (MD' = MD) as -> by congruence.
      unfold TranslateRelocationCallsPass.buildCall.
      pose proof (calledGlobal_getOrInsertFunction M (mdName MD)
                    TranslateRelocationCallsPass.varArgVoidFn) as HV'.
      destruct (getOrInsertFunction_arenas M (mdName MD)
                  TranslateRelocationCallsPass.varArgVoidFn) as [Hins Hbl].
      destruct (getOrInsertFunction M (mdName MD) _) as [M1 V1]. simpl in *.
      exists (length (insts M1)), V1.
      split; [|split; [|split; [done|rewrite Hins; lia]]].
      * apply createCall_getPrevNode_same.
        destruct (getPrevNode_linked _ _ _ Hprev) as (i & bl & Hi & Hb & Hin).
        exists i, bl. by rewrite Hins, Hbl.
      * apply createCall_new_opcode. rewrite Hins. eauto.
    + destruct (fused_buildCall_frame M y (mdName MD') S iS Hne HS) as [_ Hp'].
      exists c, V. split; [congruence|]. split; [by eapply grows_getOpcode|done].
Qed.

Lemma steps_keep M M' n S x ptr MD :
  rtc step M M' -> (n <= length (insts M))%nat -> linked M S ->
  storesTagged M S x ptr MD ->
  linked M' S /\ storesTagged M' S x ptr MD /\
  (callBefore n M S (mdName MD) -> callBefore n M' S (mdName MD)).
Proof.
  induction 1 as [|M M1 M2 Hs _ IH]; intros Hn HL HT; [done|].
  assert (n <= length (insts M1))%nat as Hn1.
  { destruct (fusedStep_fusedFrame _ _ _ _ Hs) as (? & _). lia. }
  destruct IH as (HL2 & HT2 & HC2);
    [done|by eapply fusedStep_linked|by eapply fusedStep_storesTagged|].
  split; [done|]. split; [done|].
  intros HC. apply HC2. by eapply fusedStep_callBefore.
Qed.

Lemma visitUser_links n M S x ptr MD :
  (n <= length (insts M))%nat -> linked M S -> storesTagged M S x ptr MD ->
  isPCReg ptr = true -> mdAddend MD = 0 ->
  callBefore n (TranslateRelocationCallsPass.visitUser isPCReg M S) S (mdName MD).
Proof.
  intros Hn HL (Ho & Hl & HMD) Hp Hz.
  unfold TranslateRelocationCallsPass.visitUser,
    TranslateRelocationCallsPass.handlePCStore.
  rewrite Ho, Hp, Hl, HMD, (proj2 (Z.eqb_eq _ _) Hz). simpl.
  unfold TranslateRelocationCallsPass.buildCall.
  pose proof (calledGlobal_getOrInsertFunction M (mdName MD)
                TranslateRelocationCallsPass.varArgVoidFn) as HV.
  destruct (getOrInsertFunction_arenas M (mdName MD)
              TranslateRelocationCallsPass.varArgVoidFn) as [Hins Hbl].
  destruct (getOrInsertFunction M (mdName MD) _) as [M1 V1]. simpl in *.
  exists (length (insts M1)), V1.
  destruct HL as (i & bl & Hi & Hb & Hin).
  split; [|split; [|split; [done|rewrite Hins; lia]]].
  - apply createCall_getPrevNode_same. exists i, bl. by rewrite Hins, Hbl.
  - apply createCall_new_opcode. rewrite Hins. eauto.
Qed.

Lemma foldl_visitUser_links n M l S x ptr MD :
  (n <= length (insts M))%nat -> linked M S -> storesTagged M S x ptr MD ->
  isPCReg ptr = true -> mdAddend MD = 0 ->
  callBefore n M S (mdName MD) \/ S ∈ l ->
  callBefore n (foldl (TranslateRelocationCallsPass.visitUser isPCReg) M l)
    S (mdName MD).
Proof.
  revert M. induction l as [|y r IH]; intros M Hn HL HT Hp Hz Hor; simpl.
  { destruct Hor as [?|Hin]; [done|by apply not_elem_of_nil in Hin]. }
  pose proof (visitUser_steps isPCReg Relocations M y) as Hsteps.
  destruct (steps_keep _ _ n S x ptr MD Hsteps Hn HL HT) as (HL' & HT' & HC').
  apply IH; try done.
  { destruct (steps_fusedFrame _ _ _ _ Hsteps) as (? & _). lia. }
  destruct Hor as [HC|[->|Hin]%elem_of_cons]; [left; by apply HC'| |by right].
  left. by apply (visitUser_links n M y x ptr MD).
Qed.

Lemma elem_of_users M S x ptr :
  getOpcode M S = Some (StoreInst (VInst x) ptr) ->
  S ∈ TranslateRelocationCallsPass.users M x.
Proof.
  intros Ho. unfold TranslateRelocationCallsPass.users.
  apply list_elem_of_bind. exists S. split.
  - rewrite Ho. simpl. rewrite decide_True by done. simpl.
    apply list_elem_of_here.
  - apply elem_of_seq. unfold getOpcode in Ho.
    destruct (insts M !! S) as [i|] eqn:Hi; [|done].
    apply lookup_lt_Some in Hi. lia.
Qed.

End FusedLinks.

Section FusedLinksWalk.

Variable isPCReg : Value -> bool.
Variable Relocations : list RelocationInfo.

Local Abbreviation step := (fusedStep isPCReg Relocations).

Lemma steps_linked M M' S : rtc step M M' -> linked M S -> linked M' S.
Proof.
  induction 1 as [|M M1 M2 Hs _ IH]; [done|].
  intros HL. by eapply IH, fusedStep_linked.
Qed.

Lemma grows_constantAddress_fwd M M' x c :
  grows M M' -> constantAddress M x = Some c -> constantAddress M' x = Some c.
Proof.
  intros G. unfold constantAddress.
  destruct (getOpcode M x) as [o|] eqn:Ho; [|done].
  by rewrite (grows_getOpcode _ _ _ _ G Ho).
Qed.

Lemma fused_visit_untagged M b y x :
  x <> y -> is_Some (insts M !! x) -> getMetadata M x = None ->
  getMetadata (TranslateRelocationCallsPass.visit isPCReg Relocations (M, b) y).1 x
  = None.
Proof.
  intros Hne [i Hi] Hnone. rewrite fused_visit_spec.
  destruct (getMetadata M y); [done|].
  destruct (tagFor Relocations M y) as [MD|]; [|done]. simpl.
  rewrite (addsCalls_getMetadata (setMetadata M y MD)).
  - by rewrite getMetadata_setMetadata_ne.
  - apply foldl_visitUser_addsCalls.
  - apply lookup_lt_is_Some. apply lookup_lt_Some in Hi.
    unfold setMetadata. destruct (insts M !! y); [|done]. simpl.
    by rewrite length_insert.
Qed.

Lemma foldl_visit_links n l M b S x ptr c r :
  let MD := mkMD (Name r) (int64 (Addend r)) in
  (n <= length (insts M))%nat -> linked M S ->
  getOpcode M S = Some (StoreInst (VInst x) ptr) -> isPCReg ptr = true ->
  constantAddress M x = Some c -> firstMatch Relocations c = Some r ->
  int64 (Addend r) = 0 ->
  (storesTagged M S x ptr MD /\ callBefore n M S (Name r)) \/
  (getMetadata M x = None /\ x ∈ l) ->
  let M1 := (foldl (TranslateRelocationCallsPass.visit isPCReg Relocations)
               (M, b) l).1 in
  storesTagged M1 S x ptr MD /\ callBefore n M1 S (Name r).
Proof.
  intros MD. revert M b.
  induction l as [|y rest IH]; intros M b Hn HL HoS Hp Hc Hf Hz Hor; simpl.
  { destruct Hor as [?|[_ Hin]]; [done|by apply not_elem_of_nil in Hin]. }
  destruct (visit_steps isPCReg Relocations (M, b) y) as [Hsteps _].
  simpl in Hsteps.
  set (st' := TranslateRelocationCallsPass.visit isPCReg Relocations (M, b) y) in *.
  pose proof (steps_grows _ _ _ _ Hsteps) as G.
  assert (n <= length (insts st'.1))%nat as Hn'.
  { destruct (steps_fusedFrame _ _ _ _ Hsteps) as (? & _). lia. }
  assert (storesTagged st'.1 S x ptr MD /\ callBefore n st'.1 S (Name r) \/
          getMetadata st'.1 x = None /\ x ∈ rest) as Hor'.
  { destruct Hor as [[HT HC]|[Hnone Hin]].
    - left. destruct (steps_keep _ _ _ _ n S x ptr MD Hsteps Hn HL HT)
        as (_ & HT' & HC'). split; [done|by apply HC'].
    - destruct (decide (x = y)) as [->|Hne].
      + left. unfold st'. rewrite fused_visit_spec, Hnone.
        assert (tagFor Relocations M y = Some MD) as ->.
        { unfold tagFor. by rewrite Hnone, Hc; simpl; rewrite Hf. }
        simpl. set (M1 := setMetadata M y MD).
        pose proof (constantAddress_is_Some _ _ _ Hc) as Hvalid.
        assert (storesTagged M1 S y ptr MD) as HT1.
        { split; [unfold M1; by rewrite getOpcode_setMetadata|].
          split; [|by apply getMetadata_setMetadata].
          simpl. unfold M1. rewrite getOpcode_setMetadata.
          unfold constantAddress in Hc.
          destruct (getOpcode M y) as [[| | | |]|]; done. }
        assert (step M M1) as Hstep1.
        { apply firstMatch_Some in Hf as [Hr Heq]. subst c. by apply step_tag. }
        assert (linked M1 S) as HL1 by (by eapply fusedStep_linked).
        assert (n <= length (insts M1))%nat as Hn1.
        { destruct (fusedStep_fusedFrame _ _ _ _ Hstep1) as (? & _). lia. }
        pose proof (foldl_visitUser_steps isPCReg Relocations M1
                      (TranslateRelocationCallsPass.users M1 y)) as Hus.
        destruct (steps_keep _ _ _ _ n S y ptr MD Hus Hn1 HL1 HT1) as (_ & HT2 & _).
        split; [done|].
        apply (foldl_visitUser_links isPCReg Relocations n M1 _ S y ptr MD);
          try done.
        right. eapply elem_of_users. apply HT1.
      + right. apply elem_of_cons in Hin as [?|Hin]; [done|]. split; [|done].
        apply fused_visit_untagged; [done| |done].
        by eapply constantAddress_is_Some. }
  replace st' with (st'.1, st'.2) by (by destruct st').
  apply IH; try done.
  - by eapply steps_linked.
  - by eapply grows_getOpcode.
  - by eapply grows_constantAddress_fwd.
Qed.

End FusedLinksWalk.

(** X13.  Where the fused pass freshly tags a load of the block with a
    zero addend, every store of that load to the program counter that is
    linked into a block ends up with a call right in front of it: a new
    call, without arguments, to the global named by the record's symbol. *)
Theorem fused_links_call isPCReg Relocations M BB x S ptr c r :
  x ∈ blockInsts M BB -> getMetadata M x = None ->
  constantAddress M x = Some c -> firstMatch Relocations c = Some r ->
  int64 (Addend r) = 0 ->
  getOpcode M S = Some (StoreInst (VInst x) ptr) -> isPCReg ptr = true ->
  linked M S ->
  let M1 := (TranslateRelocationCallsPass.runOnBasicBlock isPCReg Relocations M BB).1 in
  getMetadata M1 x = Some (mkMD (Name r) 0) /\
  exists k V,
    getPrevNode M1 S = Some k /\ getOpcode M1 k = Some (CallInst V []) /\
    calledGlobal V = Some (Name r) /\ insts M !! k = None.
Proof.
  intros Hx Hnone Hc Hf Hz HoS Hp HL. cbv zeta.
  destruct (foldl_visit_links isPCReg Relocations (length (insts M))
              (blockInsts M BB) M false S x ptr c r)
    as [(_ & _ & HMD) (k & V & Hprev & Hok & HV & Hk)]; try done.
  { right. by split. }
  unfold TranslateRelocationCallsPass.runOnBasicBlock.
  rewrite Hz in HMD. split; [done|].
  exists k, V. repeat split; try done. by apply lookup_ge_None_2.
Qed.

Lemma fused_links_call_witness :
  let M1 :=
    (TranslateRelocationCallsPass.runOnBasicBlock Scenario.isPCReg
       Scenario.printfRelocs (Scenario.block 0x4020 None) 0).1 in
  getMetadata M1 0 = Some (mkMD "printf" 0) /\
  exists k V,
    getPrevNode M1 1 = Some k /\ getOpcode M1 k = Some (CallInst V []) /\
    calledGlobal V = Some "printf" /\
    insts (Scenario.block 0x4020 None) !! k = None.
Proof.
  apply (fused_links_call Scenario.isPCReg Scenario.printfRelocs
           (Scenario.block 0x4020 None) 0 0 1 (VGlobalVar "pc") 0x4020
           (mkReloc 0x4020 "printf" 0)); try reflexivity.
  - apply list_elem_of_here.
  - eexists _, _. split; [reflexivity|]. split; [reflexivity|].
    apply list_elem_of_further, list_elem_of_here.
Defined.

(** * range.h *)

Section RangeProperties.

Import RangeH.

Context {A : Type}.

Implicit Types (c : list A) (R : Range).

Lemma deref_Some c it e :
  deref c it = Some e <-> (0 <= it)%Z /\ c !! Z.to_nat it = Some e.
Proof.
  unfold deref. destruct (0 <=? it)%Z eqn:H0.
  - apply Z.leb_le in H0. tauto.
  - apply Z.leb_gt in H0. split; [done|]. intros [? _]. lia.
Qed.

Lemma toVectorFrom_valid fuel c it End' acc :
  (0 <= it)%Z -> (it <= End')%Z -> (End' <= Z.of_nat (length c))%Z ->
  (Z.to_nat (End' - it) < fuel)%nat ->
  toVectorFrom fuel c it End' acc
  = Returns (acc ++ take (Z.to_nat (End' - it)) (drop (Z.to_nat it) c)).
Proof.
  revert it acc. induction fuel as [|fuel IH]; intros it acc H0 H1 H2 Hf; [lia|].
  simpl. destruct (it =? End')%Z eqn:Heq.
  { apply Z.eqb_eq in Heq. subst. rewrite Z.sub_diag. simpl. by rewrite app_nil_r. }
  apply Z.eqb_neq in Heq.
  destruct (lookup_lt_is_Some_2 c (Z.to_nat it)) as [e He]; [lia|].
  rewrite (proj2 (deref_Some c it e)) by done.
  rewrite IH by lia. f_equal. rewrite <- app_assoc. f_equal. simpl.
  replace (Z.to_nat (End' - it)) with (S (Z.to_nat (End' - (it + 1)))) by lia.
  rewrite (drop_S _ _ _ He). simpl.
  by replace (Z.to_nat (it + 1)) with (S (Z.to_nat it)) by lia.
Qed.

Lemma toVectorFrom_returns fuel c it End' acc v :
  toVectorFrom fuel c it End' acc = Returns v ->
  (it = End' \/
   ((0 <= it)%Z /\ (it <= End')%Z /\ (End' <= Z.of_nat (length c))%Z)) /\
  v = acc ++ take (Z.to_nat (End' - it)) (drop (Z.to_nat it) c).
Proof.
  revert it acc. induction fuel as [|fuel IH]; intros it acc; [done|].
  simpl. destruct (it =? End')%Z eqn:Heq.
  { apply Z.eqb_eq in Heq. subst. intros [= <-]. split; [by left|].
    rewrite Z.sub_diag. simpl. by rewrite app_nil_r. }
  apply Z.eqb_neq in Heq.
  destruct (deref c it) as [e|] eqn:He; [|done].
  apply deref_Some in He as [H0 He].
  intros [Hcase ->]%IH. pose proof (lookup_lt_Some _ _ _ He) as Hlt.
  assert ((it <= End')%Z /\ (End' <= Z.of_nat (length c))%Z) as [H1 H2].
  { destruct Hcase as [<-|(? & ? & ?)]; lia. }
  split; [right; lia|].
  rewrite <- app_assoc. f_equal. simpl.
  replace (Z.to_nat (End' - it)) with (S (Z.to_nat (End' - (it + 1)))) by lia.
  rewrite (drop_S _ _ _ He). simpl.
  by replace (Z.to_nat (it + 1)) with (S (Z.to_nat it)) by lia.
Qed.


End RangeProperties.

(** X14.  On a range whose iterators are in order and inside the sequence,
    [toVector] returns, as soon as the fuel exceeds the distance, the
    elements between the two iterators, as many as [size()] says. *)
Theorem toVector_valid {A} (c : list A) R fuel :
  RangeH.valid c R -> (Z.to_nat (RangeH.size R) < fuel)%nat ->
  RangeH.toVector fuel c R = Returns (RangeH.elements c R) /\
  Z.of_nat (length (RangeH.elements c R)) = RangeH.size R.
Proof.
  intros (H0 & H1 & H2) Hf. split.
  - unfold RangeH.toVector. by rewrite toVectorFrom_valid.
  - unfold RangeH.elements, RangeH.size in *.
    rewrite length_take, length_drop. lia.
Qed.

Lemma toVector_valid_witness :
  RangeH.toVector 3 [10; 20; 30; 40]%Z (RangeH.mkRange 1 3)
  = Returns (RangeH.elements [10; 20; 30; 40]%Z (RangeH.mkRange 1 3)) /\
  Z.of_nat (length (RangeH.elements [10; 20; 30; 40]%Z (RangeH.mkRange 1 3)))
  = RangeH.size (RangeH.mkRange 1 3).
Proof.
  apply (toVector_valid [10; 20; 30; 40]%Z (RangeH.mkRange 1 3) 3).
  - unfold RangeH.valid. simpl. lia.
  - vm_compute. lia.
Defined.

(** X15.  [toVector] returns only for an empty range or for one whose
    iterators are in order and inside the sequence, and then with the
    elements between them: on a range that is reversed or reaches outside
    it runs into undefined behaviour or does not finish, whatever the fuel. *)
Theorem toVector_returns_only_valid {A} (c : list A) R fuel v :
  RangeH.toVector fuel c R = Returns v ->
  (RangeH.Begin R = RangeH.End_ R \/ RangeH.valid c R) /\
  v = RangeH.elements c R.
Proof.
  unfold RangeH.toVector. intros [Hcase ->]%toVectorFrom_returns.
  split; [|done]. destruct Hcase; [by left|by right].
Qed.

Lemma toVector_returns_only_valid_witness :
  (RangeH.Begin (RangeH.mkRange 1 3) = RangeH.End_ (RangeH.mkRange 1 3) \/
   RangeH.valid [10; 20; 30; 40]%Z (RangeH.mkRange 1 3)) /\
  [20; 30]%Z = RangeH.elements [10; 20; 30; 40]%Z (RangeH.mkRange 1 3).
Proof.
  apply (toVector_returns_only_valid [10; 20; 30; 40]%Z (RangeH.mkRange 1 3) 3).
  reflexivity.
Defined.

(** X16.  The range made of a container gives the container back: its
    [toVector] is the container, its [size()] the container's length, and
    [operator[]] reads the container's element at that index. *)
Theorem make_range_round_trip {A} (c : list A) :
  RangeH.toVector (S (length c)) c (RangeH.make_range c) = Returns c /\
  RangeH.size (RangeH.make_range c) = Z.of_nat (length c) /\
  forall i : nat, RangeH.subscript c (RangeH.make_range c) (Z.of_nat i) = c !! i.
Proof.
  split; [|split].
  - unfold RangeH.toVector, RangeH.make_range.
    cbn [RangeH.Begin RangeH.End_].
    rewrite toVectorFrom_valid by lia.
    rewrite Z.sub_0_r, Nat2Z.id. cbn [Z.to_nat drop app].
    by rewrite take_ge by done.
  - unfold RangeH.size. simpl. lia.
  - intros i. unfold RangeH.subscript, RangeH.deref.
    cbn [RangeH.Begin RangeH.make_range]. rewrite Z.add_0_l.
    rewrite (proj2 (Z.leb_le _ _)) by lia. by rewrite Nat2Z.id.
Qed.

(** X17.  Inside a valid range [operator[]] reads what [toVector] lists at
    that index. *)
Theorem subscript_elements {A} (c : list A) R n :
  RangeH.valid c R -> (0 <= n)%Z -> (n < RangeH.size R)%Z ->
  RangeH.subscript c R n = RangeH.elements c R !! Z.to_nat n /\
  is_Some (RangeH.subscript c R n).
Proof.
  intros (H0 & H1 & H2) Hn0 Hn. unfold RangeH.size in Hn.
  assert (RangeH.subscript c R n = RangeH.elements c R !! Z.to_nat n) as Heq.
  { unfold RangeH.subscript, RangeH.deref, RangeH.elements.
    rewrite (proj2 (Z.leb_le _ _)) by lia.
    rewrite lookup_take_lt by lia. rewrite lookup_drop. f_equal. lia. }
  split; [done|]. rewrite Heq. apply lookup_lt_is_Some.
  unfold RangeH.elements. rewrite length_take, length_drop. lia.
Qed.

Lemma subscript_elements_witness :
  RangeH.subscript [10; 20; 30; 40]%Z (RangeH.mkRange 1 3) 1
  = RangeH.elements [10; 20; 30; 40]%Z (RangeH.mkRange 1 3) !! Z.to_nat 1 /\
  is_Some (RangeH.subscript [10; 20; 30; 40]%Z (RangeH.mkRange 1 3) 1).
Proof.
  apply (subscript_elements [10; 20; 30; 40]%Z (RangeH.mkRange 1 3) 1).
  - unfold RangeH.valid. simpl. lia.
  - lia.
  - unfold RangeH.size. simpl. lia.
Defined.


(** * The split pair, composed *)

Lemma locate_run_getOpcode Relocations M BB y :
  getOpcode (LocateRelocationAccessesPass.runOnBasicBlock Relocations M BB).1 y
  = getOpcode M y.
Proof.
  pose proof (locate_foldl_frame Relocations (M, false) (blockInsts M BB))
    as (_ & _ & _ & _ & Hi).
  unfold LocateRelocationAccessesPass.runOnBasicBlock, getOpcode.
  apply (f_equal (fun l => fst <$> l !! y)) in Hi.
  rewrite !list_lookup_fmap in Hi. simpl in Hi.
  by rewrite <- !option_fmap_compose in Hi.
Qed.

(** X19.  The locator and the split rewrite compose: where the locator
    freshly tags a load of the block from a record with a zero addend and a
    name, a successful rewrite of the located module leaves every store of
    that load to the program counter immediately followed by a direct call
    to the record's [dl.]-function. *)
Theorem locate_then_rewrite_links isPCReg Relocations M BB x S ptr c r M2 ch :
  stubCompatible M ->
  x ∈ blockInsts M BB -> getMetadata M x = None ->
  constantAddress M x = Some c -> firstMatch Relocations c = Some r ->
  int64 (Addend r) = 0 -> Name r <> EmptyString ->
  getOpcode M S = Some (StoreInst (VInst x) ptr) -> isPCReg ptr = true ->
  S ∈ moduleInsts M ->
  AddRelocationCallsPass.runOnModule isPCReg
    (LocateRelocationAccessesPass.runOnBasicBlock Relocations M BB).1
  = Ok (M2, ch) ->
  exists nx args,
    getNextNode M2 S = Some nx /\
    getOpcode M2 nx = Some (CallInst (VFunction ("dl." +:+ Name r)) args).
Proof.
  intros HM Hx Hmd Hc Hr Hz Hname HS Hpc HSin.
  pose proof (locate_foldl_frame Relocations (M, false) (blockInsts M BB))
    as (Hb & Hf & Hg & _ & _).
  pose proof (locate_foldl_metadata Relocations (M, false) (blockInsts M BB) x)
    as Htag.
  pose proof (locate_run_getOpcode Relocations M BB) as Hop.
  fold (LocateRelocationAccessesPass.runOnBasicBlock Relocations M BB)
    in Hb, Hf, Hg, Htag.
  set (ML := (LocateRelocationAccessesPass.runOnBasicBlock Relocations M BB).1) in *.
  simpl in Hb, Hf, Hg, Htag.
  rewrite decide_True in Htag by done. unfold tagFor in Htag.
  rewrite Hmd, Hc in Htag. simpl in Htag. rewrite Hr in Htag. simpl in Htag.
  rewrite Hz in Htag.
  intros Hrun.
  assert (wants isPCReg ML S ("dl." +:+ Name r)) as Hw.
  { exists (VInst x), ptr, x. rewrite Hop. split; [done|]. split; [done|]. split.
    - unfold asLoad. rewrite Hop. unfold constantAddress in Hc.
      by destruct (getOpcode M x) as [[]|].
    - unfold AddRelocationCallsPass.getRelocName. by rewrite Htag. }
  assert (stubCompatible ML) as HML.
  { unfold stubCompatible. by rewrite Hg, Hf. }
  destruct (visitAll_Ok _ _ _ _ _ _ Hrun) as (E & _ & _ & Hcompat).
  destruct (Hcompat HML) as [_ Hsettled].
  apply (succeededByCall_true _ _ _ (dl_nonempty (Name r))). apply Hsettled.
  - unfold moduleInsts, blockInsts. rewrite Hf, Hb. exact HSin.
  - by apply (extends_wants _ _ _ _ _ E).
Qed.

Lemma locate_then_rewrite_links_witness :
  exists nx args,
    getNextNode
      (mkModule
         (insts (Scenario.block 0x4020 (Some (mkMD "printf" 0))) ++
          [mkInst ReturnInst 1 None;
           mkInst (CallInst (VFunction "dl.printf") []) 0 None])
         [[0; 1; 4; 2]; [3]]%nat
         [Scenario.root; mkFn "dl.printf" AddRelocationCallsPass.voidFn [1%nat]]
         ["pc"] None) 1 = Some nx /\
    getOpcode
      (mkModule
         (insts (Scenario.block 0x4020 (Some (mkMD "printf" 0))) ++
          [mkInst ReturnInst 1 None;
           mkInst (CallInst (VFunction "dl.printf") []) 0 None])
         [[0; 1; 4; 2]; [3]]%nat
         [Scenario.root; mkFn "dl.printf" AddRelocationCallsPass.voidFn [1%nat]]
         ["pc"] None) nx
    = Some (CallInst (VFunction "dl.printf") args).
Proof.
  apply (locate_then_rewrite_links Scenario.isPCReg Scenario.printfRelocs
           (Scenario.block 0x4020 None) 0 0 1 (VGlobalVar "pc") 0x4020
           (mkReloc 0x4020 "printf" 0) _ true); try reflexivity.
  - apply stubCompatible_block.
  - apply list_elem_of_here.
  - done.
  - apply list_elem_of_further, list_elem_of_here.
Defined.
